(** * Warframe farm route planner: scoring and coverage planning

    A shallow embedding of the planner logic of [app.js] (the "v2" planner:
    [norm], [quickMultiplier], [quickMissionMultiplier], [computeEffScore],
    [nodeEligibleByRunMode], [pickTopOptions], [planMaximizeEfficiency],
    [planMinimizeStops] and the indexing loop of [loadData]), of its text
    helpers ([escapeHtml], [resourceIconName], [parseCsv]) and of the
    handlers of the page ([getSelectedResources], [populateResources],
    [selectAllResources], [planRoute]).

    Modelling conventions.
    - JavaScript numbers are exact rationals ([Q]).  Every numeric field of
      the catalog is stored through [Number(x) || 0], so [NaN] never reaches
      the arithmetic below; infinities and rounding are not modelled.
    - JavaScript strings are [string]s over 8-bit characters; [trim] strips
      the ASCII white space characters and [toLowerCase] folds [A]-[Z].
    - A [Map] is an association list in insertion order with unique keys, a
      [Set] a duplicate-free list in insertion order: the planners iterate
      over both, and the iteration order decides ties.
    - The module-level variables ([EXPLICIT], [NODE_META], ...) form a
      [Store] that is threaded through a small state monad [Prog]. *)

From Stdlib Require Import List String Ascii Bool Arith Lia.
From Stdlib Require Import QArith Qminmax Lqa.
From Stdlib Require Import Sorting.Sorted Sorting.Permutation.
Import ListNotations.

Local Open Scope string_scope.
Local Open Scope list_scope.
Local Open Scope Q_scope.

(** ** Strings *)

Module JsString.

(** White space removed by [String.prototype.trim] (ASCII part):
    TAB, LF, VT, FF, CR and SPACE. *)
Definition isWhiteSpace (c : ascii) : bool :=
  let n := nat_of_ascii c in
  ((9 <=? n) && (n <=? 13) || (n =? 32))%nat.

Fixpoint trimStart (s : string) : string :=
  match s with
  | EmptyString => EmptyString
  | String c r => if isWhiteSpace c then trimStart r else s
  end.

Fixpoint trimEnd (s : string) : string :=
  match s with
  | EmptyString => EmptyString
  | String c r =>
      match trimEnd r with
      | EmptyString => if isWhiteSpace c then EmptyString else String c EmptyString
      | r' => String c r'
      end
  end.

Definition trim (s : string) : string := trimEnd (trimStart s).

Definition lowerChar (c : ascii) : ascii :=
  let n := nat_of_ascii c in
  if ((65 <=? n) && (n <=? 90))%nat then ascii_of_nat (n + 32) else c.

Fixpoint toLowerCase (s : string) : string :=
  match s with
  | EmptyString => EmptyString
  | String c r => String (lowerChar c) (toLowerCase r)
  end.

(** [s.includes(needle)]. *)
Fixpoint includes (s needle : string) : bool :=
  prefix needle s ||
  match s with
  | EmptyString => false
  | String _ r => includes r needle
  end.

(** Truthiness of a string: only the empty string is falsy. *)
Definition truthy (s : string) : bool := negb (s =? "").

(** [a || b] on strings. *)
Definition orElse (a b : string) : string := if truthy a then a else b.

(** [s.split(",")]. *)
Fixpoint splitComma (s : string) : list string :=
  match s with
  | EmptyString => [EmptyString]
  | String c r =>
      if (c =? ",")%char then EmptyString :: splitComma r
      else match splitComma r with
           | [] => [String c EmptyString]
           | w :: ws => String c w :: ws
           end
  end.

End JsString.

Import JsString.

(** [norm(s)]: [String(s ?? "").trim().toLowerCase()]. *)
Definition norm (s : string) : string := toLowerCase (trim s).

(** ** Numbers *)

Definition Qlt_bool (a b : Q) : bool := negb (Qle_bool b a).

(** [Math.max(0, Math.min(5, Number(speedScore) || 0))] then the bias. *)
Definition quickMultiplier (speedScore : Q) : Q :=
  let s := Qmax 0 (Qmin 5 speedScore) in
  0.6 + 0.4 * (s / 5).

(** The clamp of the specification, written from its words. *)
Definition clamp (s lo hi : Q) : Q :=
  if Qlt_bool s lo then lo else if Qlt_bool hi s then hi else s.

(** ** Mission-type bias *)

Definition quickMissionMultiplier (missionType : string) (isEndless : bool) : Q :=
  let mt := norm missionType in
  (* Strongly quick-friendly *)
  if includes mt "capture" then 1.40 else
  if includes mt "exterminate" then 1.30 else
  if includes mt "rescue" then 1.22 else
  if includes mt "sabotage" then 1.18 else
  (* Moderate *)
  if includes mt "spy" then 1.10 else
  if includes mt "disruption" then 1.08 else
  if includes mt "activity" then 1.20 else
  (* Usually slower or rotation-based *)
  if includes mt "survival" then 0.90 else
  if includes mt "defense" then 0.86 else
  if includes mt "interception" then 0.85 else
  if includes mt "excavation" then 0.92 else
  if includes mt "mobile defense" then 0.82 else
  (* Default neutral *)
  let mult := 1.0 in
  (* Small universal penalty for endless when user asked "Quick" *)
  let mult := if isEndless then mult * 0.92 else mult in
  mult.

(** The [return] statement of [quickMissionMultiplier] that is executed. *)
Inductive Branch : Type :=
| BCapture | BExterminate | BRescue | BSabotage | BSpy | BDisruption
| BActivity | BSurvival | BDefense | BInterception | BExcavation
| BMobileDefense | BDefault.

Definition quickMissionBranch (missionType : string) : Branch :=
  let mt := norm missionType in
  if includes mt "capture" then BCapture else
  if includes mt "exterminate" then BExterminate else
  if includes mt "rescue" then BRescue else
  if includes mt "sabotage" then BSabotage else
  if includes mt "spy" then BSpy else
  if includes mt "disruption" then BDisruption else
  if includes mt "activity" then BActivity else
  if includes mt "survival" then BSurvival else
  if includes mt "defense" then BDefense else
  if includes mt "interception" then BInterception else
  if includes mt "excavation" then BExcavation else
  if includes mt "mobile defense" then BMobileDefense else
  BDefault.

(** The value each [return] statement yields. *)
Definition branchValue (b : Branch) (isEndless : bool) : Q :=
  match b with
  | BCapture => 1.40 | BExterminate => 1.30 | BRescue => 1.22
  | BSabotage => 1.18 | BSpy => 1.10 | BDisruption => 1.08
  | BActivity => 1.20 | BSurvival => 0.90 | BDefense => 0.86
  | BInterception => 0.85 | BExcavation => 0.92 | BMobileDefense => 0.82
  | BDefault => if isEndless then 1.0 * 0.92 else 1.0
  end.

(** ** Close-score grouping *)

(** The items handed to [pickTopOptions] are objects with a [score]. *)
Class HasScore (A : Type) : Type := scoreOf : A -> Q.

Section PickTop.
Context {A : Type} `{HasScore A}.

(** The [for ... of] loop of [pickTopOptions]; [break] ends the loop. *)
Fixpoint pickLoop (best : Q) (maxOptions : nat) (rest out : list A) : list A :=
  match rest with
  | [] => out
  | it :: rest' =>
      if (maxOptions <=? List.length out)%nat then out
      else if Qle_bool (best * 0.9) (scoreOf it)
           then pickLoop best maxOptions rest' (out ++ [it])
           else pickLoop best maxOptions rest' out
  end.

Definition pickTopOptions (scoredList : list A) (maxOptions : nat) : list A :=
  match scoredList with
  | [] => []
  | first :: _ => pickLoop (scoreOf first) maxOptions scoredList []
  end.

(** [(a, b) => b.score - a.score]. *)
Definition byScoreDesc (a b : A) : Q := scoreOf b - scoreOf a.

(** Descending order of scores. *)
Definition scoreGe (a b : A) : Prop := scoreOf b <= scoreOf a.

End PickTop.

(** [list.sort(cmp)]: the stable sort for the comparator [cmp]; an element
    stays behind the ones that compare strictly before it and goes in front
    of the others, which keeps equal elements in their original order. *)
Section Sort.
Context {A : Type}.
Variable cmp : A -> A -> Q.

Fixpoint insertBy (x : A) (l : list A) : list A :=
  match l with
  | [] => [x]
  | y :: r => if Qlt_bool (cmp y x) 0 then y :: insertBy x r else x :: l
  end.

Definition sortBy (l : list A) : list A := fold_right insertBy [] l.
End Sort.

(** ** Maps and sets in insertion order *)

Module JsMap.
Definition t (V : Type) : Type := list (string * V).

Section Ops.
Context {V : Type}.

Fixpoint get (m : t V) (k : string) : option V :=
  match m with
  | [] => None
  | (k', v) :: r => if k' =? k then Some v else get r k
  end.

(** [set] on a present key replaces the value where it stands;
    a new key goes to the end. *)
Fixpoint set (m : t V) (k : string) (v : V) : t V :=
  match m with
  | [] => [(k, v)]
  | (k', v') :: r => if k' =? k then (k, v) :: r else (k', v') :: set r k v
  end.

Definition has (m : t V) (k : string) : bool :=
  match get m k with Some _ => true | None => false end.

Definition keys (m : t V) : list string := map fst m.
Definition values (m : t V) : list V := map snd m.
Definition entries (m : t V) : list (string * V) := m.
Definition size (m : t V) : nat := List.length m.

(** [new Map(pairs)]. *)
Definition ofList (pairs : list (string * V)) : t V :=
  fold_left (fun m kv => set m (fst kv) (snd kv)) pairs [].
End Ops.
End JsMap.

Module JsSet.
Definition t : Type := list string.

Definition has (s : t) (k : string) : bool := existsb (String.eqb k) s.
Definition add (s : t) (k : string) : t := if has s k then s else s ++ [k].
Definition delete (s : t) (k : string) : t :=
  filter (fun x => negb (x =? k)) s.
Definition size (s : t) : nat := List.length s.

(** [new Set(items)]. *)
Definition ofList (items : list string) : t := fold_left add items [].
End JsSet.

(** ** Catalog records *)

Module NodeMeta.
Record t : Type := mk {
  node : string;
  planet : string;
  planetKey : string;
  missionType : string;
  isEndless : bool;
  speedScore : Q
}.
End NodeMeta.

Module ScoreObj.
Record t : Type := mk {
  dropScore : Q;
  speedScore : Q;
  isEndless : bool
}.
End ScoreObj.

Module MasterRow.
Record t : Type := mk {
  resource : string;
  node : string;
  planet : string;
  missionType : string;
  isEndless : bool;
  speedScore : Q;
  dropScore : Q;
  rKey : string;
  nKey : string;
  pKey : string
}.
End MasterRow.

(** The module-level state of [app.js]. *)
Record Store : Type := mkStore {
  MASTER_ROWS : list MasterRow.t;
  PLANET_DROPS : JsMap.t JsSet.t;
  RESOURCES : list string;
  NODE_META : JsMap.t NodeMeta.t;
  SELECTED_KEYS : JsSet.t;
  EXPLICIT : JsMap.t (JsMap.t ScoreObj.t)
}.

Definition set_MASTER_ROWS (v : list MasterRow.t) (st : Store) : Store :=
  mkStore v (PLANET_DROPS st) (RESOURCES st) (NODE_META st)
          (SELECTED_KEYS st) (EXPLICIT st).
Definition set_PLANET_DROPS (v : JsMap.t JsSet.t) (st : Store) : Store :=
  mkStore (MASTER_ROWS st) v (RESOURCES st) (NODE_META st)
          (SELECTED_KEYS st) (EXPLICIT st).
Definition set_RESOURCES (v : list string) (st : Store) : Store :=
  mkStore (MASTER_ROWS st) (PLANET_DROPS st) v (NODE_META st)
          (SELECTED_KEYS st) (EXPLICIT st).
Definition set_NODE_META (v : JsMap.t NodeMeta.t) (st : Store) : Store :=
  mkStore (MASTER_ROWS st) (PLANET_DROPS st) (RESOURCES st) v
          (SELECTED_KEYS st) (EXPLICIT st).
Definition set_EXPLICIT (v : JsMap.t (JsMap.t ScoreObj.t)) (st : Store) : Store :=
  mkStore (MASTER_ROWS st) (PLANET_DROPS st) (RESOURCES st) (NODE_META st)
          (SELECTED_KEYS st) v.

(** ** Programs over the store *)

Definition Prog (A : Type) : Type := Store -> A * Store.

Definition ret {A : Type} (a : A) : Prog A := fun st => (a, st).

Definition bind {A B : Type} (m : Prog A) (k : A -> Prog B) : Prog B :=
  fun st => let (a, st') := m st in k a st'.

(** Reading and assigning module-level variables. *)
Definition gets {A : Type} (f : Store -> A) : Prog A := fun st => (f st, st).
Definition modify (f : Store -> Store) : Prog unit := fun st => (tt, f st).

Declare Scope prog_scope.
Delimit Scope prog_scope with prog.
Notation "x <- m ;; k" := (bind m (fun x => k))
  (at level 61, m at next level, right associativity) : prog_scope.
Notation "m ;;; k" := (bind m (fun _ => k))
  (at level 61, right associativity) : prog_scope.
Local Open Scope prog_scope.

(** [for (const x of l) body], the loop-carried variables in [acc]. *)
Fixpoint forEach {A B : Type} (l : list A) (acc : B) (body : B -> A -> Prog B)
  : Prog B :=
  match l with
  | [] => ret acc
  | x :: r => acc' <- body acc x ;; forEach r acc' body
  end.

(** [l.filter(p)] and [l.map(f)] with callbacks that read the store. *)
Fixpoint filterM {A : Type} (p : A -> Prog bool) (l : list A) : Prog (list A) :=
  match l with
  | [] => ret []
  | x :: r =>
      b <- p x ;;
      r' <- filterM p r ;;
      ret (if b then x :: r' else r')
  end.

Fixpoint mapM {A B : Type} (f : A -> Prog B) (l : list A) : Prog (list B) :=
  match l with
  | [] => ret []
  | x :: r => y <- f x ;; r' <- mapM f r ;; ret (y :: r')
  end.


(** ** Scoring helpers *)

Definition FALLBACK_SCORE : Q := 2.

Definition getExplicitScore (rKey nKey : string) : Prog (option ScoreObj.t) :=
  map <- gets (fun st => JsMap.get (EXPLICIT st) rKey) ;;
  match map with
  | None => ret None
  | Some map => ret (JsMap.get map nKey)
  end.

Definition planetHasResourceFallback (rKey planetKey : string) : Prog bool :=
  set <- gets (fun st => JsMap.get (PLANET_DROPS st) rKey) ;;
  ret (match set with
       | Some set => JsSet.has set planetKey
       | None => false
       end).

Definition computeEffScore (scoreObj : ScoreObj.t) (runMode : string)
  (meta : NodeMeta.t) : Q :=
  let dropScore := ScoreObj.dropScore scoreObj in
  let speedScore := ScoreObj.speedScore scoreObj in
  if runMode =? "quick" then
    let qm := quickMultiplier speedScore in
    let mm := quickMissionMultiplier (orElse (NodeMeta.missionType meta) "")
                                     (NodeMeta.isEndless meta) in
    dropScore * qm * mm
  else
    (* endless mode: no bias by mission type, it is already filtered *)
    dropScore.

Definition nodeEligibleByRunMode (nMeta : NodeMeta.t) (runMode : string) : bool :=
  if runMode =? "endless" then NodeMeta.isEndless nMeta else true.

(** ** Planner: maximize efficiency *)

Module Scored.
Record t : Type := mk { nodeKey : string; score : Q }.
End Scored.

#[export] Instance Scored_HasScore : HasScore Scored.t := Scored.score.

Module EffOption.
Record t : Type := mk {
  nodeKey : string;
  score : Q;
  meta : option NodeMeta.t
}.
End EffOption.

Module EffResult.
Record t : Type := mk {
  resource : string;
  options : list EffOption.t;
  note : option string
}.
End EffResult.

(** Body of the loop over [explicitMap.entries()]. *)
Definition scoreEntry (runMode : string) (scored : list Scored.t)
  (entry : string * ScoreObj.t) : Prog (list Scored.t) :=
  let (nKey, s) := entry in
  meta <- gets (fun st => JsMap.get (NODE_META st) nKey) ;;
  match meta with
  | None => ret scored
  | Some meta =>
      if negb (nodeEligibleByRunMode meta runMode) then ret scored
      else
        let eff := computeEffScore s runMode meta in
        ret (scored ++ [Scored.mk nKey eff])
  end.

(** The callback of [pickTopOptions(scored, 3).map(...)]. *)
Definition withMeta (o : Scored.t) : Prog EffOption.t :=
  meta <- gets (fun st => JsMap.get (NODE_META st) (Scored.nodeKey o)) ;;
  ret (EffOption.mk (Scored.nodeKey o) (Scored.score o) meta).

(** Body of the loop over [selectedResources]. *)
Definition planResource (runMode : string) (results : list EffResult.t)
  (rName : string) : Prog (list EffResult.t) :=
  let rKey := norm rName in
  explicitMap <- gets (fun st => JsMap.get (EXPLICIT st) rKey) ;;
  let noData :=
    EffResult.mk rName [] (Some "No explicit data for this resource.") in
  match explicitMap with
  | None => ret (results ++ [noData])
  | Some explicitMap =>
      if (JsMap.size explicitMap =? 0)%nat then ret (results ++ [noData])
      else
        scored <- forEach (JsMap.entries explicitMap) [] (scoreEntry runMode) ;;
        let scored := sortBy byScoreDesc scored in
        options <- mapM withMeta (pickTopOptions scored 3) ;;
        ret (results ++ [EffResult.mk rName options None])
  end.

Definition planMaximizeEfficiency (selectedResources : list string)
  (runMode : string) : Prog (list EffResult.t) :=
  forEach selectedResources [] (planResource runMode).

(** ** Planner: minimize stops *)

Module Covered.
Record t : Type := mk { resource : string; via : string; score : Q }.
End Covered.

Module StopOption.
Record t : Type := mk {
  nodeKey : string;
  score : Q;
  meta : NodeMeta.t;
  covered : list Covered.t
}.
End StopOption.

#[export] Instance StopOption_HasScore : HasScore StopOption.t :=
  StopOption.score.

Module Step.
Record t : Type := mk { options : list StopOption.t }.
End Step.

Module StopsPlan.
Record t : Type := mk { route : list Step.t; missing : list string }.
End StopsPlan.

Definition maxStops : nat := 6.

(** [rDisplay.get(rKey) || rKey]. *)
Definition displayOf (rDisplay : JsMap.t string) (rKey : string) : string :=
  match JsMap.get rDisplay rKey with
  | Some d => orElse d rKey
  | None => rKey
  end.

(** Body of the loop over [remaining] for one candidate node; the
    loop-carried variables are [total] and [covered]. *)
Definition coverResource (runMode : string) (rDisplay : JsMap.t string)
  (nKey : string) (meta : NodeMeta.t) (acc : Q * list Covered.t)
  (rKey : string) : Prog (Q * list Covered.t) :=
  let (total, covered) := acc in
  explicit <- getExplicitScore rKey nKey ;;
  match explicit with
  | Some explicit =>
      let eff := computeEffScore explicit runMode meta in
      if Qlt_bool 0 eff
      then ret (total + eff,
                covered ++ [Covered.mk (displayOf rDisplay rKey) "explicit" eff])
      else ret (total, covered)
  | None =>
      (* Planet fallback *)
      fallback <- planetHasResourceFallback rKey (NodeMeta.planetKey meta) ;;
      if fallback then
        let fb := FALLBACK_SCORE in
        let fb :=
          if runMode =? "quick" then
            fb * quickMultiplier (NodeMeta.speedScore meta)
               * quickMissionMultiplier (orElse (NodeMeta.missionType meta) "")
                                        (NodeMeta.isEndless meta)
          else fb in
        ret (total + fb,
             covered ++ [Covered.mk (displayOf rDisplay rKey) "planet" fb])
      else ret (total, covered)
  end.

(** Body of the loop over [candidates]. *)
Definition scoreCandidate (runMode : string) (rDisplay : JsMap.t string)
  (remaining : JsSet.t) (scored : list StopOption.t) (nKey : string)
  : Prog (list StopOption.t) :=
  meta <- gets (fun st => JsMap.get (NODE_META st) nKey) ;;
  match meta with
  | None => ret scored
  | Some meta =>
      tc <- forEach remaining (0, []) (coverResource runMode rDisplay nKey meta) ;;
      let (total, covered) := tc in
      if (List.length covered =? 0)%nat then ret scored
      else ret (scored ++ [StopOption.mk nKey total meta covered])
  end.

(** [for (const c of best.covered) remaining.delete(norm(c.resource))]. *)
Definition removeCovered (remaining : JsSet.t) (covered : list Covered.t)
  : JsSet.t :=
  fold_left (fun rem c => JsSet.delete rem (norm (Covered.resource c)))
            covered remaining.

(** The [while] loop.  Every turn either leaves through [break] or adds a
    step to [route], so [maxStops] turns always suffice; [None] is the
    answer of a run that was given too few. *)
Fixpoint stopsLoop (turns : nat) (runMode : string) (rDisplay : JsMap.t string)
  (candidates : list string) (remaining : JsSet.t) (route : list Step.t)
  : Prog (option (list Step.t * JsSet.t)) :=
  if negb ((0 <? JsSet.size remaining) && (List.length route <? maxStops))%nat
  then ret (Some (route, remaining))
  else
    match turns with
    | O => ret None
    | S turns' =>
        scored <- forEach candidates []
                    (scoreCandidate runMode rDisplay remaining) ;;
        let scored := sortBy byScoreDesc scored in
        let top := pickTopOptions scored 3 in
        match top with
        | [] => ret (Some (route, remaining))
        | best :: _ =>
            (* Best option determines what gets covered for the greedy loop *)
            let remaining' := removeCovered remaining (StopOption.covered best) in
            let step :=
              Step.mk (map (fun opt =>
                              StopOption.mk (StopOption.nodeKey opt)
                                            (StopOption.score opt)
                                            (StopOption.meta opt)
                                            (StopOption.covered opt)) top) in
            stopsLoop turns' runMode rDisplay candidates remaining'
                      (route ++ [step])
        end
    end.

(** Body of the loop that collects [candidateNodes]. *)
Definition collectNodes (candidateNodes : JsSet.t) (rKey : string)
  : Prog JsSet.t :=
  map <- gets (fun st => JsMap.get (EXPLICIT st) rKey) ;;
  match map with
  | None => ret candidateNodes
  | Some map => ret (fold_left JsSet.add (JsMap.keys map) candidateNodes)
  end.

(** The callback of [[...candidateNodes].filter(...)]. *)
Definition candidateOk (runMode : string) (nKey : string) : Prog bool :=
  meta <- gets (fun st => JsMap.get (NODE_META st) nKey) ;;
  match meta with
  | None => ret false
  | Some meta => ret (nodeEligibleByRunMode meta runMode)
  end.

Definition planMinimizeStops (selectedResources : list string)
  (runMode : string) : Prog (option StopsPlan.t) :=
  let remaining := JsSet.ofList (map norm selectedResources) in
  let rDisplay := JsMap.ofList (map (fun r => (norm r, r)) selectedResources) in
  candidateNodes <- forEach remaining [] collectNodes ;;
  candidates <- filterM (candidateOk runMode) candidateNodes ;;
  out <- stopsLoop maxStops runMode rDisplay candidates remaining [] ;;
  match out with
  | None => ret None
  | Some (route, remaining) =>
      ret (Some (StopsPlan.mk route (map (displayOf rDisplay) remaining)))
  end.

(** ** Catalog build: the indexing loops of [loadData]

    [loadData] fetches and parses two CSV files and then indexes the parsed
    rows; the indexing is modelled here, from the parsed tables on.  A parsed
    row is the object [parseCsv] builds: header name to cell text. *)

Definition RawRow : Type := JsMap.t string.

Section Load.

(** [Number(cell) || 0], the numeric coercion of a cell. *)
Variable numberOrZero : string -> Q.
(** [a.localeCompare(b)]. *)
Variable localeCompare : string -> string -> Q.

(** [row.name ?? row.Name]. *)
Definition column (row : RawRow) (name Name : string) : option string :=
  match JsMap.get row name with
  | Some v => Some v
  | None => JsMap.get row Name
  end.

(** [String(cell ?? "").trim()]. *)
Definition textOf (cell : option string) : string :=
  trim (match cell with Some v => v | None => "" end).

(** [Number(cell ?? 0) || 0]. *)
Definition numberOf (cell : option string) : Q :=
  match cell with Some v => numberOrZero v | None => 0 end.

(** Body of the loop over the master table. *)
Definition indexMasterRow (row : RawRow) : Prog unit :=
  let resource := textOf (column row "resource" "Resource") in
  let node := textOf (column row "node" "Node") in
  let planetName := textOf (column row "planet" "Planet") in
  let missionType := textOf (column row "missionType" "MissionType") in
  let isEndless :=
    toLowerCase (textOf (column row "isEndless" "IsEndless")) =? "true" in
  let speedScore := numberOf (column row "speedScore" "SpeedScore") in
  let dropScore := numberOf (column row "dropScore" "DropScore") in
  if negb (truthy resource) || negb (truthy node) then ret tt
  else
    let rKey := norm resource in
    let nKey := norm node in
    modify (fun st =>
      set_MASTER_ROWS
        (MASTER_ROWS st ++
         [MasterRow.mk resource node planetName missionType isEndless
                       speedScore dropScore rKey nKey (norm planetName)]) st) ;;;
    (* node meta (first one wins, assume consistent) *)
    known <- gets (fun st => JsMap.has (NODE_META st) nKey) ;;
    (if negb known then
       modify (fun st =>
         set_NODE_META
           (JsMap.set (NODE_META st) nKey
              (NodeMeta.mk node planetName (norm planetName)
                           (orElse missionType "Other") isEndless speedScore))
           st)
     else ret tt) ;;;
    listed <- gets (fun st => JsMap.has (EXPLICIT st) rKey) ;;
    (if negb listed then
       modify (fun st => set_EXPLICIT (JsMap.set (EXPLICIT st) rKey []) st)
     else ret tt) ;;;
    modify (fun st =>
      match JsMap.get (EXPLICIT st) rKey with
      | Some inner =>
          set_EXPLICIT
            (JsMap.set (EXPLICIT st) rKey
               (JsMap.set inner nKey
                  (ScoreObj.mk dropScore speedScore isEndless))) st
      | None => st
      end).

(** Unique resources list: [rKey -> displayName], first one wins. *)
Definition uniqueResources (rows : list MasterRow.t) : JsMap.t string :=
  fold_left (fun u r =>
               if negb (JsMap.has u (MasterRow.rKey r))
               then JsMap.set u (MasterRow.rKey r) (MasterRow.resource r)
               else u) rows [].

(** Body of the loop over the planet table. *)
Definition indexPlanetRow (row : RawRow) : Prog unit :=
  let planetName := textOf (column row "planet" "Planet") in
  let resources := textOf (column row "resources" "Resources") in
  if negb (truthy planetName) then ret tt
  else
    let pKey := norm planetName in
    let list := filter truthy (map trim (splitComma resources)) in
    forEach list tt (fun _ r =>
      let rKey := norm r in
      known <- gets (fun st => JsMap.has (PLANET_DROPS st) rKey) ;;
      (if negb known then
         modify (fun st =>
           set_PLANET_DROPS (JsMap.set (PLANET_DROPS st) rKey []) st)
       else ret tt) ;;;
      modify (fun st =>
        match JsMap.get (PLANET_DROPS st) rKey with
        | Some set =>
            set_PLANET_DROPS
              (JsMap.set (PLANET_DROPS st) rKey (JsSet.add set pKey)) st
        | None => st
        end)).

Definition loadData (master planet : list RawRow) : Prog unit :=
  modify (set_MASTER_ROWS []) ;;;
  (* Build explicit rows and node meta *)
  modify (set_NODE_META []) ;;;
  modify (set_EXPLICIT []) ;;;
  forEach master tt (fun _ row => indexMasterRow row) ;;;
  (* Unique resources list (from explicit only) *)
  rows <- gets MASTER_ROWS ;;
  modify (set_RESOURCES
            (sortBy localeCompare (JsMap.values (uniqueResources rows)))) ;;;
  (* Planet drops: resource -> set(planets) *)
  modify (set_PLANET_DROPS []) ;;;
  forEach planet tt (fun _ row => indexPlanetRow row).

(** The rows [indexMasterRow] does not skip. *)
Definition rowIsIndexed (row : RawRow) : bool :=
  truthy (textOf (column row "resource" "Resource")) &&
  truthy (textOf (column row "node" "Node")).

End Load.

(** ** Vocabulary of the properties *)

(** One of the rules tested before ["defense"] matches. *)
Definition earlierRuleMatches (mt : string) : bool :=
  includes mt "capture" || includes mt "exterminate" || includes mt "rescue"
  || includes mt "sabotage" || includes mt "spy" || includes mt "disruption"
  || includes mt "activity" || includes mt "survival".

(** [l1] keeps some of the elements of [l2], in the order of [l2]. *)
Inductive subseq {A : Type} : list A -> list A -> Prop :=
| subseq_nil : subseq [] []
| subseq_skip (x : A) (l1 l2 : list A) : subseq l1 l2 -> subseq l1 (x :: l2)
| subseq_keep (x : A) (l1 l2 : list A) : subseq l1 l2 -> subseq (x :: l1) (x :: l2).

(** [m], run in [st], leaves the store as it is and answers with a value
    that satisfies [R]. *)
Definition returns {A : Type} (st : Store) (m : Prog A) (R : A -> Prop) : Prop :=
  snd (m st) = st /\ R (fst (m st)).

(** The catalog holds no [ExplicitDropRecord] for the resource. *)
Definition noRecords (st : Store) (rName : string) : Prop :=
  match JsMap.get (EXPLICIT st) (norm rName) with
  | None => True
  | Some explicitMap => JsMap.size explicitMap = 0%nat
  end.

(** No node with a record for the resource is eligible under [runMode]. *)
Definition noneEligible (st : Store) (runMode rName : string) : Prop :=
  forall explicitMap nKey s meta,
    JsMap.get (EXPLICIT st) (norm rName) = Some explicitMap ->
    In (nKey, s) explicitMap ->
    JsMap.get (NODE_META st) nKey = Some meta ->
    nodeEligibleByRunMode meta runMode = false.

(** An option of the efficiency plan comes from an eligible node that has
    a record in [explicitMap], and carries that node's metadata and score. *)
Definition optionOK (st : Store) (runMode : string)
  (explicitMap : JsMap.t ScoreObj.t) (o : EffOption.t) : Prop :=
  exists s meta,
    In (EffOption.nodeKey o, s) explicitMap /\
    JsMap.get (NODE_META st) (EffOption.nodeKey o) = Some meta /\
    EffOption.meta o = Some meta /\
    nodeEligibleByRunMode meta runMode = true /\
    EffOption.score o = computeEffScore s runMode meta.

Definition noDataNote : string := "No explicit data for this resource.".

Definition resultOK (st : Store) (runMode rName : string) (r : EffResult.t)
  : Prop :=
  EffResult.resource r = rName /\
  match JsMap.get (EXPLICIT st) (norm rName) with
  | None => EffResult.options r = [] /\ EffResult.note r = Some noDataNote
  | Some explicitMap =>
      if (JsMap.size explicitMap =? 0)%nat
      then EffResult.options r = [] /\ EffResult.note r = Some noDataNote
      else EffResult.note r = None /\
           Forall (optionOK st runMode explicitMap) (EffResult.options r)
  end.

(** The primary (first) option of a step covers the resource key. *)
Definition primaryCovers (step : Step.t) (rKey : string) : Prop :=
  exists best c,
    head (Step.options step) = Some best /\
    In c (StopOption.covered best) /\
    norm (Covered.resource c) = rKey.

Definition coveredByRoute (route : list Step.t) (rKey : string) : Prop :=
  exists step, In step route /\ primaryCovers step rKey.

(** An entry of a node's coverage list is backed by the catalog: by the
    explicit record of the pair when there is one, with its strictly
    positive effective score, and by the planet fallback only when there is
    none. *)
Definition coveredOK (st : Store) (runMode nKey : string) (meta : NodeMeta.t)
  (c : Covered.t) : Prop :=
  match fst (getExplicitScore (norm (Covered.resource c)) nKey st) with
  | Some explicit =>
      Covered.via c = "explicit" /\
      Covered.score c = computeEffScore explicit runMode meta /\
      0 < computeEffScore explicit runMode meta
  | None =>
      Covered.via c = "planet" /\
      fst (planetHasResourceFallback (norm (Covered.resource c))
                                     (NodeMeta.planetKey meta) st) = true
  end.

(** An option of a stop is an eligible node of the catalog with its
    metadata and a coverage list backed by the catalog. *)
Definition stopOptionOK (st : Store) (runMode : string) (o : StopOption.t)
  : Prop :=
  JsMap.get (NODE_META st) (StopOption.nodeKey o) = Some (StopOption.meta o) /\
  nodeEligibleByRunMode (StopOption.meta o) runMode = true /\
  Forall (coveredOK st runMode (StopOption.nodeKey o) (StopOption.meta o))
         (StopOption.covered o).

Definition routeOK (st : Store) (runMode : string) (route : list Step.t)
  : Prop :=
  Forall (fun step => Forall (stopOptionOK st runMode) (Step.options step))
         route.

(** A scored candidate of the efficiency plan. *)
Definition scoredOK (st : Store) (runMode : string)
  (explicitMap : JsMap.t ScoreObj.t) (sc : Scored.t) : Prop :=
  exists s meta,
    In (Scored.nodeKey sc, s) explicitMap /\
    JsMap.get (NODE_META st) (Scored.nodeKey sc) = Some meta /\
    nodeEligibleByRunMode meta runMode = true /\
    Scored.score sc = computeEffScore s runMode meta.

(** A catalog with one record for "plastids", on a node that is not
    endless. *)
Definition quickOnlyCatalog : Store :=
  mkStore []
          []
          ["Plastids"]
          [("n1", NodeMeta.mk "N1" "Earth" "earth" "Survival" false 3)]
          []
          [("plastids", [("n1", ScoreObj.mk 5 3 false)])].

(** A candidate node of the stops plan: known to the catalog and eligible. *)
Definition candOK (st : Store) (runMode : string) (nKey : string) : Prop :=
  exists meta,
    JsMap.get (NODE_META st) nKey = Some meta /\
    nodeEligibleByRunMode meta runMode = true.

(** A catalog where "plastids" has a record with drop score 0 on a node
    whose planet is also in the fallback set of "plastids". *)
Definition zeroScoreCatalog : Store :=
  mkStore []
          [("plastids", ["earth"])]
          ["Plastids"]
          [("n1", NodeMeta.mk "N1" "Earth" "earth" "Survival" false 3)]
          []
          [("plastids", [("n1", ScoreObj.mk 0 3 false)])].

(** A small master table: a good row, a row without resource, a row whose
    node is blank, and a second row for the node of the first. *)
Definition sampleMaster : list RawRow :=
  [ [("resource", "Plastids"); ("node", "N1"); ("planet", "Earth");
     ("missionType", "Survival"); ("isEndless", "TRUE");
     ("speedScore", "3"); ("dropScore", "5")];
    [("resource", ""); ("node", "N2"); ("planet", "Mars");
     ("missionType", "Capture"); ("isEndless", "false");
     ("speedScore", "5"); ("dropScore", "5")];
    [("resource", "Rubedo"); ("node", "   "); ("planet", "Mars");
     ("missionType", "Capture"); ("isEndless", "false");
     ("speedScore", "5"); ("dropScore", "5")];
    [("Resource", "Rubedo"); ("Node", " n1 "); ("Planet", "Venus");
     ("MissionType", ""); ("IsEndless", "false");
     ("SpeedScore", "5"); ("DropScore", "3")] ].

Definition samplePlanet : list RawRow :=
  [ [("planet", "Earth"); ("resources", "Rubedo, Ferrite,,")] ].

(** A stand-in for [Number(cell) || 0] on the cells of the sample. *)
Definition sampleNumber (cell : string) : Q :=
  if cell =? "3" then 3 else if cell =? "5" then 5 else 0.

(** A stand-in for [localeCompare] on the names of the sample. *)
Definition sampleCompare (a b : string) : Q :=
  if a =? b then 0 else if (a =? "Plastids") then -1 else 1.

Definition emptyStore : Store := mkStore [] [] [] [] [] [].

Definition sampleCatalog : Store :=
  snd (loadData sampleNumber sampleCompare sampleMaster samplePlanet emptyStore).

(** Two endless nodes with the same score for "rubedo". *)
Definition tieCatalog : Store :=
  mkStore []
          []
          ["Rubedo"]
          [("n1", NodeMeta.mk "N1" "Earth" "earth" "Survival" true 3);
           ("n2", NodeMeta.mk "N2" "Mars" "mars" "Defense" true 2)]
          []
          [("rubedo", [("n1", ScoreObj.mk 4 3 true);
                       ("n2", ScoreObj.mk 4 2 true)])].

(** ** Text helpers and the CSV reader *)

(** The double quote, line feed and carriage return characters. *)
Definition dquote : ascii := ascii_of_nat 34.
Definition lineFeed : ascii := ascii_of_nat 10.
Definition carriageReturn : ascii := ascii_of_nat 13.

(** [s.replaceAll(c, by)] for a one-character pattern [c]. *)
Fixpoint replaceAllChar (c : ascii) (by_ : string) (s : string) : string :=
  match s with
  | EmptyString => EmptyString
  | String x r =>
      if (x =? c)%char then (by_ ++ replaceAllChar c by_ r)%string
      else String x (replaceAllChar c by_ r)
  end.

Definition escapeHtml (s : string) : string :=
  replaceAllChar "'" "&#039;"
    (replaceAllChar dquote "&quot;"
       (replaceAllChar ">" "&gt;"
          (replaceAllChar "<" "&lt;"
             (replaceAllChar "&" "&amp;" s)))).

(** [resourceName.replace(/\s+/g, "")] (ASCII white space). *)
Fixpoint resourceIconName (resourceName : string) : string :=
  match resourceName with
  | EmptyString => EmptyString
  | String c r =>
      if isWhiteSpace c then resourceIconName r
      else String c (resourceIconName r)
  end.

(** [pushRow] of [parseCsv]: a row that is one blank cell is not kept, and
    [row] is then left as it is. *)
Definition pushRow (row : list string) (rows : list (list string))
  : list string * list (list string) :=
  match row with
  | [cell] => if trim cell =? "" then (row, rows) else ([], rows ++ [row])
  | _ => ([], rows ++ [row])
  end.

(** The [while] loop of [parseCsv], on the text from index [i] on. *)
Fixpoint scanCsv (text : string) (inQuotes : bool) (field : string)
  (row : list string) (rows : list (list string))
  : string * list string * list (list string) :=
  match text with
  | EmptyString => (field, row, rows)
  | String c rest =>
      if inQuotes then
        if (c =? dquote)%char then
          match rest with
          | String next rest' =>
              if (next =? dquote)%char
              then scanCsv rest' true (field ++ String dquote "")%string row rows
              else scanCsv rest false field row rows
          | EmptyString => scanCsv rest false field row rows
          end
        else scanCsv rest true (field ++ String c "")%string row rows
      else if (c =? dquote)%char then scanCsv rest true field row rows
      else if (c =? ",")%char then scanCsv rest false "" (row ++ [field]) rows
      else if (c =? lineFeed)%char then
        let (row', rows') := pushRow (row ++ [field]) rows in
        scanCsv rest false "" row' rows'
      else if (c =? carriageReturn)%char then scanCsv rest false field row rows
      else scanCsv rest false (field ++ String c "")%string row rows
  end.

(** The rows of cells [parseCsv] has read when its loop and the final
    [pushField(); pushRow()] are done. *)
Definition csvRows (text : string) : list (list string) :=
  let '(field, row, rows) := scanCsv text false "" [] [] in
  snd (pushRow (row ++ [field]) rows).

(** [obj[key] = value] on an object made by [{}]: a string assigned to
    [__proto__] is dropped by the setter of [Object.prototype]. *)
Definition setProperty (obj : JsMap.t string) (key value : string)
  : JsMap.t string :=
  if key =? "__proto__" then obj else JsMap.set obj key value.

(** [for (c = 0; c < header.length; c++) obj[header[c]] = cells[c] ?? ""],
    from column [c] on. *)
Fixpoint fillRecord (header : list string) (c : nat) (cells : list string)
  (obj : RawRow) : RawRow :=
  match header with
  | [] => obj
  | h :: header' =>
      fillRecord header' (S c) cells (setProperty obj h (nth c cells ""))
  end.

Definition parseCsv (text : string) : list RawRow :=
  match csvRows text with
  | [] => []
  | first :: body =>
      let header := map trim first in
      map (fun cells => fillRecord header 0 cells []) body
  end.

(** A writer for tables: a cell goes as it is when it has no comma, quote
    or line break, and in quotes, with the quotes inside doubled, when it
    has; cells are joined by commas and every row ends with a line feed. *)
Fixpoint doubleQuotes (s : string) : string :=
  match s with
  | EmptyString => EmptyString
  | String c r =>
      if (c =? dquote)%char then String dquote (String dquote (doubleQuotes r))
      else String c (doubleQuotes r)
  end.

Definition quoteCell (s : string) : string :=
  String dquote (doubleQuotes s ++ String dquote "")%string.

Definition plainChar (c : ascii) : bool :=
  negb (c =? dquote)%char && negb (c =? ",")%char
  && negb (c =? lineFeed)%char && negb (c =? carriageReturn)%char.

Fixpoint plainCell (s : string) : bool :=
  match s with
  | EmptyString => true
  | String c r => plainChar c && plainCell r
  end.

Definition writeCell (s : string) : string :=
  if plainCell s then s else quoteCell s.

Fixpoint writeRow (cells : list string) : string :=
  match cells with
  | [] => EmptyString
  | [c] => writeCell c
  | c :: cells' => (writeCell c ++ String "," (writeRow cells'))%string
  end.

Fixpoint writeCsv (table : list (list string)) : string :=
  match table with
  | [] => EmptyString
  | r :: table' => (writeRow r ++ String lineFeed (writeCsv table'))%string
  end.

(** The same table with the line ends of a text file of Windows: a
    carriage return and a line feed after every row. *)
Fixpoint writeCsvCRLF (table : list (list string)) : string :=
  match table with
  | [] => EmptyString
  | r :: table' =>
      (writeRow r
       ++ String carriageReturn (String lineFeed (writeCsvCRLF table')))%string
  end.

(** A row [pushRow] keeps: it is not one blank cell (and it has a cell). *)
Definition rowKept (row : list string) : Prop :=
  row <> [] /\ forall cell, row = [cell] -> trim cell <> "".

(** What [escapeHtml] writes for one character. *)
Definition htmlEntity (c : ascii) : string :=
  if (c =? "&")%char then "&amp;"
  else if (c =? "<")%char then "&lt;"
  else if (c =? ">")%char then "&gt;"
  else if (c =? dquote)%char then "&quot;"
  else if (c =? "'")%char then "&#039;"
  else String c "".

(** A character that cannot open or close a tag or an attribute value. *)
Definition htmlSafeChar (c : ascii) : bool :=
  negb (c =? "<")%char && negb (c =? ">")%char
  && negb (c =? dquote)%char && negb (c =? "'")%char.

(** A small table as a text: a header, a row with a quoted cell that holds
    a comma, and a last row without a line feed. *)
Definition sampleCsv : string :=
  ("resource, node" ++ String lineFeed
     ("Plastids," ++ String dquote
        ("Titan, Saturn" ++ String dquote
           (String carriageReturn (String lineFeed "Rubedo")))))%string.

(** ** Vocabulary of the catalog build *)

Section LoadVocabulary.
Variable numberOrZero : string -> Q.

Definition resourceOf (row : RawRow) : string :=
  textOf (column row "resource" "Resource").

Definition nodeOf (row : RawRow) : string :=
  textOf (column row "node" "Node").

Definition planetOf (row : RawRow) : string :=
  textOf (column row "planet" "Planet").

Definition endlessOf (row : RawRow) : bool :=
  toLowerCase (textOf (column row "isEndless" "IsEndless")) =? "true".

(** The record a master row adds to [MASTER_ROWS]. *)
Definition masterRowOf (row : RawRow) : MasterRow.t :=
  MasterRow.mk (resourceOf row) (nodeOf row) (planetOf row)
               (textOf (column row "missionType" "MissionType"))
               (endlessOf row)
               (numberOf numberOrZero (column row "speedScore" "SpeedScore"))
               (numberOf numberOrZero (column row "dropScore" "DropScore"))
               (norm (resourceOf row)) (norm (nodeOf row))
               (norm (planetOf row)).

(** The metadata a master row gives its node. *)
Definition metaOf (row : RawRow) : NodeMeta.t :=
  NodeMeta.mk (nodeOf row) (planetOf row) (norm (planetOf row))
              (orElse (textOf (column row "missionType" "MissionType")) "Other")
              (endlessOf row)
              (numberOf numberOrZero (column row "speedScore" "SpeedScore")).

(** The explicit record a master row gives its (resource, node) pair. *)
Definition scoreObjOf (row : RawRow) : ScoreObj.t :=
  ScoreObj.mk (numberOf numberOrZero (column row "dropScore" "DropScore"))
              (numberOf numberOrZero (column row "speedScore" "SpeedScore"))
              (endlessOf row).

End LoadVocabulary.

(** The record of a pair in [EXPLICIT], if any. *)
Definition explicitRecord (st : Store) (rKey nKey : string)
  : option ScoreObj.t :=
  match JsMap.get (EXPLICIT st) rKey with
  | Some inner => JsMap.get inner nKey
  | None => None
  end.

(** A planet row lists the resource key for the planet key. *)
Definition planetRowLists (row : RawRow) (rKey pKey : string) : Prop :=
  truthy (planetOf row) = true /\
  pKey = norm (planetOf row) /\
  In rKey (map norm
             (filter truthy
                (map trim
                   (splitComma (textOf (column row "resources" "Resources")))))).

(** The planet key is in the fallback set of the resource key. *)
Definition planetListed (drops : JsMap.t JsSet.t) (rKey pKey : string) : bool :=
  match JsMap.get drops rKey with
  | Some set => JsSet.has set pKey
  | None => false
  end.

(** Two stores that differ at most in [PLANET_DROPS]. *)
Definition sameButDrops (st st' : Store) : Prop :=
  MASTER_ROWS st' = MASTER_ROWS st /\
  RESOURCES st' = RESOURCES st /\
  NODE_META st' = NODE_META st /\
  SELECTED_KEYS st' = SELECTED_KEYS st /\
  EXPLICIT st' = EXPLICIT st.

(** ** A pure reading of the stops planner *)

(** The fallback score of a node under a run mode. *)
Definition fallbackScore (runMode : string) (meta : NodeMeta.t) : Q :=
  if runMode =? "quick" then
    FALLBACK_SCORE * quickMultiplier (NodeMeta.speedScore meta)
    * quickMissionMultiplier (orElse (NodeMeta.missionType meta) "")
                             (NodeMeta.isEndless meta)
  else FALLBACK_SCORE.

(** How a node covers a resource key, if it does: by its explicit record
    when the pair has one, by the planet fallback otherwise. *)
Definition coverScore (st : Store) (runMode nKey : string)
  (meta : NodeMeta.t) (rKey : string) : option (string * Q) :=
  match explicitRecord st rKey nKey with
  | Some explicit =>
      if Qlt_bool 0 (computeEffScore explicit runMode meta)
      then Some ("explicit", computeEffScore explicit runMode meta)
      else None
  | None =>
      if planetListed (PLANET_DROPS st) rKey (NodeMeta.planetKey meta)
      then Some ("planet", fallbackScore runMode meta)
      else None
  end.

Definition coverStep (st : Store) (runMode : string)
  (rDisplay : JsMap.t string) (nKey : string) (meta : NodeMeta.t)
  (acc : Q * list Covered.t) (rKey : string) : Q * list Covered.t :=
  match coverScore st runMode nKey meta rKey with
  | Some (via, score) =>
      (fst acc + score,
       snd acc ++ [Covered.mk (displayOf rDisplay rKey) via score])
  | None => acc
  end.

(** The total and the coverage list of a node over the remaining keys. *)
Definition coverageOf (st : Store) (runMode : string)
  (rDisplay : JsMap.t string) (nKey : string) (meta : NodeMeta.t)
  (remaining : JsSet.t) : Q * list Covered.t :=
  fold_left (coverStep st runMode rDisplay nKey meta) remaining (0, []).

Definition candidateStep (st : Store) (runMode : string)
  (rDisplay : JsMap.t string) (remaining : JsSet.t)
  (scored : list StopOption.t) (nKey : string) : list StopOption.t :=
  match JsMap.get (NODE_META st) nKey with
  | None => scored
  | Some meta =>
      let tc := coverageOf st runMode rDisplay nKey meta remaining in
      if (List.length (snd tc) =? 0)%nat then scored
      else scored ++ [StopOption.mk nKey (fst tc) meta (snd tc)]
  end.

(** The scored candidates of one turn, and the options the turn keeps. *)
Definition stepScored (st : Store) (runMode : string)
  (rDisplay : JsMap.t string) (candidates : list string)
  (remaining : JsSet.t) : list StopOption.t :=
  fold_left (candidateStep st runMode rDisplay remaining) candidates [].

Definition stepTop (st : Store) (runMode : string)
  (rDisplay : JsMap.t string) (candidates : list string)
  (remaining : JsSet.t) : list StopOption.t :=
  pickTopOptions (sortBy byScoreDesc
                         (stepScored st runMode rDisplay candidates remaining))
                 3.

(** The candidate nodes of [planMinimizeStops] for the requested keys. *)
Definition candidatePool (st : Store) (runMode : string) (keys : JsSet.t)
  : list string :=
  filter (fun nKey =>
            match JsMap.get (NODE_META st) nKey with
            | Some meta => nodeEligibleByRunMode meta runMode
            | None => false
            end)
         (fold_left (fun candidateNodes rKey =>
                       match JsMap.get (EXPLICIT st) rKey with
                       | Some inner =>
                           fold_left JsSet.add (JsMap.keys inner) candidateNodes
                       | None => candidateNodes
                       end)
                    keys []).

(** The turns of the loop of [planMinimizeStops]: from [remaining], each
    step is the top of the scored candidates, and its first option takes
    the keys it covers out of [remaining]. *)
Inductive stopsTrace (st : Store) (runMode : string)
  (rDisplay : JsMap.t string) (candidates : list string)
  : JsSet.t -> list Step.t -> JsSet.t -> Prop :=
| trace_done (remaining : JsSet.t) :
    stopsTrace st runMode rDisplay candidates remaining [] remaining
| trace_step (remaining : JsSet.t) (best : StopOption.t)
    (others : list StopOption.t) (steps : list Step.t) (final : JsSet.t) :
    remaining <> [] ->
    stepTop st runMode rDisplay candidates remaining = best :: others ->
    stopsTrace st runMode rDisplay candidates
               (removeCovered remaining (StopOption.covered best)) steps final ->
    stopsTrace st runMode rDisplay candidates remaining
               (Step.mk (best :: others) :: steps) final.

(** The sum of the scores of a coverage list, as the loop adds them up. *)
Definition coveredTotal (covered : list Covered.t) : Q :=
  fold_left (fun total c => total + Covered.score c) covered 0.

(** The keys that remain when the steps [before] have been taken. *)
Definition remainingAt (keys : JsSet.t) (before : list Step.t) : JsSet.t :=
  fold_left (fun remaining step =>
               match Step.options step with
               | best :: _ => removeCovered remaining (StopOption.covered best)
               | [] => remaining
               end)
            before keys.

(** The coverage entry of a node for one key. *)
Definition entryOf (st : Store) (runMode : string) (rDisplay : JsMap.t string)
  (nKey : string) (meta : NodeMeta.t) (rKey : string) : list Covered.t :=
  match coverScore st runMode nKey meta rKey with
  | Some (via, score) => [Covered.mk (displayOf rDisplay rKey) via score]
  | None => []
  end.

(** The keys and the display names that [planMinimizeStops] starts from. *)
Definition requestedKeys (selectedResources : list string) : JsSet.t :=
  JsSet.ofList (map norm selectedResources).

Definition displayMap (selectedResources : list string) : JsMap.t string :=
  JsMap.ofList (map (fun r => (norm r, r)) selectedResources).

(** ** A pure reading of the efficiency planner *)

Definition effStep (st : Store) (runMode : string) (scored : list Scored.t)
  (entry : string * ScoreObj.t) : list Scored.t :=
  match JsMap.get (NODE_META st) (fst entry) with
  | None => scored
  | Some meta =>
      if nodeEligibleByRunMode meta runMode
      then scored ++ [Scored.mk (fst entry)
                                (computeEffScore (snd entry) runMode meta)]
      else scored
  end.

(** The scored nodes of a resource, in the order of its records. *)
Definition effScored (st : Store) (runMode : string)
  (explicitMap : JsMap.t ScoreObj.t) : list Scored.t :=
  fold_left (effStep st runMode) explicitMap [].

Definition effOption (st : Store) (o : Scored.t) : EffOption.t :=
  EffOption.mk (Scored.nodeKey o) (Scored.score o)
               (JsMap.get (NODE_META st) (Scored.nodeKey o)).

(** The entry of the efficiency plan for one requested resource. *)
Definition effResult (st : Store) (runMode rName : string) : EffResult.t :=
  match JsMap.get (EXPLICIT st) (norm rName) with
  | None => EffResult.mk rName [] (Some noDataNote)
  | Some explicitMap =>
      if (JsMap.size explicitMap =? 0)%nat
      then EffResult.mk rName [] (Some noDataNote)
      else EffResult.mk rName
             (map (effOption st)
                  (pickTopOptions
                     (sortBy byScoreDesc (effScored st runMode explicitMap)) 3))
             None
  end.

(** A node with a record in [explicitMap] that is eligible under
    [runMode], and its effective score. *)
Definition eligibleScore (st : Store) (runMode : string)
  (explicitMap : JsMap.t ScoreObj.t) (nKey : string) (score : Q) : Prop :=
  exists s meta,
    In (nKey, s) explicitMap /\
    JsMap.get (NODE_META st) nKey = Some meta /\
    nodeEligibleByRunMode meta runMode = true /\
    score = computeEffScore s runMode meta.

(** Descending order of the scores of the options of a resource. *)
Definition effGe (a b : EffOption.t) : Prop :=
  EffOption.score b <= EffOption.score a.

(** ** The resource list, the selection and the main action

    The handlers read the filter text, the goal and the run style from the
    page; here they are arguments.  What a handler draws is modelled by the
    value it hands to the page. *)

Definition set_SELECTED_KEYS (v : JsSet.t) (st : Store) : Store :=
  mkStore (MASTER_ROWS st) (PLANET_DROPS st) (RESOURCES st) (NODE_META st)
          v (EXPLICIT st).

(** [getSelectedResources()]. *)
Definition getSelectedResources : Prog (list string) :=
  resources <- gets RESOURCES ;;
  forEach resources []
          (fun selected r =>
             has <- gets (fun st => JsSet.has (SELECTED_KEYS st) (norm r)) ;;
             ret (if has then selected ++ [r] else selected)).

(** [filter && !r.toLowerCase().includes(filter)]: the row of [r] is left
    out under [filter]. *)
Definition hiddenBy (filter r : string) : bool :=
  truthy filter && negb (includes (toLowerCase r) filter).

(** A row of the resource list: the display name, the state of its
    checkbox and the address of its icon. *)
Module ResourceRow.
Record t : Type := mk { value : string; checked : bool; iconSrc : string }.
End ResourceRow.

(** [populateResources()], with the text of the filter input. *)
Definition populateResources (filterValue : string)
  : Prog (list ResourceRow.t) :=
  let filter := toLowerCase (trim filterValue) in
  resources <- gets RESOURCES ;;
  forEach resources []
          (fun wrap r =>
             let rKey := norm r in
             if hiddenBy filter r then ret wrap
             else
               checked <- gets (fun st => JsSet.has (SELECTED_KEYS st) rKey) ;;
               ret (wrap ++ [ResourceRow.mk r checked
                               ("icons/resources/" ++ resourceIconName r
                                ++ ".png")])).

(** The [change] listener of the checkbox of [rKey]. *)
Definition checkboxChanged (rKey : string) (checked : bool) : Prog unit :=
  if checked
  then modify (fun st => set_SELECTED_KEYS (JsSet.add (SELECTED_KEYS st) rKey) st)
  else modify (fun st =>
                 set_SELECTED_KEYS (JsSet.delete (SELECTED_KEYS st) rKey) st).

(** [selectAllResources(value)], with the text of the filter input; it
    ends by drawing the list again. *)
Definition selectAllResources (filterValue : string) (value : bool)
  : Prog (list ResourceRow.t) :=
  let filter := toLowerCase (trim filterValue) in
  resources <- gets RESOURCES ;;
  forEach resources tt
          (fun _ r =>
             let rKey := norm r in
             if hiddenBy filter r then ret tt
             else checkboxChanged rKey value) ;;;
  populateResources filterValue.

(** What [planRoute] hands to the page: a message for [setOutputMessage],
    or the arguments of one of the two renderers. *)
Inductive Rendered : Type :=
| OutputMessage (msg : string)
| EfficiencyPlan (results : list EffResult.t) (runMode : string)
| StopsRoute (plan : StopsPlan.t) (selected : list string) (runMode : string).

(** [planRoute()], with the values of [readGoalMode()] and
    [readRunMode()]. *)
Definition planRoute (goal runMode : string) : Prog (option Rendered) :=
  selected <- getSelectedResources ;;
  if (List.length selected =? 0)%nat
  then ret (Some (OutputMessage "Select at least one resource."))
  else if goal =? "efficiency" then
    results <- planMaximizeEfficiency selected runMode ;;
    ret (Some (EfficiencyPlan results runMode))
  else
    plan <- planMinimizeStops selected runMode ;;
    ret (option_map (fun plan => StopsRoute plan selected runMode) plan).

(** The listed resources whose key is selected. *)
Definition selectedOf (st : Store) : list string :=
  filter (fun r => JsSet.has (SELECTED_KEYS st) (norm r)) (RESOURCES st).

(** Some row that [filter] shows has the key [k]. *)
Definition shownKey (filter : string) (resources : list string) (k : string)
  : bool :=
  existsb (fun r => negb (hiddenBy filter r) && (norm r =? k)) resources.

(** Two stores that differ at most in [SELECTED_KEYS]. *)
Definition sameCatalog (st st' : Store) : Prop :=
  MASTER_ROWS st' = MASTER_ROWS st /\
  PLANET_DROPS st' = PLANET_DROPS st /\
  RESOURCES st' = RESOURCES st /\
  NODE_META st' = NODE_META st /\
  EXPLICIT st' = EXPLICIT st.

(** ** Vocabulary of the sort *)

(** The items of a list that have the score [q]. *)
Definition withScore {A : Type} `{HasScore A} (q : Q) (l : list A) : list A :=
  filter (fun x => Qeq_bool (scoreOf x) q) l.
(** * Properties *)

(** ** Strings *)

Lemma prefix_includes (s needle : string) :
  prefix needle s = true -> includes s needle = true.
Proof.
  intros Hp. destruct s; cbn [includes]; rewrite Hp; reflexivity.
Qed.

Lemma prefix_append_includes (a b : string) :
  forall s, prefix (a ++ b)%string s = true -> includes s b = true.
Proof.
  induction a as [|c a IH]; intros s Hp.
  - now apply prefix_includes.
  - destruct s as [|c' s]; simpl in Hp; [discriminate|].
    destruct (ascii_dec c c'); [|discriminate].
    cbn [includes]. rewrite (IH _ Hp). apply orb_true_r.
Qed.

(** A string that contains [a ++ b] contains [b]. *)
Lemma includes_suffix (a b : string) :
  forall s, includes s (a ++ b)%string = true -> includes s b = true.
Proof.
  induction s as [|c s IH]; intros Hi.
  - cbn [includes] in Hi. rewrite orb_false_r in Hi.
    now apply (prefix_append_includes a).
  - cbn [includes] in Hi. apply orb_true_iff in Hi as [Hp|Ht].
    + now apply (prefix_append_includes a).
    + cbn [includes]. rewrite (IH Ht). apply orb_true_r.
Qed.

Lemma mobile_defense_includes_defense (mt : string) :
  includes mt "mobile defense" = true -> includes mt "defense" = true.
Proof. apply (includes_suffix "mobile " "defense"). Qed.

(** ** Numbers *)

Lemma Qlt_bool_iff (a b : Q) : Qlt_bool a b = true <-> a < b.
Proof.
  unfold Qlt_bool. rewrite negb_true_iff, <- not_true_iff_false, Qle_bool_iff.
  split; [apply Qnot_le_lt | apply Qlt_not_le].
Qed.

Lemma Qlt_bool_false_iff (a b : Q) : Qlt_bool a b = false <-> b <= a.
Proof.
  unfold Qlt_bool. rewrite negb_false_iff. apply Qle_bool_iff.
Qed.

Lemma clamp_minmax (s : Q) : Qmax 0 (Qmin 5 s) == clamp s 0 5.
Proof.
  unfold clamp.
  destruct (Qlt_bool s 0) eqn:E0.
  - apply Qlt_bool_iff in E0.
    destruct (Q.min_spec 5 s) as [[? Hm]|[? Hm]];
      destruct (Q.max_spec 0 (Qmin 5 s)) as [[? HM]|[? HM]]; lra.
  - apply Qlt_bool_false_iff in E0.
    destruct (Qlt_bool 5 s) eqn:E5.
    + apply Qlt_bool_iff in E5.
      destruct (Q.min_spec 5 s) as [[? Hm]|[? Hm]];
        destruct (Q.max_spec 0 (Qmin 5 s)) as [[? HM]|[? HM]]; lra.
    + apply Qlt_bool_false_iff in E5.
      destruct (Q.min_spec 5 s) as [[? Hm]|[? Hm]];
        destruct (Q.max_spec 0 (Qmin 5 s)) as [[? HM]|[? HM]]; lra.
Qed.

Lemma clamp_bounds (s : Q) : 0 <= clamp s 0 5 <= 5.
Proof.
  unfold clamp.
  destruct (Qlt_bool s 0) eqn:E0; [lra|].
  apply Qlt_bool_false_iff in E0.
  destruct (Qlt_bool 5 s) eqn:E5; [lra|].
  apply Qlt_bool_false_iff in E5. lra.
Qed.

Lemma clamp_monotone (s s' : Q) : s <= s' -> clamp s 0 5 <= clamp s' 0 5.
Proof.
  intros Hle. unfold clamp.
  destruct (Qlt_bool s 0) eqn:E0, (Qlt_bool s' 0) eqn:E0';
    destruct (Qlt_bool 5 s) eqn:E5, (Qlt_bool 5 s') eqn:E5';
    repeat match goal with
      | H : Qlt_bool _ _ = true |- _ => apply Qlt_bool_iff in H
      | H : Qlt_bool _ _ = false |- _ => apply Qlt_bool_false_iff in H
      end; lra.
Qed.

Lemma quickMultiplier_clamp (s : Q) :
  quickMultiplier s == 0.6 + 0.4 * (clamp s 0 5 / 5).
Proof.
  unfold quickMultiplier. cbv zeta. rewrite (clamp_minmax s). reflexivity.
Qed.

Lemma fifth (x : Q) : x / 5 == x * 0.2.
Proof.
  unfold Qdiv. assert (E : / 5 == 0.2) by reflexivity. now rewrite E.
Qed.

(** C7: [quickMultiplier s] is [0.6 + 0.4 * (clamp s 0 5 / 5)], it lies in
    [0.6, 1.0], and it is monotonically non-decreasing in [s] (on the whole
    line, so in particular over [0, 5]). *)
Theorem quickMultiplier_spec (s : Q) :
  quickMultiplier s == 0.6 + 0.4 * (clamp s 0 5 / 5) /\
  (0.6 <= quickMultiplier s /\ quickMultiplier s <= 1.0) /\
  (forall s' : Q, s <= s' -> quickMultiplier s <= quickMultiplier s').
Proof.
  pose proof (quickMultiplier_clamp s) as Hs.
  pose proof (clamp_bounds s) as Hb.
  split; [exact Hs|]. rewrite fifth in Hs. split; [split; lra|].
  intros s' Hle.
  pose proof (quickMultiplier_clamp s') as Hs'. rewrite fifth in Hs'.
  pose proof (clamp_monotone s s' Hle). lra.
Qed.

(** ** Mission-type bias *)

Ltac case_includes :=
  match goal with
  | |- context [if includes ?s ?n then _ else _] =>
      let E := fresh "E" in destruct (includes s n) eqn:E
  end.

Lemma quickMissionMultiplier_branch (missionType : string) (isEndless : bool) :
  quickMissionMultiplier missionType isEndless
  = branchValue (quickMissionBranch missionType) isEndless.
Proof.
  unfold quickMissionMultiplier, quickMissionBranch. cbv zeta.
  repeat (case_includes; [reflexivity|]).
  reflexivity.
Qed.

(** No input reaches the ["mobile defense"] rule: the ["defense"] rule,
    tested earlier, matches whenever it would. *)
Lemma mobile_defense_unreachable (missionType : string) :
  quickMissionBranch missionType <> BMobileDefense.
Proof.
  unfold quickMissionBranch. cbv zeta.
  repeat (case_includes; [discriminate|]).
  case_includes; [|discriminate].
  match goal with
  | H : includes _ "mobile defense" = true |- _ =>
      apply mobile_defense_includes_defense in H
  end.
  congruence.
Qed.

Lemma quickMissionBranch_default_free (missionType : string) :
  quickMissionBranch missionType <> BDefault ->
  quickMissionMultiplier missionType true = quickMissionMultiplier missionType false.
Proof.
  intros Hb. rewrite !quickMissionMultiplier_branch.
  destruct (quickMissionBranch missionType); try reflexivity.
  now elim Hb.
Qed.

(** The endless penalty reaches the result on the default branch only. *)
Lemma endless_penalty_on_default (missionType : string) :
  quickMissionBranch missionType = BDefault ->
  quickMissionMultiplier missionType true
  == 0.92 * quickMissionMultiplier missionType false.
Proof.
  intros Hb. rewrite !quickMissionMultiplier_branch, Hb. reflexivity.
Qed.

(** C1, at the input ["Capture"]: the matched rule returns [1.40] whether
    the node is endless or not, so the endless result is not [0.92] times
    the other one. *)
Theorem capture_skips_endless_penalty :
  quickMissionMultiplier "Capture" true = 1.40 /\
  quickMissionMultiplier "Capture" false = 1.40 /\
  ~ quickMissionMultiplier "Capture" true
    == 0.92 * quickMissionMultiplier "Capture" false.
Proof.
  repeat split; try reflexivity.
  vm_compute. discriminate.
Qed.

(** C10, as stated, fails on a mission type that also names an earlier
    rule: the first match wins. *)
Lemma capture_mobile_defense_counterexample :
  includes (norm "Mobile Defense / Capture") "mobile defense" = true /\
  quickMissionMultiplier "Mobile Defense / Capture" false = 1.40 /\
  ~ quickMissionMultiplier "Mobile Defense / Capture" false == 0.86.
Proof.
  repeat split; try reflexivity.
  vm_compute. discriminate.
Qed.

(** C10, amended: a mission type whose normal form contains
    ["mobile defense"] is answered by one of the rules up to ["defense"],
    by ["defense"] itself with [0.86] when none of the eight rules before it
    matches; the ["mobile defense"] rule is reached by no input. *)
Theorem mobile_defense_shadowed (missionType : string) (isEndless : bool) :
  includes (norm missionType) "mobile defense" = true ->
  (earlierRuleMatches (norm missionType) = false ->
   quickMissionBranch missionType = BDefense /\
   quickMissionMultiplier missionType isEndless = 0.86) /\
  In (quickMissionBranch missionType)
     [BCapture; BExterminate; BRescue; BSabotage; BSpy; BDisruption;
      BActivity; BSurvival; BDefense] /\
  quickMissionMultiplier missionType isEndless
  = branchValue (quickMissionBranch missionType) isEndless /\
  (forall other : string, quickMissionBranch other <> BMobileDefense).
Proof.
  intros Hmd. pose proof (mobile_defense_includes_defense _ Hmd) as Hd.
  split; [|split; [|split]].
  - unfold earlierRuleMatches. intros He.
    repeat (apply orb_false_iff in He; destruct He as [He ?]).
    unfold quickMissionMultiplier, quickMissionBranch. cbv zeta.
    repeat match goal with H : includes _ _ = _ |- _ => rewrite H; clear H end.
    split; reflexivity.
  - unfold quickMissionBranch. cbv zeta. rewrite Hd.
    repeat (case_includes; [simpl; tauto|]).
    simpl; tauto.
  - apply quickMissionMultiplier_branch.
  - apply mobile_defense_unreachable.
Qed.

Lemma mobile_defense_shadowed_witness :
  (earlierRuleMatches (norm "Mobile Defense") = false ->
   quickMissionBranch "Mobile Defense" = BDefense /\
   quickMissionMultiplier "Mobile Defense" true = 0.86) /\
  In (quickMissionBranch "Mobile Defense")
     [BCapture; BExterminate; BRescue; BSabotage; BSpy; BDisruption;
      BActivity; BSurvival; BDefense] /\
  quickMissionMultiplier "Mobile Defense" true
  = branchValue (quickMissionBranch "Mobile Defense") true /\
  (forall other : string, quickMissionBranch other <> BMobileDefense).
Proof.
  apply (mobile_defense_shadowed "Mobile Defense" true). reflexivity.
Defined.

(** ** Sorting *)

Lemma insertBy_In {A : Type} (cmp : A -> A -> Q) (x y : A) (l : list A) :
  In y (insertBy cmp x l) <-> y = x \/ In y l.
Proof.
  induction l as [|z l IH]; simpl.
  - intuition.
  - destruct (Qlt_bool (cmp z x) 0); simpl; [rewrite IH|]; intuition.
Qed.

Lemma sortBy_In {A : Type} (cmp : A -> A -> Q) (y : A) (l : list A) :
  In y (sortBy cmp l) <-> In y l.
Proof.
  induction l as [|x l IH]; simpl; [tauto|].
  rewrite insertBy_In, IH. intuition.
Qed.


(** ** Close-score grouping *)

Section SubseqFacts.
Context {A : Type}.

Lemma subseq_nil_l (l : list A) : subseq [] l.
Proof. induction l; constructor; assumption. Qed.

Lemma subseq_In (l1 l2 : list A) (x : A) : subseq l1 l2 -> In x l1 -> In x l2.
Proof.
  induction 1 as [|y l1 l2 _ IH|y l1 l2 _ IH]; simpl; intuition.
Qed.

Lemma firstn_incl (l : list A) (x : A) : forall k, In x (firstn k l) -> In x l.
Proof.
  induction l as [|y l IH]; intros [|k]; simpl; try easy.
  intros [->|Hin]; [now left | right; eauto].
Qed.

Lemma subseq_firstn_filter (f : A -> bool) (l : list A) :
  forall k, subseq (firstn k (filter f l)) l.
Proof.
  induction l as [|x l IH]; intros k; simpl.
  - rewrite firstn_nil. constructor.
  - destruct (f x).
    + destruct k; simpl; [apply subseq_nil_l | apply subseq_keep, IH].
    + apply subseq_skip, IH.
Qed.

Lemma subseq_StronglySorted (R : A -> A -> Prop) (l1 l2 : list A) :
  subseq l1 l2 -> StronglySorted R l2 -> StronglySorted R l1.
Proof.
  induction 1 as [|y l1 l2 Hs IH|y l1 l2 Hs IH]; intros Hsorted.
  - constructor.
  - inversion Hsorted; subst. auto.
  - inversion Hsorted as [|? ? Hrest Hall]; subst. constructor; [auto|].
    rewrite Forall_forall in *. intros z Hz. apply Hall.
    now apply (subseq_In l1 l2).
Qed.

End SubseqFacts.

Section PickTopFacts.
Context {A : Type} `{HasScore A}.

(** The loop keeps the first [maxOptions] items that pass the 90% test. *)
Lemma pickLoop_firstn_filter (best : Q) (maxOptions : nat) (rest : list A) :
  forall out,
    pickLoop best maxOptions rest out
    = out ++ firstn (maxOptions - List.length out)
                    (filter (fun it => Qle_bool (best * 0.9) (scoreOf it)) rest).
Proof.
  induction rest as [|it rest IH]; intros out; simpl.
  - now rewrite firstn_nil, app_nil_r.
  - destruct (Nat.leb_spec maxOptions (List.length out)) as [Hfull|Hroom].
    + replace (maxOptions - List.length out)%nat with 0%nat by lia.
      now rewrite app_nil_r.
    + destruct (Qle_bool (best * 0.9) (scoreOf it)).
      * rewrite IH, <- app_assoc, length_app. simpl.
        destruct (maxOptions - List.length out)%nat as [|k] eqn:Ek; [lia|].
        replace (maxOptions - (List.length out + 1))%nat with k by lia.
        reflexivity.
      * apply IH.
Qed.

Lemma pickTopOptions_firstn_filter (scoredList : list A) (maxOptions : nat)
  (first : A) :
  head scoredList = Some first ->
  pickTopOptions scoredList maxOptions
  = firstn maxOptions
           (filter (fun it => Qle_bool (scoreOf first * 0.9) (scoreOf it))
                   scoredList).
Proof.
  destruct scoredList as [|x l]; [discriminate|].
  intros [= ->]. unfold pickTopOptions.
  rewrite pickLoop_firstn_filter. simpl. now rewrite Nat.sub_0_r.
Qed.

Lemma pickTopOptions_subseq (scoredList : list A) (maxOptions : nat) :
  subseq (pickTopOptions scoredList maxOptions) scoredList.
Proof.
  destruct scoredList as [|x l]; [constructor|].
  rewrite (pickTopOptions_firstn_filter (x :: l) maxOptions x eq_refl).
  apply subseq_firstn_filter.
Qed.

Lemma pickTopOptions_In (scoredList : list A) (maxOptions : nat) (it : A) :
  In it (pickTopOptions scoredList maxOptions) -> In it scoredList.
Proof. apply subseq_In, pickTopOptions_subseq. Qed.

Lemma pickTopOptions_length (scoredList : list A) (maxOptions : nat) :
  (List.length (pickTopOptions scoredList maxOptions) <= maxOptions)%nat.
Proof.
  destruct scoredList as [|x l]; [simpl; lia|].
  rewrite (pickTopOptions_firstn_filter (x :: l) maxOptions x eq_refl).
  apply firstn_le_length.
Qed.

Lemma pickTopOptions_close (scoredList : list A) (maxOptions : nat)
  (first it : A) :
  head scoredList = Some first ->
  In it (pickTopOptions scoredList maxOptions) ->
  0.9 * scoreOf first <= scoreOf it.
Proof.
  intros Hhead Hin.
  rewrite (pickTopOptions_firstn_filter _ _ _ Hhead) in Hin.
  apply firstn_incl, filter_In in Hin. destruct Hin as [_ Hq].
  apply Qle_bool_iff in Hq. lra.
Qed.

#[local] Instance scoreGe_Transitive : RelationClasses.Transitive (@scoreGe A _).
Proof. unfold scoreGe. intros x y z Hxy Hyz. lra. Qed.

(** Sorting by [byScoreDesc] gives a list in descending order of score. *)
Lemma insertBy_StronglySorted (x : A) (l : list A) :
  StronglySorted scoreGe l ->
  StronglySorted scoreGe (insertBy byScoreDesc x l).
Proof.
  induction 1 as [|y l Hl IH Hall]; simpl.
  - repeat constructor.
  - unfold byScoreDesc at 1.
    destruct (Qlt_bool (scoreOf x - scoreOf y) 0) eqn:E.
    + apply Qlt_bool_iff in E. constructor; [assumption|].
      rewrite Forall_forall in *. intros z Hz.
      apply insertBy_In in Hz as [->|Hz]; [unfold scoreGe; lra | auto].
    + apply Qlt_bool_false_iff in E.
      constructor; [now constructor|].
      constructor; [unfold scoreGe; lra|].
      rewrite Forall_forall in *. intros z Hz.
      specialize (Hall z Hz). unfold scoreGe in *. lra.
Qed.

Lemma sortBy_Sorted (l : list A) : Sorted scoreGe (sortBy byScoreDesc l).
Proof.
  apply StronglySorted_Sorted.
  induction l as [|x l IH]; simpl; [constructor|].
  now apply insertBy_StronglySorted.
Qed.

Lemma pickTopOptions_Sorted (scoredList : list A) (maxOptions : nat) :
  Sorted scoreGe scoredList ->
  Sorted scoreGe (pickTopOptions scoredList maxOptions).
Proof.
  intros Hs. apply StronglySorted_Sorted.
  apply (subseq_StronglySorted _ _ _ (pickTopOptions_subseq _ _)).
  now apply Sorted_StronglySorted; [apply scoreGe_Transitive|].
Qed.

Lemma pickTopOptions_nonempty (scoredList : list A) (maxOptions : nat)
  (first : A) :
  (1 <= maxOptions)%nat ->
  head scoredList = Some first ->
  0 <= scoreOf first ->
  head (pickTopOptions scoredList maxOptions) = Some first.
Proof.
  intros Hmax Hhead Hpos.
  rewrite (pickTopOptions_firstn_filter _ _ _ Hhead).
  destruct scoredList as [|x l]; [discriminate|].
  injection Hhead as ->. simpl.
  assert (Hq : Qle_bool (scoreOf first * 0.9) (scoreOf first) = true)
    by (apply Qle_bool_iff; lra).
  rewrite Hq. destruct maxOptions; [lia|]. reflexivity.
Qed.

(** C2, amended: on a list sorted by descending score and with
    [maxOptions >= 1], [pickTopOptions] returns at most [maxOptions] items,
    each with a score of at least 0.9 times the first input score, in the
    order of the input (so still descending); the result starts with the
    first input item, and so is non-empty, when that item's score is not
    negative. *)
Theorem pickTopOptions_spec (scoredList : list A) (maxOptions : nat) :
  Sorted scoreGe scoredList ->
  (1 <= maxOptions)%nat ->
  (List.length (pickTopOptions scoredList maxOptions) <= maxOptions)%nat /\
  (forall first it : A,
      head scoredList = Some first ->
      In it (pickTopOptions scoredList maxOptions) ->
      0.9 * scoreOf first <= scoreOf it) /\
  subseq (pickTopOptions scoredList maxOptions) scoredList /\
  Sorted scoreGe (pickTopOptions scoredList maxOptions) /\
  (forall first : A,
      head scoredList = Some first ->
      0 <= scoreOf first ->
      head (pickTopOptions scoredList maxOptions) = Some first /\
      pickTopOptions scoredList maxOptions <> []).
Proof.
  intros Hsorted Hmax.
  split; [apply pickTopOptions_length|].
  split; [intros first it; apply pickTopOptions_close|].
  split; [apply pickTopOptions_subseq|].
  split; [now apply pickTopOptions_Sorted|].
  intros first Hhead Hpos.
  pose proof (pickTopOptions_nonempty _ _ _ Hmax Hhead Hpos) as Hh.
  split; [exact Hh|]. intros Hnil. rewrite Hnil in Hh. discriminate.
Qed.

End PickTopFacts.

(** C2, as stated, fails when the best score is negative: the best item
    does not pass the 90% test against itself. *)
Lemma pickTopOptions_negative_counterexample :
  Sorted scoreGe [Scored.mk "n1" (-1)] /\
  (1 <= 3)%nat /\
  [Scored.mk "n1" (-1)] <> [] /\
  pickTopOptions [Scored.mk "n1" (-1)] 3 = [].
Proof.
  repeat split; try (repeat constructor); try discriminate.
Qed.

Lemma pickTopOptions_spec_witness :
  (List.length (pickTopOptions
     [Scored.mk "a" 10; Scored.mk "b" 9.5; Scored.mk "c" 5] 3) <= 3)%nat /\
  (forall first it : Scored.t,
      head [Scored.mk "a" 10; Scored.mk "b" 9.5; Scored.mk "c" 5] = Some first ->
      In it (pickTopOptions
               [Scored.mk "a" 10; Scored.mk "b" 9.5; Scored.mk "c" 5] 3) ->
      0.9 * scoreOf first <= scoreOf it) /\
  subseq (pickTopOptions [Scored.mk "a" 10; Scored.mk "b" 9.5; Scored.mk "c" 5] 3)
         [Scored.mk "a" 10; Scored.mk "b" 9.5; Scored.mk "c" 5] /\
  Sorted scoreGe
         (pickTopOptions [Scored.mk "a" 10; Scored.mk "b" 9.5; Scored.mk "c" 5] 3) /\
  (forall first : Scored.t,
      head [Scored.mk "a" 10; Scored.mk "b" 9.5; Scored.mk "c" 5] = Some first ->
      0 <= scoreOf first ->
      head (pickTopOptions
              [Scored.mk "a" 10; Scored.mk "b" 9.5; Scored.mk "c" 5] 3) = Some first /\
      pickTopOptions [Scored.mk "a" 10; Scored.mk "b" 9.5; Scored.mk "c" 5] 3 <> []).
Proof.
  apply (pickTopOptions_spec
           [Scored.mk "a" 10; Scored.mk "b" 9.5; Scored.mk "c" 5] 3).
  - repeat constructor; unfold scoreGe, Qle; simpl; lia.
  - lia.
Defined.

(** ** Maps and sets *)

Lemma JsSet_has_In (s : JsSet.t) (k : string) : JsSet.has s k = true <-> In k s.
Proof.
  unfold JsSet.has. rewrite existsb_exists. split.
  - intros (x & Hin & Heq). apply String.eqb_eq in Heq. now subst.
  - intros Hin. exists k. split; [assumption | apply String.eqb_refl].
Qed.

Lemma JsSet_add_In (s : JsSet.t) (x k : string) :
  In k (JsSet.add s x) <-> In k s \/ k = x.
Proof.
  unfold JsSet.add. destruct (JsSet.has s x) eqn:E.
  - apply JsSet_has_In in E. split; [tauto | intros [?| ->]; assumption].
  - rewrite in_app_iff. simpl. intuition.
Qed.

Lemma JsSet_delete_In (s : JsSet.t) (x k : string) :
  In k (JsSet.delete s x) <-> In k s /\ k <> x.
Proof.
  unfold JsSet.delete. rewrite filter_In, negb_true_iff, String.eqb_neq.
  reflexivity.
Qed.

Lemma JsSet_ofList_In (items : list string) (k : string) :
  In k (JsSet.ofList items) <-> In k items.
Proof.
  unfold JsSet.ofList.
  assert (G : forall acc, In k (fold_left JsSet.add items acc)
                          <-> In k acc \/ In k items).
  { induction items as [|x items IH]; intros acc; simpl; [tauto|].
    rewrite IH, JsSet_add_In. intuition. }
  rewrite G. simpl. tauto.
Qed.

Lemma removeCovered_In (covered : list Covered.t) :
  forall (remaining : JsSet.t) (k : string),
    In k (removeCovered remaining covered) <->
    In k remaining /\
    ~ (exists c, In c covered /\ norm (Covered.resource c) = k).
Proof.
  unfold removeCovered.
  induction covered as [|c covered IH]; intros remaining k; simpl.
  - split; [intros Hin; split; [assumption | now intros (? & [] & _)] | tauto].
  - rewrite IH, JsSet_delete_In. split.
    + intros [[Hin Hne] Hno]. split; [assumption|].
      intros (c' & [<-|Hc'] & Heq); [congruence | apply Hno; eauto].
    + intros [Hin Hno]. repeat split; [assumption | |].
      * intros ->. apply Hno. eauto.
      * intros (c' & Hc' & Heq). apply Hno. eauto.
Qed.

Lemma JsMap_get_set {V : Type} (m : JsMap.t V) (k k' : string) (v : V) :
  JsMap.get (JsMap.set m k v) k' = if k =? k' then Some v else JsMap.get m k'.
Proof.
  induction m as [|[k0 v0] m IH]; simpl.
  - reflexivity.
  - destruct (k0 =? k) eqn:E0; simpl.
    + apply String.eqb_eq in E0. subst k0.
      destruct (k =? k'); reflexivity.
    + rewrite IH. destruct (k0 =? k') eqn:E1; [|reflexivity].
      apply String.eqb_eq in E1. subst k0. now rewrite String.eqb_sym, E0.
Qed.

Lemma JsMap_ofList_snoc {V : Type} (pairs : list (string * V)) (k : string)
  (v : V) :
  JsMap.ofList (pairs ++ [(k, v)]) = JsMap.set (JsMap.ofList pairs) k v.
Proof. unfold JsMap.ofList. now rewrite fold_left_app. Qed.

(** [rDisplay] sends the key of a selected name to a selected name with
    that key. *)
Lemma rDisplay_get (selected : list string) (k : string) :
  match JsMap.get (JsMap.ofList (map (fun r => (norm r, r)) selected)) k with
  | Some d => In d selected /\ norm d = k
  | None => ~ In k (map norm selected)
  end.
Proof.
  induction selected as [|r selected IH] using rev_ind.
  - simpl. tauto.
  - rewrite !map_app. simpl map. rewrite JsMap_ofList_snoc, JsMap_get_set.
    destruct (norm r =? k) eqn:E.
    + apply String.eqb_eq in E. split; [apply in_app_iff; simpl; tauto | assumption].
    + apply String.eqb_neq in E.
      destruct (JsMap.get _ k) as [d|].
      * destruct IH. split; [apply in_app_iff; tauto | assumption].
      * rewrite in_app_iff. simpl. tauto.
Qed.

Lemma displayOf_selected (selected : list string) (k : string) :
  In k (map norm selected) ->
  let d := displayOf (JsMap.ofList (map (fun r => (norm r, r)) selected)) k in
  In d selected /\ norm d = k.
Proof.
  intros Hin. cbv zeta. unfold displayOf.
  pose proof (rDisplay_get selected k) as Hget.
  destruct (JsMap.get _ k) as [d|]; [|contradiction].
  destruct Hget as [Hd Hk]. unfold orElse, truthy.
  destruct (d =? "") eqn:E; simpl; [|tauto].
  apply String.eqb_eq in E. subst d. subst k. tauto.
Qed.

(** ** Programs that only read the store *)

Lemma returns_ret {A : Type} (st : Store) (a : A) (R : A -> Prop) :
  R a -> returns st (ret a) R.
Proof. now split. Qed.

Lemma returns_gets {A : Type} (st : Store) (f : Store -> A) (R : A -> Prop) :
  R (f st) -> returns st (gets f) R.
Proof. now split. Qed.

Lemma returns_bind {A B : Type} (st : Store) (m : Prog A) (k : A -> Prog B)
  (R1 : A -> Prop) (R2 : B -> Prop) :
  returns st m R1 ->
  (forall a, R1 a -> returns st (k a) R2) ->
  returns st (bind m k) R2.
Proof.
  unfold returns, bind. intros [Hst HR] Hk.
  destruct (m st) as [a st']. simpl in *. subst st'. now apply Hk.
Qed.

Lemma returns_weaken {A : Type} (st : Store) (m : Prog A) (R R' : A -> Prop) :
  returns st m R -> (forall a, R a -> R' a) -> returns st m R'.
Proof. intros [Hst HR] Himp. split; auto. Qed.

Lemma returns_run {A : Type} (st : Store) (m : Prog A) (R : A -> Prop) :
  returns st m R -> exists a, m st = (a, st) /\ R a.
Proof.
  intros [Hst HR]. exists (fst (m st)). split; [|assumption].
  destruct (m st); simpl in *; congruence.
Qed.

(** A loop keeps an invariant that may mention the items already seen. *)
Lemma returns_forEach {A B : Type} (st : Store) (body : B -> A -> Prog B)
  (l : list A) :
  forall (I : list A -> B -> Prop) (acc : B),
    I [] acc ->
    (forall seen x acc',
        In x l -> I seen acc' -> returns st (body acc' x) (I (seen ++ [x]))) ->
    returns st (forEach l acc body) (I l).
Proof.
  induction l as [|x l IH]; intros I acc Hinit Hbody; simpl.
  - now apply returns_ret.
  - apply returns_bind with (R1 := I [x]).
    + apply (Hbody [] x acc); simpl; auto.
    + intros acc' Hacc'.
      apply (IH (fun seen => I (x :: seen))); [assumption|].
      intros seen y acc'' Hy Hseen. apply (Hbody (x :: seen)); simpl; auto.
Qed.

Lemma returns_forEach_inv {A B : Type} (st : Store) (body : B -> A -> Prog B)
  (l : list A) (I : B -> Prop) (acc : B) :
  I acc ->
  (forall x acc', In x l -> I acc' -> returns st (body acc' x) I) ->
  returns st (forEach l acc body) I.
Proof.
  intros Hinit Hbody.
  apply (returns_forEach st body l (fun _ => I)); auto.
Qed.

Lemma returns_filterM {A : Type} (st : Store) (p : A -> Prog bool) (P : A -> Prop)
  (l : list A) :
  (forall x, In x l -> returns st (p x) (fun b => b = true -> P x)) ->
  returns st (filterM p l) (Forall P).
Proof.
  induction l as [|x l IH]; intros Hp; simpl.
  - now apply returns_ret.
  - apply returns_bind with (R1 := fun b => b = true -> P x).
    + apply Hp. now left.
    + intros b Hb.
      apply returns_bind with (R1 := Forall P).
      * apply IH. intros y Hy. apply Hp. now right.
      * intros r Hr. apply returns_ret. destruct b; auto.
Qed.

Lemma returns_mapM {A B : Type} (st : Store) (f : A -> Prog B) (R : A -> B -> Prop)
  (l : list A) :
  (forall x, In x l -> returns st (f x) (R x)) ->
  returns st (mapM f l) (Forall2 R l).
Proof.
  induction l as [|x l IH]; intros Hf; simpl.
  - now apply returns_ret.
  - apply returns_bind with (R1 := R x).
    + apply Hf. now left.
    + intros y Hy.
      apply returns_bind with (R1 := Forall2 R l).
      * apply IH. intros z Hz. apply Hf. now right.
      * intros r Hr. apply returns_ret. now constructor.
Qed.


Lemma returns_gets_eq {A : Type} (st : Store) (f : Store -> A) :
  returns st (gets f) (fun a => a = f st).
Proof. now apply returns_gets. Qed.

Ltac read_store :=
  eapply returns_bind; [apply returns_gets_eq | cbv beta; intros ? ->].

(** ** Planner: maximize efficiency *)

Lemma scoreEntry_returns (st : Store) (runMode : string)
  (explicitMap : JsMap.t ScoreObj.t) (scored : list Scored.t)
  (entry : string * ScoreObj.t) :
  In entry explicitMap ->
  Forall (scoredOK st runMode explicitMap) scored ->
  returns st (scoreEntry runMode scored entry)
          (Forall (scoredOK st runMode explicitMap)).
Proof.
  intros Hin Hscored. destruct entry as [nKey s]. unfold scoreEntry.
  read_store.
  destruct (JsMap.get (NODE_META st) nKey) as [meta|] eqn:Hmeta;
    [|now apply returns_ret].
  destruct (nodeEligibleByRunMode meta runMode) eqn:Hok; simpl;
    [|now apply returns_ret].
  apply returns_ret, Forall_app. split; [assumption|].
  constructor; [|constructor].
  exists s, meta. simpl. auto.
Qed.

Lemma withMeta_returns (st : Store) (o : Scored.t) :
  returns st (withMeta o)
          (fun e => e = EffOption.mk (Scored.nodeKey o) (Scored.score o)
                          (JsMap.get (NODE_META st) (Scored.nodeKey o))).
Proof. unfold withMeta. read_store. now apply returns_ret. Qed.

Lemma planResource_returns (st : Store) (runMode : string)
  (results : list EffResult.t) (rName : string) :
  returns st (planResource runMode results rName)
          (fun results' =>
             exists r, results' = results ++ [r] /\ resultOK st runMode rName r).
Proof.
  unfold planResource. cbv zeta. read_store.
  destruct (JsMap.get (EXPLICIT st) (norm rName)) as [explicitMap|] eqn:Hmap.
  - destruct (JsMap.size explicitMap =? 0)%nat eqn:Hsize.
    + apply returns_ret. eexists. split; [reflexivity|].
      unfold resultOK. rewrite Hmap, Hsize. simpl. auto.
    + apply returns_bind with (R1 := Forall (scoredOK st runMode explicitMap)).
      * apply returns_forEach_inv; [constructor|].
        intros entry scored Hin Hscored. now apply scoreEntry_returns.
      * intros scored Hscored.
        eapply returns_bind.
        { apply returns_mapM. intros o _. apply withMeta_returns. }
        cbv beta. intros options Hoptions.
        apply returns_ret. eexists. split; [reflexivity|].
        unfold resultOK. rewrite Hmap, Hsize. simpl.
        repeat split.
        assert (Hpicked : Forall (scoredOK st runMode explicitMap)
                  (pickTopOptions (sortBy byScoreDesc scored) 3)).
        { rewrite Forall_forall in *. intros o Ho.
          apply Hscored. apply pickTopOptions_In in Ho.
          now apply sortBy_In in Ho. }
        clear Hscored. induction Hoptions as [|o e os es He _ IH].
        -- constructor.
        -- inversion Hpicked as [|? ? (s & meta & ? & Hm & ? & ?) Hrest]; subst.
           constructor; [|now apply IH].
           exists s, meta. simpl. rewrite Hm. auto.
  - apply returns_ret. eexists. split; [reflexivity|].
    unfold resultOK. rewrite Hmap. simpl. auto.
Qed.

Lemma planMaximizeEfficiency_returns (st : Store)
  (selectedResources : list string) (runMode : string) :
  returns st (planMaximizeEfficiency selectedResources runMode)
          (Forall2 (resultOK st runMode) selectedResources).
Proof.
  unfold planMaximizeEfficiency.
  apply (returns_forEach st (planResource runMode) selectedResources
           (fun seen results => Forall2 (resultOK st runMode) seen results)).
  - constructor.
  - intros seen rName results _ Hseen.
    eapply returns_weaken; [apply planResource_returns|].
    intros results' (r & -> & Hr).
    apply Forall2_app; [assumption|]. constructor; [assumption | constructor].
Qed.

Lemma resultOK_resources (st : Store) (runMode : string)
  (selectedResources : list string) (results : list EffResult.t) :
  Forall2 (resultOK st runMode) selectedResources results ->
  map EffResult.resource results = selectedResources.
Proof.
  induction 1 as [|rName r sel res [Hname _] _ IH]; simpl; congruence.
Qed.

Lemma resultOK_In (st : Store) (runMode : string)
  (selectedResources : list string) (results : list EffResult.t)
  (r : EffResult.t) :
  Forall2 (resultOK st runMode) selectedResources results ->
  In r results ->
  resultOK st runMode (EffResult.resource r) r.
Proof.
  induction 1 as [|rName r' sel res Hr _ IH]; simpl; [easy|].
  intros [<-|Hin]; [|auto].
  destruct Hr as [Hname Hrest]. split; [reflexivity|]. now rewrite Hname.
Qed.

(** C4, as stated, fails for a resource that has records but no eligible
    node: its entry has an empty option list and no note. *)
Lemma no_note_when_none_eligible :
  ~ noRecords quickOnlyCatalog "Plastids" /\
  noneEligible quickOnlyCatalog "endless" "Plastids" /\
  planMaximizeEfficiency ["Plastids"] "endless" quickOnlyCatalog
  = ([EffResult.mk "Plastids" [] None], quickOnlyCatalog).
Proof.
  split; [|split].
  - unfold noRecords. simpl. discriminate.
  - unfold noneEligible. simpl.
    intros explicitMap nKey s meta [= <-] [[= <- <-]|[]].
    simpl. now intros [= <-].
  - reflexivity.
Qed.

(** C4, amended: [planMaximizeEfficiency] always returns, with one entry
    per requested resource, in order.  A resource without records gets an
    empty option list and the note; a resource with records gets no note,
    and an empty option list when none of its nodes is eligible. *)
Theorem planMaximizeEfficiency_total (st : Store)
  (selectedResources : list string) (runMode : string) :
  exists results,
    planMaximizeEfficiency selectedResources runMode st = (results, st) /\
    map EffResult.resource results = selectedResources /\
    forall r, In r results ->
      (noRecords st (EffResult.resource r) ->
       EffResult.options r = [] /\ EffResult.note r = Some noDataNote) /\
      (~ noRecords st (EffResult.resource r) ->
       EffResult.note r = None /\
       (noneEligible st runMode (EffResult.resource r) ->
        EffResult.options r = [])).
Proof.
  destruct (returns_run _ _ _
              (planMaximizeEfficiency_returns st selectedResources runMode))
    as (results & Hrun & Hok).
  exists results. split; [assumption|].
  split; [now apply (resultOK_resources st runMode)|].
  intros r Hin.
  destruct (resultOK_In _ _ _ _ _ Hok Hin) as [_ Hr].
  unfold noRecords, noneEligible.
  destruct (JsMap.get (EXPLICIT st) (norm (EffResult.resource r)))
    as [explicitMap|] eqn:Hmap.
  - destruct (Nat.eqb_spec (JsMap.size explicitMap) 0) as [Hzero|Hsome].
    + split; [intros _; assumption | intros Hno; contradiction].
    + destruct Hr as [Hnote Hoptions].
      split; [intros Hzero; contradiction|].
      intros _. split; [assumption|]. intros Hnone.
      destruct (EffResult.options r) as [|o os]; [reflexivity|].
      inversion Hoptions as [|? ? (s & meta & Hs & Hm & _ & Hel & _) _]; subst.
      rewrite (Hnone explicitMap _ s meta eq_refl Hs Hm) in Hel. discriminate.
  - split; [intros _; assumption | intros Hno; now elim Hno].
Qed.

(** ** Planner: minimize stops *)

Lemma getExplicitScore_run (rKey nKey : string) (st : Store) :
  getExplicitScore rKey nKey st
  = (match JsMap.get (EXPLICIT st) rKey with
     | Some map => JsMap.get map nKey
     | None => None
     end, st).
Proof.
  unfold getExplicitScore, bind, gets.
  destruct (JsMap.get (EXPLICIT st) rKey); reflexivity.
Qed.

Lemma planetHasResourceFallback_run (rKey planetKey : string) (st : Store) :
  planetHasResourceFallback rKey planetKey st
  = (match JsMap.get (PLANET_DROPS st) rKey with
     | Some set => JsSet.has set planetKey
     | None => false
     end, st).
Proof. reflexivity. Qed.

Lemma coverResource_explicit (st : Store) (runMode : string)
  (rDisplay : JsMap.t string) (nKey : string) (meta : NodeMeta.t)
  (total : Q) (covered : list Covered.t) (rKey : string)
  (explicit : ScoreObj.t) :
  fst (getExplicitScore rKey nKey st) = Some explicit ->
  coverResource runMode rDisplay nKey meta (total, covered) rKey st
  = (if Qlt_bool 0 (computeEffScore explicit runMode meta)
     then (total + computeEffScore explicit runMode meta,
           covered ++ [Covered.mk (displayOf rDisplay rKey) "explicit"
                                  (computeEffScore explicit runMode meta)])
     else (total, covered),
     st).
Proof.
  intros Hex. unfold coverResource, bind.
  rewrite getExplicitScore_run in *. simpl in Hex. rewrite Hex.
  destruct (Qlt_bool 0 (computeEffScore explicit runMode meta)); reflexivity.
Qed.

Lemma coverResource_returns (st : Store) (runMode : string)
  (rDisplay : JsMap.t string) (nKey : string) (meta : NodeMeta.t)
  (acc : Q * list Covered.t) (rKey : string) :
  norm (displayOf rDisplay rKey) = rKey ->
  Forall (coveredOK st runMode nKey meta) (snd acc) ->
  returns st (coverResource runMode rDisplay nKey meta acc rKey)
          (fun acc' => Forall (coveredOK st runMode nKey meta) (snd acc')).
Proof.
  intros Hnorm Hcovered. destruct acc as [total covered]. simpl in Hcovered.
  destruct (fst (getExplicitScore rKey nKey st)) as [explicit|] eqn:Hex.
  - unfold returns.
    rewrite (coverResource_explicit _ _ _ _ _ _ _ _ _ Hex).
    split; [reflexivity|]. simpl.
    destruct (Qlt_bool 0 (computeEffScore explicit runMode meta)) eqn:Hpos;
      simpl; [|assumption].
    apply Forall_app. split; [assumption|]. constructor; [|constructor].
    unfold coveredOK. simpl. rewrite Hnorm, Hex.
    repeat split. now apply Qlt_bool_iff.
  - unfold returns, coverResource, bind.
    pose proof Hex as Hex'. rewrite getExplicitScore_run in Hex'.
    simpl in Hex'. rewrite getExplicitScore_run, Hex'.
    destruct (planetHasResourceFallback rKey (NodeMeta.planetKey meta) st)
      as [fallback st'] eqn:Hfb.
    rewrite planetHasResourceFallback_run in Hfb. injection Hfb as Hfb <-.
    destruct fallback; simpl; split; try reflexivity; try assumption.
    apply Forall_app. split; [assumption|]. constructor; [|constructor].
    unfold coveredOK. simpl. rewrite Hnorm, Hex.
    split; [reflexivity | exact Hfb].
Qed.

Lemma scoreCandidate_returns (st : Store) (runMode : string)
  (rDisplay : JsMap.t string) (remaining : JsSet.t)
  (scored : list StopOption.t) (nKey : string) :
  (forall rKey, In rKey remaining -> norm (displayOf rDisplay rKey) = rKey) ->
  candOK st runMode nKey ->
  Forall (stopOptionOK st runMode) scored ->
  returns st (scoreCandidate runMode rDisplay remaining scored nKey)
          (Forall (stopOptionOK st runMode)).
Proof.
  intros Hdisp (meta & Hmeta & Hok) Hscored. unfold scoreCandidate.
  read_store. rewrite Hmeta.
  apply returns_bind
    with (R1 := fun acc => Forall (coveredOK st runMode nKey meta) (snd acc)).
  - apply returns_forEach_inv; [constructor|].
    intros rKey acc Hin Hacc. apply coverResource_returns; auto.
  - intros [total covered] Hcovered. simpl in Hcovered.
    destruct (List.length covered =? 0)%nat; apply returns_ret; [assumption|].
    apply Forall_app. split; [assumption|].
    constructor; [|constructor]. repeat split; simpl; assumption.
Qed.

Lemma collectNodes_returns (st : Store) (candidateNodes : JsSet.t)
  (rKey : string) :
  returns st (collectNodes candidateNodes rKey) (fun _ => True).
Proof.
  unfold collectNodes. read_store.
  destruct (JsMap.get (EXPLICIT st) rKey); now apply returns_ret.
Qed.

Lemma candidateOk_returns (st : Store) (runMode nKey : string) :
  returns st (candidateOk runMode nKey)
          (fun b => b = true -> candOK st runMode nKey).
Proof.
  unfold candidateOk. read_store.
  destruct (JsMap.get (NODE_META st) nKey) as [meta|] eqn:Hmeta;
    apply returns_ret; [|discriminate].
  intros Hok. exists meta. auto.
Qed.

Lemma copy_options (top : list StopOption.t) :
  map (fun opt => StopOption.mk (StopOption.nodeKey opt) (StopOption.score opt)
                                (StopOption.meta opt) (StopOption.covered opt))
      top
  = top.
Proof.
  induction top as [|[] top IH]; simpl; [reflexivity | now rewrite IH].
Qed.

Lemma coveredByRoute_snoc (route : list Step.t) (best : StopOption.t)
  (others : list StopOption.t) (k : string) :
  coveredByRoute (route ++ [Step.mk (best :: others)]) k <->
  coveredByRoute route k \/
  (exists c, In c (StopOption.covered best) /\ norm (Covered.resource c) = k).
Proof.
  unfold coveredByRoute, primaryCovers. split.
  - intros (step & Hin & b & c & Hhead & Hc & Hk).
    apply in_app_iff in Hin as [Hin|[<-|[]]].
    + left. exists step. split; [assumption|]. exists b, c. auto.
    + right. simpl in Hhead. injection Hhead as <-. eauto.
  - intros [(step & Hin & Hcov)|(c & Hc & Hk)].
    + exists step. split; [apply in_app_iff; now left | assumption].
    + exists (Step.mk (best :: others)).
      split; [apply in_app_iff; simpl; tauto|].
      exists best, c. simpl. auto.
Qed.

Lemma stopsLoop_unfold (turns : nat) (runMode : string)
  (rDisplay : JsMap.t string) (candidates : list string)
  (remaining : JsSet.t) (route : list Step.t) :
  stopsLoop turns runMode rDisplay candidates remaining route
  = if negb ((0 <? JsSet.size remaining) && (List.length route <? maxStops))%nat
    then ret (Some (route, remaining))
    else
      match turns with
      | O => ret None
      | S turns' =>
          bind (forEach candidates []
                        (scoreCandidate runMode rDisplay remaining))
               (fun scored =>
                  match pickTopOptions (sortBy byScoreDesc scored) 3 with
                  | [] => ret (Some (route, remaining))
                  | best :: _ =>
                      stopsLoop turns' runMode rDisplay candidates
                        (removeCovered remaining (StopOption.covered best))
                        (route ++
                         [Step.mk
                            (map (fun opt =>
                                    StopOption.mk (StopOption.nodeKey opt)
                                                  (StopOption.score opt)
                                                  (StopOption.meta opt)
                                                  (StopOption.covered opt))
                                 (pickTopOptions (sortBy byScoreDesc scored) 3))])
                  end)
      end.
Proof. destruct turns; reflexivity. Qed.

(** The loop ends within [maxStops] turns; the route stays within
    [maxStops] steps, and [remaining] holds the keys that no primary choice
    of the route covers. *)
Lemma stopsLoop_returns (st : Store) (runMode : string)
  (rDisplay : JsMap.t string) (candidates : list string)
  (requested : list string) :
  (forall k, In k requested -> norm (displayOf rDisplay k) = k) ->
  Forall (candOK st runMode) candidates ->
  forall (turns : nat) (remaining : JsSet.t) (route : list Step.t),
    (maxStops <= turns + List.length route)%nat ->
    (List.length route <= maxStops)%nat ->
    routeOK st runMode route ->
    (forall k, In k remaining <-> In k requested /\ ~ coveredByRoute route k) ->
    returns st (stopsLoop turns runMode rDisplay candidates remaining route)
      (fun out =>
         exists route' remaining',
           out = Some (route', remaining') /\
           (List.length route' <= maxStops)%nat /\
           routeOK st runMode route' /\
           (forall k, In k remaining' <->
                      In k requested /\ ~ coveredByRoute route' k)).
Proof.
  intros Hdisp Hcands.
  induction turns as [|turns IH]; intros remaining route Hfuel Hlen Hroute Hrem;
    rewrite stopsLoop_unfold;
    destruct (negb ((0 <? JsSet.size remaining)
                    && (List.length route <? maxStops))%nat) eqn:Hcond;
    try (apply returns_ret; exists route, remaining; now auto).
  - apply negb_false_iff, andb_true_iff in Hcond as [_ Hlt].
    apply Nat.ltb_lt in Hlt. lia.
  - apply negb_false_iff, andb_true_iff in Hcond as [_ Hlt].
    apply Nat.ltb_lt in Hlt.
    apply returns_bind with (R1 := Forall (stopOptionOK st runMode)).
    + apply returns_forEach_inv; [constructor|].
      intros nKey scored Hin Hscored.
      apply scoreCandidate_returns; [| |assumption].
      * intros rKey Hr. now apply Hdisp, Hrem.
      * rewrite Forall_forall in Hcands. now apply Hcands.
    + intros scored Hscored.
      destruct (pickTopOptions (sortBy byScoreDesc scored) 3)
        as [|best others] eqn:Htop.
      * apply returns_ret. exists route, remaining. auto.
      * rewrite copy_options.
        assert (Htopok : Forall (stopOptionOK st runMode) (best :: others)).
        { rewrite <- Htop. rewrite Forall_forall in *. intros o Ho.
          apply Hscored. apply pickTopOptions_In in Ho.
          now apply sortBy_In in Ho. }
        apply IH.
        -- rewrite length_app. simpl. lia.
        -- rewrite length_app. simpl. lia.
        -- apply Forall_app. split; [assumption|].
           constructor; [assumption | constructor].
        -- intros k. rewrite removeCovered_In, Hrem, coveredByRoute_snoc.
           tauto.
Qed.

Lemma planMinimizeStops_returns (st : Store)
  (selectedResources : list string) (runMode : string) :
  returns st (planMinimizeStops selectedResources runMode)
    (fun out =>
       exists plan remaining,
         out = Some plan /\
         (List.length (StopsPlan.route plan) <= maxStops)%nat /\
         routeOK st runMode (StopsPlan.route plan) /\
         StopsPlan.missing plan
         = map (displayOf (JsMap.ofList
                             (map (fun r => (norm r, r)) selectedResources)))
               remaining /\
         (forall k, In k remaining <->
                    In k (map norm selectedResources) /\
                    ~ coveredByRoute (StopsPlan.route plan) k)).
Proof.
  unfold planMinimizeStops. cbv zeta.
  apply returns_bind with (R1 := fun _ => True).
  { apply returns_forEach_inv; [exact I|].
    intros rKey acc _ _. apply collectNodes_returns. }
  intros candidateNodes _.
  apply returns_bind with (R1 := Forall (candOK st runMode)).
  { apply returns_filterM. intros nKey _. apply candidateOk_returns. }
  intros candidates Hcands.
  eapply returns_bind.
  { apply (stopsLoop_returns st runMode _ candidates
             (map norm selectedResources)
             (fun k Hk => proj2 (displayOf_selected selectedResources k Hk))
             Hcands maxStops
             (JsSet.ofList (map norm selectedResources)) []).
    - unfold maxStops. simpl. lia.
    - unfold maxStops. simpl. lia.
    - constructor.
    - intros k. rewrite JsSet_ofList_In. split; [|tauto].
      intros Hin. split; [assumption|]. now intros (step & [] & _). }
  cbv beta. intros out (route & remaining & -> & Hlen & Hroute & Hrem).
  apply returns_ret. eexists. exists remaining. simpl. auto.
Qed.

(** C3: for a (resource, node) pair with an [ExplicitDropRecord], the loop
    of [planMinimizeStops] over the remaining resources counts the explicit
    effective score when it is strictly positive and leaves the resource
    uncovered otherwise; the planet fallback data has no part in the
    outcome.  In the plan, an entry that covers the resource at the node is
    an explicit one, with that strictly positive score. *)
Theorem explicit_record_precedes_fallback (st : Store)
  (selectedResources : list string) (runMode nKey rKey : string)
  (explicit : ScoreObj.t) :
  fst (getExplicitScore rKey nKey st) = Some explicit ->
  (forall (rDisplay : JsMap.t string) (meta : NodeMeta.t) (total : Q)
          (covered : list Covered.t),
      coverResource runMode rDisplay nKey meta (total, covered) rKey st
      = (if Qlt_bool 0 (computeEffScore explicit runMode meta)
         then (total + computeEffScore explicit runMode meta,
               covered ++ [Covered.mk (displayOf rDisplay rKey) "explicit"
                                      (computeEffScore explicit runMode meta)])
         else (total, covered),
         st)) /\
  (forall (rDisplay : JsMap.t string) (meta : NodeMeta.t) (total : Q)
          (covered : list Covered.t) (drops : JsMap.t JsSet.t),
      fst (coverResource runMode rDisplay nKey meta (total, covered) rKey
                         (set_PLANET_DROPS drops st))
      = fst (coverResource runMode rDisplay nKey meta (total, covered) rKey
                           st)) /\
  (forall (plan : StopsPlan.t) (step : Step.t) (o : StopOption.t)
          (c : Covered.t),
      fst (planMinimizeStops selectedResources runMode st) = Some plan ->
      In step (StopsPlan.route plan) ->
      In o (Step.options step) ->
      StopOption.nodeKey o = nKey ->
      In c (StopOption.covered o) ->
      norm (Covered.resource c) = rKey ->
      Covered.via c = "explicit" /\
      Covered.score c = computeEffScore explicit runMode (StopOption.meta o) /\
      0 < Covered.score c).
Proof.
  intros Hex. split; [|split].
  - intros. now apply coverResource_explicit.
  - intros rDisplay meta total covered drops.
    rewrite (coverResource_explicit st _ _ _ _ _ _ _ _ Hex).
    rewrite (coverResource_explicit (set_PLANET_DROPS drops st)
               _ _ _ _ _ _ _ explicit).
    + reflexivity.
    + rewrite getExplicitScore_run in *. exact Hex.
  - intros plan step o c Hplan Hstep Ho Hnode Hc Hkey.
    destruct (planMinimizeStops_returns st selectedResources runMode)
      as [_ (plan' & remaining & Hout & _ & Hroute & _)].
    rewrite Hplan in Hout. injection Hout as <-.
    unfold routeOK in Hroute. rewrite Forall_forall in Hroute.
    specialize (Hroute step Hstep). rewrite Forall_forall in Hroute.
    destruct (Hroute o Ho) as (_ & _ & Hcovered).
    rewrite Forall_forall in Hcovered. specialize (Hcovered c Hc).
    unfold coveredOK in Hcovered. rewrite Hkey, Hnode, Hex in Hcovered.
    destruct Hcovered as (Hvia & Hscore & Hpos).
    repeat split; try assumption. now rewrite Hscore.
Qed.

Lemma explicit_record_precedes_fallback_witness :
  (forall (rDisplay : JsMap.t string) (meta : NodeMeta.t) (total : Q)
          (covered : list Covered.t),
      coverResource "quick" rDisplay "n1" meta (total, covered) "plastids"
                    zeroScoreCatalog
      = (if Qlt_bool 0 (computeEffScore (ScoreObj.mk 0 3 false) "quick" meta)
         then (total + computeEffScore (ScoreObj.mk 0 3 false) "quick" meta,
               covered ++ [Covered.mk (displayOf rDisplay "plastids") "explicit"
                             (computeEffScore (ScoreObj.mk 0 3 false) "quick"
                                              meta)])
         else (total, covered),
         zeroScoreCatalog)) /\
  (forall (rDisplay : JsMap.t string) (meta : NodeMeta.t) (total : Q)
          (covered : list Covered.t) (drops : JsMap.t JsSet.t),
      fst (coverResource "quick" rDisplay "n1" meta (total, covered) "plastids"
                         (set_PLANET_DROPS drops zeroScoreCatalog))
      = fst (coverResource "quick" rDisplay "n1" meta (total, covered)
                           "plastids" zeroScoreCatalog)) /\
  (forall (plan : StopsPlan.t) (step : Step.t) (o : StopOption.t)
          (c : Covered.t),
      fst (planMinimizeStops ["Plastids"] "quick" zeroScoreCatalog)
      = Some plan ->
      In step (StopsPlan.route plan) ->
      In o (Step.options step) ->
      StopOption.nodeKey o = "n1" ->
      In c (StopOption.covered o) ->
      norm (Covered.resource c) = "plastids" ->
      Covered.via c = "explicit" /\
      Covered.score c
      = computeEffScore (ScoreObj.mk 0 3 false) "quick" (StopOption.meta o) /\
      0 < Covered.score c).
Proof.
  apply (explicit_record_precedes_fallback zeroScoreCatalog ["Plastids"]
           "quick" "n1" "plastids" (ScoreObj.mk 0 3 false)).
  reflexivity.
Defined.

(** With a record of score 0 the resource stays uncovered, although the
    planet of the node is in the fallback set of the resource. *)
Example zeroScoreCatalog_stops :
  fst (planMinimizeStops ["Plastids"] "quick" zeroScoreCatalog)
  = Some (StopsPlan.mk [] ["Plastids"]).
Proof. vm_compute. reflexivity. Qed.

Lemma NoDup_map_injective {A B : Type} (f : A -> B) (l : list A) (x y : A) :
  NoDup (map f l) -> In x l -> In y l -> f x = f y -> x = y.
Proof.
  induction l as [|z l IH]; simpl; [easy|].
  intros Hnd. inversion Hnd as [|? ? Hnotin Hnd']; subst.
  intros [->|Hx] [->|Hy] Heq; auto.
  - elim Hnotin. rewrite Heq. now apply in_map.
  - elim Hnotin. rewrite <- Heq. now apply in_map.
Qed.

(** C5: [planMinimizeStops] returns a plan, within the six turns of its
    loop; the route has at most 6 steps, and [missing] lists exactly the
    requested resources whose key no primary choice of the route covers
    (each under a requested display name; under its own name when the
    requested names have distinct keys). *)
Theorem planMinimizeStops_bounded (st : Store)
  (selectedResources : list string) (runMode : string) :
  exists plan,
    planMinimizeStops selectedResources runMode st = (Some plan, st) /\
    (List.length (StopsPlan.route plan) <= 6)%nat /\
    (forall m, In m (StopsPlan.missing plan) -> In m selectedResources) /\
    (forall r, In r selectedResources ->
       ((exists m, In m (StopsPlan.missing plan) /\ norm m = norm r) <->
        ~ coveredByRoute (StopsPlan.route plan) (norm r))) /\
    (NoDup (map norm selectedResources) ->
     forall r, In r (StopsPlan.missing plan) <->
               In r selectedResources /\
               ~ coveredByRoute (StopsPlan.route plan) (norm r)).
Proof.
  destruct (returns_run _ _ _
              (planMinimizeStops_returns st selectedResources runMode))
    as (out & Hrun & plan & remaining & -> & Hlen & _ & Hmissing & Hrem).
  exists plan. split; [assumption|]. split; [exact Hlen|].
  assert (Hdisp : forall k, In k remaining ->
            In (displayOf (JsMap.ofList
                             (map (fun r => (norm r, r)) selectedResources)) k)
               selectedResources /\
            norm (displayOf (JsMap.ofList
                               (map (fun r => (norm r, r)) selectedResources)) k)
            = k).
  { intros k Hk. apply displayOf_selected. now apply Hrem. }
  assert (Hkeys : forall r, In r selectedResources ->
            ((exists m, In m (StopsPlan.missing plan) /\ norm m = norm r) <->
             ~ coveredByRoute (StopsPlan.route plan) (norm r))).
  { intros r Hr. rewrite Hmissing. split.
    - intros (m & Hm & Hnorm). apply in_map_iff in Hm as (k & <- & Hk).
      destruct (Hdisp k Hk) as [_ Hk']. rewrite Hk' in Hnorm. subst k.
      now apply Hrem.
    - intros Hnot.
      assert (Hk : In (norm r) remaining)
        by (apply Hrem; split; [now apply in_map | assumption]).
      eexists. split; [apply in_map, Hk | now apply Hdisp]. }
  split; [|split; [exact Hkeys|]].
  - intros m Hm. rewrite Hmissing in Hm.
    apply in_map_iff in Hm as (k & <- & Hk). now apply Hdisp.
  - intros Hnodup r. split.
    + intros Hr. rewrite Hmissing in Hr.
      apply in_map_iff in Hr as (k & <- & Hk).
      destruct (Hdisp k Hk) as [Hsel Hnorm].
      split; [assumption|]. rewrite Hnorm. now apply Hrem.
    + intros [Hsel Hnot].
      destruct (proj2 (Hkeys r Hsel) Hnot) as (m & Hm & Hnorm).
      assert (Hmsel : In m selectedResources).
      { rewrite Hmissing in Hm. apply in_map_iff in Hm as (k & <- & Hk).
        now apply Hdisp. }
      now rewrite <- (NoDup_map_injective norm _ _ _ Hnodup Hmsel Hsel Hnorm).
Qed.

Lemma endless_eligible (meta : NodeMeta.t) :
  nodeEligibleByRunMode meta "endless" = true -> NodeMeta.isEndless meta = true.
Proof. intros H. exact H. Qed.

(** C6: in run mode "endless" every node in the output of either planner,
    primary choice or alternative, is a node of the catalog whose metadata
    has [isEndless = true]; a node that is not endless adds nothing to the
    scored list of the efficiency planner and is filtered out of the
    candidates of the stops planner. *)
Theorem endless_mode_only_endless_nodes (st : Store)
  (selectedResources : list string) :
  (forall r o,
      In r (fst (planMaximizeEfficiency selectedResources "endless" st)) ->
      In o (EffResult.options r) ->
      exists meta,
        EffOption.meta o = Some meta /\
        JsMap.get (NODE_META st) (EffOption.nodeKey o) = Some meta /\
        NodeMeta.isEndless meta = true) /\
  (forall plan step o,
      fst (planMinimizeStops selectedResources "endless" st) = Some plan ->
      In step (StopsPlan.route plan) ->
      In o (Step.options step) ->
      JsMap.get (NODE_META st) (StopOption.nodeKey o)
      = Some (StopOption.meta o) /\
      NodeMeta.isEndless (StopOption.meta o) = true) /\
  (forall scored nKey s meta,
      JsMap.get (NODE_META st) nKey = Some meta ->
      NodeMeta.isEndless meta = false ->
      scoreEntry "endless" scored (nKey, s) st = (scored, st)) /\
  (forall nKey meta,
      JsMap.get (NODE_META st) nKey = Some meta ->
      NodeMeta.isEndless meta = false ->
      candidateOk "endless" nKey st = (false, st)).
Proof.
  split; [|split; [|split]];
    [| | intros scored nKey s meta Hmeta Hend;
         unfold scoreEntry, bind, gets; rewrite Hmeta;
         unfold nodeEligibleByRunMode; simpl; now rewrite Hend
       | intros nKey meta Hmeta Hend;
         unfold candidateOk, bind, gets; rewrite Hmeta;
         unfold nodeEligibleByRunMode; simpl; now rewrite Hend].
  - intros r o Hr Ho.
    destruct (planMaximizeEfficiency_returns st selectedResources "endless")
      as [_ Hok].
    destruct (resultOK_In _ _ _ _ _ Hok Hr) as [_ Hres].
    destruct (JsMap.get (EXPLICIT st) (norm (EffResult.resource r)))
      as [explicitMap|].
    + destruct (JsMap.size explicitMap =? 0)%nat.
      * destruct Hres as [Hnil _]. rewrite Hnil in Ho. contradiction.
      * destruct Hres as [_ Hall]. rewrite Forall_forall in Hall.
        destruct (Hall o Ho) as (s & meta & _ & Hm & Hmeta & Hel & _).
        exists meta. auto using endless_eligible.
    + destruct Hres as [Hnil _]. rewrite Hnil in Ho. contradiction.
  - intros plan step o Hplan Hstep Ho.
    destruct (planMinimizeStops_returns st selectedResources "endless")
      as [_ (plan' & remaining & Hout & _ & Hroute & _)].
    rewrite Hplan in Hout. injection Hout as <-.
    unfold routeOK in Hroute. rewrite Forall_forall in Hroute.
    specialize (Hroute step Hstep). rewrite Forall_forall in Hroute.
    destruct (Hroute o Ho) as (Hm & Hel & _). auto using endless_eligible.
Qed.

(** C8: both planners leave the store (so [EXPLICIT], [NODE_META],
    [PLANET_DROPS] and [RESOURCES]) as it was, and a second call with the
    same arguments gives the same output as the first. *)
Theorem planners_leave_catalog (st : Store) (selectedResources : list string)
  (runMode : string) :
  snd (planMaximizeEfficiency selectedResources runMode st) = st /\
  snd (planMinimizeStops selectedResources runMode st) = st /\
  fst (planMaximizeEfficiency selectedResources runMode
         (snd (planMaximizeEfficiency selectedResources runMode st)))
  = fst (planMaximizeEfficiency selectedResources runMode st) /\
  fst (planMinimizeStops selectedResources runMode
         (snd (planMinimizeStops selectedResources runMode st)))
  = fst (planMinimizeStops selectedResources runMode st) /\
  fst (planMinimizeStops selectedResources runMode
         (snd (planMaximizeEfficiency selectedResources runMode st)))
  = fst (planMinimizeStops selectedResources runMode st) /\
  fst (planMaximizeEfficiency selectedResources runMode
         (snd (planMinimizeStops selectedResources runMode st)))
  = fst (planMaximizeEfficiency selectedResources runMode st).
Proof.
  destruct (planMaximizeEfficiency_returns st selectedResources runMode)
    as [He _].
  destruct (planMinimizeStops_returns st selectedResources runMode)
    as [Hs _].
  rewrite He, Hs. repeat split.
Qed.

(** ** Catalog build *)

Section LoadFacts.
Variable numberOrZero : string -> Q.
Variable localeCompare : string -> string -> Q.

Lemma rowIsIndexed_false (row : RawRow) :
  rowIsIndexed row = false <->
  textOf (column row "resource" "Resource") = "" \/
  textOf (column row "node" "Node") = "".
Proof.
  unfold rowIsIndexed, truthy.
  rewrite andb_false_iff, !negb_false_iff, !String.eqb_eq. reflexivity.
Qed.

Lemma indexMasterRow_skip (row : RawRow) (st : Store) :
  rowIsIndexed row = false -> indexMasterRow numberOrZero row st = (tt, st).
Proof.
  unfold rowIsIndexed, indexMasterRow. cbv zeta. intros Hskip.
  rewrite <- negb_andb, Hskip. reflexivity.
Qed.

Lemma index_master_filter (master : list RawRow) :
  forall st,
    forEach master tt (fun _ row => indexMasterRow numberOrZero row) st
    = forEach (filter rowIsIndexed master) tt
              (fun _ row => indexMasterRow numberOrZero row) st.
Proof.
  induction master as [|row master IH]; intros st; simpl; [reflexivity|].
  destruct (rowIsIndexed row) eqn:Hrow; simpl; unfold bind.
  - destruct (indexMasterRow numberOrZero row st) as [[] st']. apply IH.
  - rewrite (indexMasterRow_skip row st Hrow). apply IH.
Qed.

(** C9: a master row whose resource or node is empty after trimming is
    skipped: indexing it changes nothing in the store, and the whole build
    gives the store it gives without such rows; the build is a total
    function, so it has a result whatever the rows are. *)
Theorem empty_rows_are_skipped (master planet : list RawRow) (st : Store) :
  (forall (row : RawRow) (st' : Store),
      textOf (column row "resource" "Resource") = "" \/
      textOf (column row "node" "Node") = "" ->
      indexMasterRow numberOrZero row st' = (tt, st')) /\
  (forall row : RawRow,
      In row (filter rowIsIndexed master) <->
      In row master /\
      textOf (column row "resource" "Resource") <> "" /\
      textOf (column row "node" "Node") <> "") /\
  loadData numberOrZero localeCompare master planet st
  = loadData numberOrZero localeCompare (filter rowIsIndexed master) planet st.
Proof.
  split; [|split].
  - intros row st' Hempty. now apply indexMasterRow_skip, rowIsIndexed_false.
  - intros row. rewrite filter_In. unfold rowIsIndexed, truthy.
    rewrite andb_true_iff, !negb_true_iff, !String.eqb_neq. reflexivity.
  - unfold loadData, bind. simpl. now rewrite index_master_filter.
Qed.

End LoadFacts.

(** ** The sample catalog *)

Example sampleCatalog_index :
  MASTER_ROWS sampleCatalog
  = [MasterRow.mk "Plastids" "N1" "Earth" "Survival" true 3 5
                  "plastids" "n1" "earth";
     MasterRow.mk "Rubedo" "n1" "Venus" "" false 5 3
                  "rubedo" "n1" "venus"] /\
  NODE_META sampleCatalog
  = [("n1", NodeMeta.mk "N1" "Earth" "earth" "Survival" true 3)] /\
  EXPLICIT sampleCatalog
  = [("plastids", [("n1", ScoreObj.mk 5 3 true)]);
     ("rubedo", [("n1", ScoreObj.mk 3 5 false)])] /\
  RESOURCES sampleCatalog = ["Plastids"; "Rubedo"] /\
  PLANET_DROPS sampleCatalog = [("rubedo", ["earth"]); ("ferrite", ["earth"])].
Proof. repeat split. Qed.

Example sampleCatalog_efficiency :
  fst (planMaximizeEfficiency ["Plastids"; "Argon"] "endless" sampleCatalog)
  = [EffResult.mk "Plastids"
       [EffOption.mk "n1" 5
          (Some (NodeMeta.mk "N1" "Earth" "earth" "Survival" true 3))]
       None;
     EffResult.mk "Argon" [] (Some noDataNote)].
Proof. reflexivity. Qed.

Example sampleCatalog_stops :
  fst (planMinimizeStops ["Plastids"; "Ferrite"; "Argon"] "endless"
                         sampleCatalog)
  = Some (StopsPlan.mk
            [Step.mk
               [StopOption.mk "n1" (5 + 2)
                  (NodeMeta.mk "N1" "Earth" "earth" "Survival" true 3)
                  [Covered.mk "Plastids" "explicit" 5;
                   Covered.mk "Ferrite" "planet" 2]]]
            ["Argon"]).
Proof. vm_compute. reflexivity. Qed.

(** Nodes that tie on the aggregate score both appear in the step, in the
    order in which the candidates were enumerated. *)
Example tieCatalog_stops :
  fst (planMinimizeStops ["Rubedo"] "endless" tieCatalog)
  = Some (StopsPlan.mk
            [Step.mk
               [StopOption.mk "n1" (0 + 4)
                  (NodeMeta.mk "N1" "Earth" "earth" "Survival" true 3)
                  [Covered.mk "Rubedo" "explicit" 4];
                StopOption.mk "n2" (0 + 4)
                  (NodeMeta.mk "N2" "Mars" "mars" "Defense" true 2)
                  [Covered.mk "Rubedo" "explicit" 4]]]
            []).
Proof. reflexivity. Qed.

(** * Further properties *)

(** ** Normal forms of names *)

Lemma isWhiteSpace_lowerChar (c : ascii) :
  isWhiteSpace (lowerChar c) = isWhiteSpace c.
Proof. destruct c as [[] [] [] [] [] [] [] []]; reflexivity. Qed.

Lemma lowerChar_idem (c : ascii) : lowerChar (lowerChar c) = lowerChar c.
Proof. destruct c as [[] [] [] [] [] [] [] []]; reflexivity. Qed.

Lemma toLowerCase_idem (s : string) : toLowerCase (toLowerCase s) = toLowerCase s.
Proof.
  induction s as [|c s IH]; simpl; [reflexivity|].
  now rewrite lowerChar_idem, IH.
Qed.

Lemma toLowerCase_trimStart (s : string) :
  trimStart (toLowerCase s) = toLowerCase (trimStart s).
Proof.
  induction s as [|c s IH]; simpl; [reflexivity|].
  rewrite isWhiteSpace_lowerChar. destruct (isWhiteSpace c); [exact IH | reflexivity].
Qed.

Lemma toLowerCase_trimEnd (s : string) :
  trimEnd (toLowerCase s) = toLowerCase (trimEnd s).
Proof.
  induction s as [|c s IH]; simpl; [reflexivity|].
  rewrite IH, isWhiteSpace_lowerChar.
  destruct (trimEnd s); simpl; [|reflexivity].
  destruct (isWhiteSpace c); reflexivity.
Qed.

Lemma toLowerCase_trim (s : string) : trim (toLowerCase s) = toLowerCase (trim s).
Proof. unfold trim. now rewrite toLowerCase_trimStart, toLowerCase_trimEnd. Qed.

Lemma trimEnd_idem (s : string) : trimEnd (trimEnd s) = trimEnd s.
Proof.
  induction s as [|c s IH]; simpl; [reflexivity|].
  destruct (trimEnd s) as [|c' s'] eqn:E.
  - destruct (isWhiteSpace c) eqn:Ec; simpl; [reflexivity | now rewrite Ec].
  - cbn [trimEnd]. cbn [trimEnd] in IH. rewrite IH. reflexivity.
Qed.

Lemma trimStart_head (s : string) :
  match trimStart s with
  | EmptyString => True
  | String c _ => isWhiteSpace c = false
  end.
Proof.
  induction s as [|c s IH]; simpl; [exact I|].
  destruct (isWhiteSpace c) eqn:E; [exact IH | exact E].
Qed.

Lemma trimEnd_head (c : ascii) (s : string) :
  isWhiteSpace c = false -> exists r, trimEnd (String c s) = String c r.
Proof.
  intros Hc. simpl. destruct (trimEnd s); rewrite ?Hc; eauto.
Qed.

Lemma trimStart_trim (s : string) : trimStart (trim s) = trim s.
Proof.
  unfold trim. pose proof (trimStart_head s) as Hh.
  destruct (trimStart s) as [|c r]; [reflexivity|].
  destruct (trimEnd_head c r Hh) as (r' & ->). simpl. now rewrite Hh.
Qed.

Lemma trim_idem (s : string) : trim (trim s) = trim s.
Proof.
  unfold trim at 1. rewrite trimStart_trim. unfold trim. apply trimEnd_idem.
Qed.

Lemma toLowerCase_empty (s : string) : toLowerCase s = "" <-> s = "".
Proof. destruct s; simpl; split; intros H; congruence. Qed.

(** X1: Normalizing a name twice is the same as normalizing it once: the keys
    of the indexes are their own normal forms. *)
Theorem norm_idem (s : string) : norm (norm s) = norm s.
Proof.
  unfold norm. now rewrite toLowerCase_trim, trim_idem, toLowerCase_idem.
Qed.

Lemma norm_empty (s : string) : norm s = "" <-> trim s = "".
Proof. unfold norm. apply toLowerCase_empty. Qed.

(** ** Escaping for HTML *)

Lemma string_app_assoc (a b c : string) :
  ((a ++ b) ++ c)%string = (a ++ (b ++ c))%string.
Proof. induction a as [|x a IH]; simpl; [reflexivity | now rewrite IH]. Qed.

Lemma string_app_nil_r (a : string) : (a ++ "")%string = a.
Proof. induction a as [|x a IH]; simpl; [reflexivity | now rewrite IH]. Qed.

Lemma replaceAllChar_app (c : ascii) (by_ a b : string) :
  replaceAllChar c by_ (a ++ b)%string
  = (replaceAllChar c by_ a ++ replaceAllChar c by_ b)%string.
Proof.
  induction a as [|x a IH]; simpl; [reflexivity|].
  destruct (x =? c)%char; rewrite IH; [|reflexivity].
  now rewrite string_app_assoc.
Qed.

Lemma escapeHtml_app (a b : string) :
  escapeHtml (a ++ b)%string = (escapeHtml a ++ escapeHtml b)%string.
Proof. unfold escapeHtml. now rewrite !replaceAllChar_app. Qed.

Lemma escapeHtml_char (c : ascii) : escapeHtml (String c "") = htmlEntity c.
Proof. destruct c as [[] [] [] [] [] [] [] []]; reflexivity. Qed.

(** The five passes act as one substitution of characters by entities. *)
Lemma escapeHtml_cons (c : ascii) (s : string) :
  escapeHtml (String c s) = (htmlEntity c ++ escapeHtml s)%string.
Proof.
  change (String c s) with (String c "" ++ s)%string.
  now rewrite escapeHtml_app, escapeHtml_char.
Qed.

Lemma htmlEntity_safe (c : ascii) :
  forallb htmlSafeChar (list_ascii_of_string (htmlEntity c)) = true.
Proof. destruct c as [[] [] [] [] [] [] [] []]; reflexivity. Qed.

Lemma list_ascii_of_string_app (a b : string) :
  list_ascii_of_string (a ++ b)%string
  = list_ascii_of_string a ++ list_ascii_of_string b.
Proof. induction a as [|x a IH]; simpl; [reflexivity | now rewrite IH]. Qed.

Lemma escapeHtml_safe (s : string) :
  forallb htmlSafeChar (list_ascii_of_string (escapeHtml s)) = true.
Proof.
  induction s as [|c s IH]; [reflexivity|].
  rewrite escapeHtml_cons, list_ascii_of_string_app, forallb_app.
  now rewrite htmlEntity_safe, IH.
Qed.

Lemma htmlEntity_cases (c : ascii) :
  (c = "&"%char \/ c = "<"%char \/ c = ">"%char \/ c = dquote \/ c = "'"%char)
  \/ (htmlEntity c = String c "" /\ c <> "&"%char).
Proof.
  unfold htmlEntity.
  destruct (Ascii.eqb_spec c "&"); [now left; left|].
  destruct (Ascii.eqb_spec c "<"); [now left; right; left|].
  destruct (Ascii.eqb_spec c ">"); [now left; right; right; left|].
  destruct (Ascii.eqb_spec c dquote); [now left; right; right; right; left|].
  destruct (Ascii.eqb_spec c "'"); [now left; right; right; right; right|].
  right. now split.
Qed.

Lemma htmlEntity_append_inj (x y : ascii) (s t : string) :
  (htmlEntity x ++ s)%string = (htmlEntity y ++ t)%string -> x = y /\ s = t.
Proof.
  destruct (htmlEntity_cases x) as [Hx|[Hx Hx']],
           (htmlEntity_cases y) as [Hy|[Hy Hy']].
  - destruct Hx as [-> | [-> | [-> | [-> | ->]]]], Hy as [-> | [-> | [-> | [-> | ->]]]];
      cbn; intros H; first [discriminate H | inversion H; now split].
  - rewrite Hy. destruct Hx as [-> | [-> | [-> | [-> | ->]]]]; cbn;
      intros H; inversion H; subst; now elim Hy'.
  - rewrite Hx. destruct Hy as [-> | [-> | [-> | [-> | ->]]]]; cbn;
      intros H; inversion H; subst; now elim Hx'.
  - rewrite Hx, Hy. cbn. intros H. inversion H. now split.
Qed.

Lemma htmlEntity_nonempty (c : ascii) : htmlEntity c <> "".
Proof. destruct c as [[] [] [] [] [] [] [] []]; discriminate. Qed.

Lemma escapeHtml_inj (s : string) :
  forall t, escapeHtml s = escapeHtml t -> s = t.
Proof.
  induction s as [|x s IH]; intros [|y t] H.
  - reflexivity.
  - rewrite escapeHtml_cons in H. change (escapeHtml "") with "" in H.
    destruct (htmlEntity y) eqn:E; [now elim (htmlEntity_nonempty y)|discriminate].
  - rewrite escapeHtml_cons in H. change (escapeHtml "") with "" in H.
    destruct (htmlEntity x) eqn:E; [now elim (htmlEntity_nonempty x)|discriminate].
  - rewrite !escapeHtml_cons in H.
    apply htmlEntity_append_inj in H as [-> H]. now rewrite (IH t H).
Qed.

(** X2: The escaped text has no [<], [>], double quote or single quote left;
    escaping loses nothing (two texts with the same escaped form are the
    same text) and goes piece by piece, so the inserted [&] of an entity is
    never escaped again. *)
Theorem escapeHtml_spec (s t : string) :
  (forall c, In c (list_ascii_of_string (escapeHtml s)) ->
             c <> "<"%char /\ c <> ">"%char /\ c <> dquote /\ c <> "'"%char) /\
  (escapeHtml s = escapeHtml t <-> s = t) /\
  escapeHtml (s ++ t)%string = (escapeHtml s ++ escapeHtml t)%string /\
  (forall c, escapeHtml (String c s) = (htmlEntity c ++ escapeHtml s)%string).
Proof.
  split; [|split; [|split]].
  - intros c Hc.
    pose proof (escapeHtml_safe s) as Hsafe. rewrite forallb_forall in Hsafe.
    specialize (Hsafe c Hc). unfold htmlSafeChar in Hsafe.
    repeat (apply andb_true_iff in Hsafe as [Hsafe ?]).
    repeat match goal with
           | H : negb (_ =? _)%char = true |- _ =>
               apply negb_true_iff, Ascii.eqb_neq in H
           end.
    auto.
  - split; [apply escapeHtml_inj | now intros ->].
  - apply escapeHtml_app.
  - intros c. apply escapeHtml_cons.
Qed.

(** ** The CSV reader *)

Lemma doubleQuotes_cons (c : ascii) (s : string) :
  doubleQuotes (String c s)
  = if (c =? dquote)%char then String dquote (String dquote (doubleQuotes s))
    else String c (doubleQuotes s).
Proof. reflexivity. Qed.

(** Inside quotes, the reader takes a doubled quote for a quote and every
    other character for itself, up to the closing quote. *)
Lemma scanCsv_quoted (s : string) :
  forall (rest field : string) (row : list string) (rows : list (list string)),
    (forall r, rest <> String dquote r) ->
    scanCsv (doubleQuotes s ++ String dquote rest)%string true field row rows
    = scanCsv rest false (field ++ s)%string row rows.
Proof.
  induction s as [|c s IH]; intros rest field row rows Hrest.
  - rewrite string_app_nil_r. cbn [doubleQuotes append scanCsv].
    rewrite Ascii.eqb_refl.
    destruct rest as [|next rest']; [reflexivity|].
    destruct (Ascii.eqb_spec next dquote) as [->|_]; [|reflexivity].
    now elim (Hrest rest').
  - rewrite doubleQuotes_cons.
    destruct (Ascii.eqb_spec c dquote) as [->|Hc].
    + cbn [append scanCsv]. rewrite !Ascii.eqb_refl.
      rewrite IH by assumption. now rewrite string_app_assoc.
    + cbn [append scanCsv].
      destruct (Ascii.eqb_spec c dquote) as [|_]; [contradiction|].
      rewrite IH by assumption. now rewrite string_app_assoc.
Qed.

Lemma scanCsv_quoteCell (s rest field : string) (row : list string)
  (rows : list (list string)) :
  (forall r, rest <> String dquote r) ->
  scanCsv (quoteCell s ++ rest)%string false field row rows
  = scanCsv rest false (field ++ s)%string row rows.
Proof.
  intros Hrest. unfold quoteCell. cbn [append scanCsv].
  rewrite Ascii.eqb_refl, string_app_assoc. cbn [append].
  now apply scanCsv_quoted.
Qed.

(** Outside quotes, a character that is no comma, quote or line break is
    added to the field. *)
Lemma scanCsv_plain (s : string) :
  plainCell s = true ->
  forall (rest field : string) (row : list string) (rows : list (list string)),
    scanCsv (s ++ rest)%string false field row rows
    = scanCsv rest false (field ++ s)%string row rows.
Proof.
  induction s as [|c s IH]; intros Hplain rest field row rows.
  - now rewrite string_app_nil_r.
  - cbn [plainCell] in Hplain. apply andb_true_iff in Hplain as [Hc Hs].
    unfold plainChar in Hc.
    repeat (apply andb_true_iff in Hc as [Hc ?]).
    repeat match goal with
           | H : negb _ = true |- _ => apply negb_true_iff in H
           end.
    cbn [append scanCsv].
    repeat match goal with
           | H : (c =? _)%char = false |- _ => rewrite H; clear H
           end.
    rewrite IH by assumption. now rewrite string_app_assoc.
Qed.

Lemma scanCsv_cell (s rest field : string) (row : list string)
  (rows : list (list string)) :
  (forall r, rest <> String dquote r) ->
  scanCsv (writeCell s ++ rest)%string false field row rows
  = scanCsv rest false (field ++ s)%string row rows.
Proof.
  intros Hrest. unfold writeCell. destruct (plainCell s) eqn:Hplain.
  - now apply scanCsv_plain.
  - now apply scanCsv_quoteCell.
Qed.

Lemma scanCsv_lineFeed (rest field : string) (row : list string)
  (rows : list (list string)) :
  scanCsv (String lineFeed rest) false field row rows
  = let (row', rows') := pushRow (row ++ [field]) rows in
    scanCsv rest false "" row' rows'.
Proof. reflexivity. Qed.

Lemma scanCsv_comma (rest field : string) (row : list string)
  (rows : list (list string)) :
  scanCsv (String "," rest) false field row rows
  = scanCsv rest false "" (row ++ [field]) rows.
Proof. reflexivity. Qed.

Lemma scanCsv_row (cells : list string) :
  cells <> [] ->
  forall (rest : string) (row : list string) (rows : list (list string)),
    scanCsv (writeRow cells ++ String lineFeed rest)%string false "" row rows
    = let (row', rows') := pushRow (row ++ cells) rows in
      scanCsv rest false "" row' rows'.
Proof.
  induction cells as [|c cells IH]; intros Hne rest row rows; [congruence|].
  destruct cells as [|c' cells].
  - cbn [writeRow]. rewrite scanCsv_cell by discriminate.
    now rewrite scanCsv_lineFeed.
  - change (writeRow (c :: c' :: cells))
      with (writeCell c ++ String "," (writeRow (c' :: cells)))%string.
    rewrite string_app_assoc. cbn [append].
    rewrite scanCsv_cell by discriminate.
    rewrite scanCsv_comma, IH by discriminate.
    now rewrite <- app_assoc.
Qed.

Lemma pushRow_kept (row : list string) (rows : list (list string)) :
  rowKept row -> pushRow row rows = ([], rows ++ [row]).
Proof.
  intros [Hne Hblank]. unfold pushRow.
  destruct row as [|cell [|cell' row]]; try reflexivity.
  destruct (String.eqb_spec (trim cell) ""); [|reflexivity].
  now elim (Hblank cell eq_refl).
Qed.

Lemma scanCsv_table (table : list (list string)) :
  Forall rowKept table ->
  forall rest rows,
    scanCsv (writeCsv table ++ rest)%string false "" [] rows
    = scanCsv rest false "" [] (rows ++ table).
Proof.
  induction 1 as [|r table Hr _ IH]; intros rest rows; cbn [writeCsv].
  - now rewrite app_nil_r.
  - rewrite string_app_assoc. cbn [append].
    rewrite scanCsv_row by apply Hr. cbn [app].
    rewrite (pushRow_kept r rows Hr), IH, <- app_assoc. reflexivity.
Qed.

Lemma csvRows_writeCsv (table : list (list string)) :
  Forall rowKept table -> csvRows (writeCsv table) = table.
Proof.
  intros Hkept. unfold csvRows.
  rewrite <- (string_app_nil_r (writeCsv table)).
  now rewrite (scanCsv_table table Hkept "" []).
Qed.

Lemma scanCsv_cells (cells : list string) :
  cells <> [] ->
  forall (tail : string) (row : list string) (rows : list (list string)),
    (forall r, tail <> String dquote r) ->
    scanCsv (writeRow cells ++ tail)%string false "" row rows
    = scanCsv tail false (last cells "") (row ++ removelast cells) rows.
Proof.
  induction cells as [|c cells IH]; intros Hne tail row rows Htail;
    [congruence|].
  destruct cells as [|c' cells].
  - cbn [writeRow last removelast]. rewrite scanCsv_cell by assumption.
    now rewrite app_nil_r.
  - change (writeRow (c :: c' :: cells))
      with (writeCell c ++ String "," (writeRow (c' :: cells)))%string.
    rewrite string_app_assoc. cbn [append].
    rewrite scanCsv_cell by discriminate.
    rewrite scanCsv_comma, IH by (assumption || discriminate).
    change (removelast (c :: c' :: cells)) with (c :: removelast (c' :: cells)).
    change (last (c :: c' :: cells) "") with (last (c' :: cells) "").
    now rewrite <- app_assoc.
Qed.

Lemma scanCsv_row_crlf (cells : list string) :
  cells <> [] ->
  forall (rest : string) (row : list string) (rows : list (list string)),
    scanCsv (writeRow cells
             ++ String carriageReturn (String lineFeed rest))%string
            false "" row rows
    = let (row', rows') := pushRow (row ++ cells) rows in
      scanCsv rest false "" row' rows'.
Proof.
  intros Hne rest row rows. rewrite scanCsv_cells by (assumption || discriminate).
  change (scanCsv (String carriageReturn (String lineFeed rest)) false
                  (last cells "") (row ++ removelast cells) rows)
    with (scanCsv (String lineFeed rest) false
                  (last cells "") (row ++ removelast cells) rows).
  rewrite scanCsv_lineFeed, <- app_assoc.
  now rewrite <- (app_removelast_last "" Hne).
Qed.

Lemma scanCsv_table_crlf (table : list (list string)) :
  Forall rowKept table ->
  forall rest rows,
    scanCsv (writeCsvCRLF table ++ rest)%string false "" [] rows
    = scanCsv rest false "" [] (rows ++ table).
Proof.
  induction 1 as [|r table Hr _ IH]; intros rest rows; cbn [writeCsvCRLF].
  - now rewrite app_nil_r.
  - rewrite string_app_assoc. cbn [append].
    rewrite scanCsv_row_crlf by apply Hr. cbn [app].
    rewrite (pushRow_kept r rows Hr), IH, <- app_assoc. reflexivity.
Qed.

Lemma csvRows_last_row (text : string) (table : list (list string))
  (cells : list string) :
  (forall rest rows,
      scanCsv (text ++ rest)%string false "" [] rows
      = scanCsv rest false "" [] (rows ++ table)) ->
  rowKept cells ->
  csvRows (text ++ writeRow cells)%string = table ++ [cells].
Proof.
  intros Htext Hkept. unfold csvRows. rewrite Htext. cbn [app].
  rewrite <- (string_app_nil_r (writeRow cells)).
  rewrite scanCsv_cells by (apply Hkept || discriminate).
  cbn [scanCsv app].
  rewrite <- (app_removelast_last "" (proj1 Hkept)).
  now rewrite (pushRow_kept cells table Hkept).
Qed.

(** X3: The line ends of the text do not matter: a table written with a
    carriage return and a line feed after every row is read as the table
    written with line feeds, and the last row is read the same with and
    without a line end. *)
Theorem parseCsv_line_ends (table : list (list string)) (cells : list string) :
  Forall rowKept table ->
  rowKept cells ->
  csvRows (writeCsvCRLF table) = table /\
  csvRows (writeCsv table ++ writeRow cells)%string = table ++ [cells] /\
  csvRows (writeCsvCRLF table ++ writeRow cells)%string = table ++ [cells] /\
  parseCsv (writeCsvCRLF table) = parseCsv (writeCsv table) /\
  parseCsv (writeCsv table ++ writeRow cells)%string
  = parseCsv (writeCsv (table ++ [cells])) /\
  parseCsv (writeCsvCRLF table ++ writeRow cells)%string
  = parseCsv (writeCsv (table ++ [cells])).
Proof.
  intros Htable Hcells.
  assert (H1 : csvRows (writeCsvCRLF table) = table).
  { unfold csvRows. rewrite <- (string_app_nil_r (writeCsvCRLF table)).
    now rewrite (scanCsv_table_crlf table Htable "" []). }
  assert (H2 : csvRows (writeCsv table ++ writeRow cells)%string
               = table ++ [cells]).
  { apply csvRows_last_row; [|assumption].
    intros rest rows. now apply scanCsv_table. }
  assert (H3 : csvRows (writeCsvCRLF table ++ writeRow cells)%string
               = table ++ [cells]).
  { apply csvRows_last_row; [|assumption].
    intros rest rows. now apply scanCsv_table_crlf. }
  assert (H4 : csvRows (writeCsv (table ++ [cells])) = table ++ [cells]).
  { apply csvRows_writeCsv, Forall_app. split; [assumption|].
    now constructor. }
  repeat split; try assumption; unfold parseCsv.
  - now rewrite H1, (csvRows_writeCsv table Htable).
  - now rewrite H2, H4.
  - now rewrite H3, H4.
Qed.

Lemma parseCsv_line_ends_witness :
  csvRows (writeCsvCRLF [["resource"; "node"]; ["Plastids"; "Titan, Saturn"]])
  = [["resource"; "node"]; ["Plastids"; "Titan, Saturn"]] /\
  csvRows (writeCsv [["resource"; "node"]; ["Plastids"; "Titan, Saturn"]]
           ++ writeRow ["Rubedo"; "Earth"])%string
  = [["resource"; "node"]; ["Plastids"; "Titan, Saturn"]]
    ++ [["Rubedo"; "Earth"]] /\
  csvRows (writeCsvCRLF [["resource"; "node"]; ["Plastids"; "Titan, Saturn"]]
           ++ writeRow ["Rubedo"; "Earth"])%string
  = [["resource"; "node"]; ["Plastids"; "Titan, Saturn"]]
    ++ [["Rubedo"; "Earth"]] /\
  parseCsv (writeCsvCRLF [["resource"; "node"]; ["Plastids"; "Titan, Saturn"]])
  = parseCsv (writeCsv [["resource"; "node"]; ["Plastids"; "Titan, Saturn"]]) /\
  parseCsv (writeCsv [["resource"; "node"]; ["Plastids"; "Titan, Saturn"]]
            ++ writeRow ["Rubedo"; "Earth"])%string
  = parseCsv (writeCsv ([["resource"; "node"]; ["Plastids"; "Titan, Saturn"]]
                        ++ [["Rubedo"; "Earth"]])) /\
  parseCsv (writeCsvCRLF [["resource"; "node"]; ["Plastids"; "Titan, Saturn"]]
            ++ writeRow ["Rubedo"; "Earth"])%string
  = parseCsv (writeCsv ([["resource"; "node"]; ["Plastids"; "Titan, Saturn"]]
                        ++ [["Rubedo"; "Earth"]])).
Proof.
  apply (parseCsv_line_ends
           [["resource"; "node"]; ["Plastids"; "Titan, Saturn"]]
           ["Rubedo"; "Earth"]).
  - repeat constructor; discriminate.
  - split; discriminate.
Defined.

Lemma csvRows_blank_line (before after : list (list string))
  (next : list string) :
  Forall rowKept before ->
  rowKept next ->
  Forall rowKept after ->
  csvRows (writeCsv before ++ String lineFeed (writeCsv (next :: after)))%string
  = before ++ ("" :: next) :: after.
Proof.
  intros Hbefore Hnext Hafter. unfold csvRows.
  rewrite (scanCsv_table before Hbefore). cbn [app].
  rewrite scanCsv_lineFeed. cbn [app pushRow trim trimStart trimEnd].
  cbn [String.eqb]. cbn [writeCsv].
  rewrite scanCsv_row by apply Hnext.
  assert (Hpush : pushRow ([""] ++ next) before
                  = ([], before ++ [("" :: next)])).
  { destruct Hnext as [Hne _]. destruct next; [congruence | reflexivity]. }
  rewrite Hpush. rewrite <- (string_app_nil_r (writeCsv after)).
  rewrite (scanCsv_table after Hafter). cbn [scanCsv app pushRow].
  now rewrite <- app_assoc.
Qed.

(** X4: A blank line is not a row, but the reader keeps its empty cell: the
    row after a blank line starts with one more, empty, cell, so every
    cell of its record sits one column to the right. *)
Theorem parseCsv_blank_line_shifts_next_row (first next : list string)
  (before after : list (list string)) :
  rowKept first ->
  Forall rowKept before ->
  rowKept next ->
  Forall rowKept after ->
  csvRows (writeCsv (first :: before)
           ++ String lineFeed (writeCsv (next :: after)))%string
  = first :: before ++ ("" :: next) :: after /\
  parseCsv (writeCsv (first :: before)
            ++ String lineFeed (writeCsv (next :: after)))%string
  = map (fun cells => fillRecord (map trim first) 0 cells [])
        (before ++ ("" :: next) :: after).
Proof.
  intros Hfirst Hbefore Hnext Hafter.
  assert (Hrows : csvRows (writeCsv (first :: before)
                           ++ String lineFeed (writeCsv (next :: after)))%string
                  = first :: before ++ ("" :: next) :: after).
  { rewrite (csvRows_blank_line (first :: before) after next);
      [reflexivity | now constructor | assumption..]. }
  split; [exact Hrows|]. unfold parseCsv. now rewrite Hrows.
Qed.

(** [fillRecord] writes the cell of every column; a later column of the
    same name overwrites an earlier one. *)
Lemma setProperty_get (obj : RawRow) (key value k : string) :
  JsMap.get (setProperty obj key value) k
  = if (key =? k) && negb (key =? "__proto__") then Some value
    else JsMap.get obj k.
Proof.
  unfold setProperty. destruct (key =? "__proto__"); simpl.
  - now rewrite andb_false_r.
  - rewrite JsMap_get_set, andb_true_r. reflexivity.
Qed.

Lemma fillRecord_other (header : list string) (k : string) :
  ~ In k header ->
  forall c cells obj,
    JsMap.get (fillRecord header c cells obj) k = JsMap.get obj k.
Proof.
  induction header as [|h header IH]; intros Hk c cells obj; simpl;
    [reflexivity|].
  rewrite IH by (simpl in Hk; tauto). rewrite setProperty_get.
  destruct (String.eqb_spec h k) as [->|_]; [|reflexivity].
  elim Hk. now left.
Qed.

Lemma fillRecord_column (header : list string) :
  NoDup header ->
  forall (c j : nat) (cells : list string) (obj : RawRow),
    (j < List.length header)%nat ->
    nth j header "" <> "__proto__" ->
    JsMap.get (fillRecord header c cells obj) (nth j header "")
    = Some (nth (c + j) cells "").
Proof.
  induction 1 as [|h header Hh Hnd IH]; intros c j cells obj Hj Hproto;
    simpl in Hj; [lia|].
  destruct j as [|j]; simpl in *.
  - rewrite fillRecord_other by assumption.
    rewrite setProperty_get, String.eqb_refl, Nat.add_0_r.
    destruct (String.eqb_spec h "__proto__"); [contradiction | reflexivity].
  - rewrite (IH (S c) j) by (assumption || lia).
    now rewrite Nat.add_succ_r.
Qed.

Lemma fillRecord_keys (header : list string) :
  forall (c : nat) (cells : list string) (obj : RawRow) (k v : string),
    JsMap.get (fillRecord header c cells obj) k = Some v ->
    In k header \/ JsMap.get obj k = Some v.
Proof.
  induction header as [|h header IH]; intros c cells obj k v Hget; simpl in *;
    [now right|].
  apply IH in Hget as [Hin|Hget]; [tauto|].
  rewrite setProperty_get in Hget.
  destruct (String.eqb_spec h k) as [->|_]; simpl in Hget; [|tauto].
  now left; left.
Qed.

(** X5: A table written the usual way (a cell in quotes, with its quotes
    doubled, when it has a comma, a quote or a line break) is read back as
    it is, cell by cell, as long as no row is a single blank cell;
    [parseCsv] then makes one record per row after the first, under the
    trimmed names of the first row. *)
Theorem parseCsv_reads_written_table (first : list string)
  (body : list (list string)) :
  rowKept first ->
  Forall rowKept body ->
  csvRows (writeCsv (first :: body)) = first :: body /\
  parseCsv (writeCsv (first :: body))
  = map (fun cells => fillRecord (map trim first) 0 cells []) body.
Proof.
  intros Hfirst Hbody.
  assert (Hrows : csvRows (writeCsv (first :: body)) = first :: body)
    by (apply csvRows_writeCsv; now constructor).
  split; [exact Hrows|]. unfold parseCsv. now rewrite Hrows.
Qed.

(** X6: In a record of [parseCsv], the cell of column [j] is found under the
    name of that column, and is empty when the row is too short, provided
    the column names are distinct and the name is not [__proto__]; a record
    has no other names than those of the columns. *)
Theorem parseCsv_record_lookup (text : string) (first : list string)
  (body : list (list string)) (cells : list string) (j : nat) :
  csvRows text = first :: body ->
  In cells body ->
  NoDup (map trim first) ->
  (j < List.length first)%nat ->
  trim (nth j first "") <> "__proto__" ->
  let record := fillRecord (map trim first) 0 cells [] in
  In record (parseCsv text) /\
  JsMap.get record (trim (nth j first "")) = Some (nth j cells "") /\
  (forall k v, JsMap.get record k = Some v -> In k (map trim first)).
Proof.
  intros Hrows Hcells Hnd Hj Hproto record.
  assert (Hname : nth j (map trim first) "" = trim (nth j first "")).
  { change "" with (trim "") at 1. apply map_nth. }
  split; [|split].
  - unfold parseCsv. rewrite Hrows. apply in_map_iff. now exists cells.
  - rewrite <- Hname. subst record.
    rewrite fillRecord_column; rewrite ?length_map, ?Hname; auto.
  - intros k v Hget. apply fillRecord_keys in Hget as [Hin|Hget];
      [assumption | discriminate].
Qed.

Lemma parseCsv_blank_line_shifts_next_row_witness :
  csvRows (writeCsv [["resource"; "node"]]
           ++ String lineFeed (writeCsv [["Plastids"; "Titan"]; ["Rubedo"]]))%string
  = ["resource"; "node"] :: [] ++ [""; "Plastids"; "Titan"] :: [["Rubedo"]] /\
  parseCsv (writeCsv [["resource"; "node"]]
            ++ String lineFeed (writeCsv [["Plastids"; "Titan"]; ["Rubedo"]]))%string
  = map (fun cells => fillRecord (map trim ["resource"; "node"]) 0 cells [])
        ([] ++ [""; "Plastids"; "Titan"] :: [["Rubedo"]]).
Proof.
  apply (parseCsv_blank_line_shifts_next_row
           ["resource"; "node"] ["Plastids"; "Titan"] [] [["Rubedo"]]).
  - split; discriminate.
  - constructor.
  - split; discriminate.
  - repeat constructor; try discriminate. intros cell [= <-]. discriminate.
Defined.

Lemma parseCsv_reads_written_table_witness :
  csvRows (writeCsv [["resource"; "node"]; ["Plastids"; "Titan, Saturn"]])
  = [["resource"; "node"]; ["Plastids"; "Titan, Saturn"]] /\
  parseCsv (writeCsv [["resource"; "node"]; ["Plastids"; "Titan, Saturn"]])
  = map (fun cells => fillRecord (map trim ["resource"; "node"]) 0 cells [])
        [["Plastids"; "Titan, Saturn"]].
Proof.
  apply (parseCsv_reads_written_table
           ["resource"; "node"] [["Plastids"; "Titan, Saturn"]]).
  - split; discriminate.
  - repeat constructor; discriminate.
Defined.

Lemma parseCsv_record_lookup_witness :
  In (fillRecord (map trim ["resource"; " node"]) 0
                 ["Plastids"; "Titan, Saturn"] [])
     (parseCsv sampleCsv) /\
  JsMap.get (fillRecord (map trim ["resource"; " node"]) 0
                        ["Plastids"; "Titan, Saturn"] [])
            (trim (nth 1 ["resource"; " node"] ""))
  = Some (nth 1 ["Plastids"; "Titan, Saturn"] "") /\
  (forall k v,
      JsMap.get (fillRecord (map trim ["resource"; " node"]) 0
                            ["Plastids"; "Titan, Saturn"] []) k = Some v ->
      In k (map trim ["resource"; " node"])).
Proof.
  apply (parseCsv_record_lookup
           sampleCsv ["resource"; " node"]
           [["Plastids"; "Titan, Saturn"]; ["Rubedo"]]
           ["Plastids"; "Titan, Saturn"] 1).
  - reflexivity.
  - now left.
  - repeat constructor; simpl; intuition discriminate.
  - simpl. lia.
  - discriminate.
Defined.

(** ** The catalog that [loadData] builds *)

Lemma forEach_unit_state {A : Type} (f : A -> Prog unit) (l : list A) :
  forall st,
    snd (forEach l tt (fun _ x => f x) st)
    = fold_left (fun st' x => snd (f x st')) l st.
Proof.
  induction l as [|x l IH]; intros st; simpl; [reflexivity|].
  unfold bind. destruct (f x st) as [[] st']. now rewrite IH.
Qed.

Lemma JsMap_has_get {V : Type} (m : JsMap.t V) (k : string) :
  JsMap.has m k = false <-> JsMap.get m k = None.
Proof.
  unfold JsMap.has. destruct (JsMap.get m k); split; congruence.
Qed.

Section CatalogFacts.
Variable numberOrZero : string -> Q.
Variable localeCompare : string -> string -> Q.

(** What indexing one kept row does to the store. *)
Lemma indexMasterRow_indexed (row : RawRow) (st : Store) :
  rowIsIndexed row = true ->
  let st' := snd (indexMasterRow numberOrZero row st) in
  MASTER_ROWS st' = MASTER_ROWS st ++ [masterRowOf numberOrZero row] /\
  NODE_META st'
  = (if JsMap.has (NODE_META st) (norm (nodeOf row)) then NODE_META st
     else JsMap.set (NODE_META st) (norm (nodeOf row))
                    (metaOf numberOrZero row)) /\
  (forall k,
      JsMap.get (EXPLICIT st') k
      = if norm (resourceOf row) =? k
        then Some (JsMap.set
                     (match JsMap.get (EXPLICIT st) (norm (resourceOf row)) with
                      | Some inner => inner
                      | None => []
                      end)
                     (norm (nodeOf row)) (scoreObjOf numberOrZero row))
        else JsMap.get (EXPLICIT st) k) /\
  PLANET_DROPS st' = PLANET_DROPS st /\
  RESOURCES st' = RESOURCES st /\
  SELECTED_KEYS st' = SELECTED_KEYS st.
Proof.
  intros Hkept. unfold rowIsIndexed in Hkept.
  fold (resourceOf row) (nodeOf row) in Hkept.
  unfold indexMasterRow. cbv zeta.
  fold (resourceOf row) (nodeOf row) (planetOf row) (endlessOf row).
  rewrite <- negb_andb, Hkept. cbn [negb].
  unfold bind, modify, gets, ret, JsMap.has. cbn [fst snd]. simpl.
  destruct (JsMap.get (NODE_META st) (norm (nodeOf row))) as [meta|];
    destruct (JsMap.get (EXPLICIT st) (norm (resourceOf row)))
      as [inner|] eqn:Hget; simpl;
    repeat (progress (rewrite ?Hget, ?JsMap_get_set, ?String.eqb_refl; simpl)).
  all: repeat split; try reflexivity.
  all: intros k; rewrite ?JsMap_get_set.
  all: destruct (norm (resourceOf row) =? k); reflexivity.
Qed.


Lemma indexMasterRow_state_skip (row : RawRow) (st : Store) :
  rowIsIndexed row = false -> snd (indexMasterRow numberOrZero row st) = st.
Proof. intros Hskip. now rewrite indexMasterRow_skip. Qed.

Lemma JsMap_set_nonempty {V : Type} (m : JsMap.t V) (k : string) (v : V) :
  JsMap.set m k v <> [].
Proof. destruct m as [|[k' v'] m]; simpl; [|destruct (k' =? k)]; discriminate. Qed.

Lemma find_snoc {A : Type} (f : A -> bool) (l : list A) (x : A) :
  find f (l ++ [x])
  = match find f l with
    | Some y => Some y
    | None => if f x then Some x else None
    end.
Proof.
  induction l as [|y l IH]; simpl; [reflexivity|].
  destruct (f y); [reflexivity | exact IH].
Qed.

(** The store after the loop over the master table, started on empty
    indexes: the rows kept, the metadata of the first row of each node and
    the record of the last row of each (resource, node) pair. *)
Lemma master_loop_facts (master : list RawRow) (st0 : Store) :
  MASTER_ROWS st0 = [] -> NODE_META st0 = [] -> EXPLICIT st0 = [] ->
  let st' :=
    snd (forEach master tt
                 (fun _ row => indexMasterRow numberOrZero row) st0) in
  let rows := filter rowIsIndexed master in
  MASTER_ROWS st' = map (masterRowOf numberOrZero) rows /\
  (forall k,
      JsMap.get (NODE_META st') k
      = option_map (metaOf numberOrZero)
                   (find (fun row => norm (nodeOf row) =? k) rows)) /\
  (forall rKey nKey,
      explicitRecord st' rKey nKey
      = option_map (scoreObjOf numberOrZero)
          (find (fun row => (norm (resourceOf row) =? rKey)
                            && (norm (nodeOf row) =? nKey))
                (rev rows))) /\
  (forall rKey inner,
      JsMap.get (EXPLICIT st') rKey = Some inner -> inner <> []) /\
  PLANET_DROPS st' = PLANET_DROPS st0 /\
  RESOURCES st' = RESOURCES st0 /\
  SELECTED_KEYS st' = SELECTED_KEYS st0.
Proof.
  intros Hrows0 Hmeta0 Hexp0. cbv zeta. rewrite forEach_unit_state.
  induction master as [|row master IH] using rev_ind.
  - simpl. unfold explicitRecord. rewrite Hrows0, Hmeta0, Hexp0.
    repeat split; try reflexivity. intros rKey inner. discriminate.
  - rewrite fold_left_app, filter_app. cbn [fold_left filter].
    set (st := fold_left _ master st0) in *.
    destruct IH as (IHrows & IHmeta & IHexp & IHne & IHp & IHr & IHs).
    destruct (rowIsIndexed row) eqn:Hkept.
    + destruct (indexMasterRow_indexed row st Hkept)
        as (Hrows & Hmeta & Hexp & Hp & Hr & Hs).
      rewrite Hrows, Hmeta, Hp, Hr, Hs.
      split; [|split; [|split; [|split]]]; auto.
      * now rewrite IHrows, map_app.
      * intros k. rewrite find_snoc. pose proof (IHmeta k) as Hk.
        unfold JsMap.has.
        destruct (JsMap.get (NODE_META st) (norm (nodeOf row)))
          as [meta|] eqn:Hget.
        -- rewrite Hk.
           destruct (find (fun row0 => norm (nodeOf row0) =? k)
                          (filter rowIsIndexed master)) eqn:Hfind;
             [reflexivity|].
           destruct (String.eqb_spec (norm (nodeOf row)) k) as [<-|_];
             [simpl in Hk; congruence | reflexivity].
        -- rewrite JsMap_get_set.
           destruct (String.eqb_spec (norm (nodeOf row)) k) as [<-|_].
           ++ rewrite Hget in Hk.
              destruct (find (fun row0 => norm (nodeOf row0)
                                          =? norm (nodeOf row))
                             (filter rowIsIndexed master));
                [discriminate | reflexivity].
           ++ rewrite Hk.
              now destruct (find (fun row0 => norm (nodeOf row0) =? k)
                                 (filter rowIsIndexed master)).
      * intros rKey nKey. rewrite rev_app_distr. cbn [rev app find].
        unfold explicitRecord at 1. rewrite Hexp.
        destruct (String.eqb_spec (norm (resourceOf row)) rKey) as [<-|_];
          cbn [andb]; [|apply IHexp].
        rewrite JsMap_get_set.
        destruct (norm (nodeOf row) =? nKey); [reflexivity|].
        rewrite <- IHexp. unfold explicitRecord.
        now destruct (JsMap.get (EXPLICIT st) (norm (resourceOf row))).
      * intros rKey inner. rewrite Hexp.
        destruct (norm (resourceOf row) =? rKey); [|apply IHne].
        intros [= <-]. apply JsMap_set_nonempty.
    + rewrite (indexMasterRow_state_skip row st Hkept), !app_nil_r.
      repeat split; assumption.
Qed.

End CatalogFacts.

(** *** The planet table *)

Lemma sameButDrops_refl (st : Store) : sameButDrops st st.
Proof. repeat split. Qed.

Lemma sameButDrops_trans (st1 st2 st3 : Store) :
  sameButDrops st1 st2 -> sameButDrops st2 st3 -> sameButDrops st1 st3.
Proof.
  unfold sameButDrops. intros (?&?&?&?&?) (?&?&?&?&?).
  repeat split; congruence.
Qed.

Lemma JsSet_has_add (s : JsSet.t) (x p : string) :
  JsSet.has (JsSet.add s x) p = true <-> JsSet.has s p = true \/ p = x.
Proof. rewrite !JsSet_has_In. apply JsSet_add_In. Qed.

(** One turn of the inner loop of [indexPlanetRow]: [pKey] joins the set
    of [rKey]. *)
Lemma addPlanet_step (rKey pKey : string) (st : Store) :
  let st' :=
    snd ((known <- gets (fun st => JsMap.has (PLANET_DROPS st) rKey) ;;
          (if negb known then
             modify (fun st =>
               set_PLANET_DROPS (JsMap.set (PLANET_DROPS st) rKey []) st)
           else ret tt) ;;;
          modify (fun st =>
            match JsMap.get (PLANET_DROPS st) rKey with
            | Some set =>
                set_PLANET_DROPS
                  (JsMap.set (PLANET_DROPS st) rKey (JsSet.add set pKey)) st
            | None => st
            end)) st) in
  sameButDrops st st' /\
  (forall r p,
      planetListed (PLANET_DROPS st') r p = true <->
      planetListed (PLANET_DROPS st) r p = true \/ (r = rKey /\ p = pKey)).
Proof.
  cbv zeta. unfold bind, modify, gets, ret, JsMap.has. cbn [fst snd].
  destruct (JsMap.get (PLANET_DROPS st) rKey) as [set|] eqn:Hget; simpl;
    repeat (progress (rewrite ?Hget, ?JsMap_get_set, ?String.eqb_refl; simpl)).
  all: split; [repeat split|].
  all: intros r p; unfold planetListed; rewrite !JsMap_get_set.
  all: destruct (String.eqb_spec rKey r) as [<-|Hne].
  - rewrite Hget, JsSet_has_add. intuition.
  - intuition congruence.
  - rewrite Hget, JsSet_has_add. simpl. intuition congruence.
  - intuition congruence.
Qed.

Lemma indexPlanetRow_facts (row : RawRow) (st : Store) :
  let st' := snd (indexPlanetRow row st) in
  sameButDrops st st' /\
  (forall r p,
      planetListed (PLANET_DROPS st') r p = true <->
      planetListed (PLANET_DROPS st) r p = true \/ planetRowLists row r p).
Proof.
  cbv zeta. unfold indexPlanetRow, planetRowLists. cbv zeta.
  fold (planetOf row).
  destruct (truthy (planetOf row)) eqn:Hplanet; cbn [negb].
  - rewrite forEach_unit_state.
    induction (filter truthy
                 (map trim
                    (splitComma (textOf (column row "resources" "Resources")))))
      as [|x l IH] using rev_ind.
    + simpl. split; [apply sameButDrops_refl|]. intros r p. tauto.
    + rewrite fold_left_app. cbn [fold_left].
      destruct IH as [IHsame IHlisted].
      match goal with
      | |- context [fold_left ?f l st] => set (mid := fold_left f l st) in *
      end.
      destruct (addPlanet_step (norm x) (norm (planetOf row)) mid)
        as [Hsame Hlisted].
      split; [exact (sameButDrops_trans _ _ _ IHsame Hsame)|].
      intros r p. rewrite Hlisted, IHlisted, map_app, in_app_iff. simpl.
      intuition (subst; auto).
  - simpl. split; [apply sameButDrops_refl|]. intros r p. intuition discriminate.
Qed.

Lemma planet_loop_facts (planet : list RawRow) (st : Store) :
  let st' := snd (forEach planet tt (fun _ row => indexPlanetRow row) st) in
  sameButDrops st st' /\
  (forall r p,
      planetListed (PLANET_DROPS st') r p = true <->
      planetListed (PLANET_DROPS st) r p = true \/
      exists row, In row planet /\ planetRowLists row r p).
Proof.
  cbv zeta. rewrite forEach_unit_state.
  induction planet as [|row planet IH] using rev_ind.
  - simpl. split; [apply sameButDrops_refl|]. intros r p.
    split; [tauto | intros [H|(row & [] & _)]; exact H].
  - rewrite fold_left_app. cbn [fold_left].
    destruct IH as [IHsame IHlisted].
    match goal with
    | |- context [fold_left ?f planet st] =>
        set (mid := fold_left f planet st) in *
    end.
    destruct (indexPlanetRow_facts row mid) as [Hsame Hlisted].
    split; [exact (sameButDrops_trans _ _ _ IHsame Hsame)|].
    intros r p. rewrite Hlisted, IHlisted. split.
    + intros [[H|(row' & Hin & Hrow)]|Hrow]; [now left | |].
      * right. exists row'. split; [apply in_app_iff; now left | assumption].
      * right. exists row. split; [apply in_app_iff; simpl; tauto | assumption].
    + intros [H|(row' & Hin & Hrow)]; [now left; left|].
      apply in_app_iff in Hin as [Hin|[<-|[]]]; [left; right; eauto | now right].
Qed.

(** *** The resource list *)

Lemma JsMap_get_In {V : Type} (m : JsMap.t V) (k : string) (v : V) :
  JsMap.get m k = Some v -> In (k, v) m.
Proof.
  induction m as [|[k' v'] m IH]; simpl; [discriminate|].
  destruct (String.eqb_spec k' k) as [->|_].
  - intros [= ->]. now left.
  - intros H. right. now apply IH.
Qed.

Lemma JsMap_get_None {V : Type} (m : JsMap.t V) (k : string) :
  JsMap.get m k = None <-> ~ In k (JsMap.keys m).
Proof.
  unfold JsMap.keys. induction m as [|[k' v'] m IH]; simpl; [tauto|].
  destruct (String.eqb_spec k' k) as [->|Hne].
  - split; [discriminate | tauto].
  - rewrite IH. tauto.
Qed.

Lemma JsMap_set_absent {V : Type} (m : JsMap.t V) (k : string) (v : V) :
  JsMap.get m k = None -> JsMap.set m k v = m ++ [(k, v)].
Proof.
  induction m as [|[k' v'] m IH]; simpl; [reflexivity|].
  destruct (k' =? k); [discriminate|]. intros H. now rewrite IH.
Qed.

Lemma insertBy_map_NoDup {A B : Type} (cmp : A -> A -> Q) (f : A -> B)
  (x : A) (l : list A) :
  NoDup (map f (x :: l)) -> NoDup (map f (insertBy cmp x l)).
Proof.
  induction l as [|y l IH]; simpl; [auto|].
  destruct (Qlt_bool (cmp y x) 0); [|auto].
  intros Hnd. inversion Hnd as [|? ? Hx Hnd']; subst.
  inversion Hnd' as [|? ? Hy Hnd'']; subst.
  simpl. constructor.
  - rewrite in_map_iff. intros (z & Hz & Hin).
    apply insertBy_In in Hin as [->|Hin].
    + apply Hx. simpl. now left.
    + apply Hy. rewrite <- Hz. now apply in_map.
  - apply IH. simpl. constructor; [|assumption].
    intros Hin. apply Hx. simpl. now right.
Qed.

Lemma sortBy_map_NoDup {A B : Type} (cmp : A -> A -> Q) (f : A -> B)
  (l : list A) :
  NoDup (map f l) -> NoDup (map f (sortBy cmp l)).
Proof.
  induction l as [|x l IH]; simpl; [auto|].
  intros Hnd. inversion Hnd as [|? ? Hx Hnd']; subst.
  apply insertBy_map_NoDup. simpl. constructor; [|auto].
  rewrite in_map_iff. intros (z & Hz & Hin). apply sortBy_In in Hin.
  apply Hx. rewrite <- Hz. now apply in_map.
Qed.

(** [uniqueResources] keeps one display name per key, a name of that key. *)
Lemma uniqueResources_facts (rows : list MasterRow.t) :
  Forall (fun r => MasterRow.rKey r = norm (MasterRow.resource r)) rows ->
  let u := uniqueResources rows in
  NoDup (JsMap.keys u) /\
  map norm (JsMap.values u) = JsMap.keys u /\
  (forall k, In k (JsMap.keys u) <->
             exists r, In r rows /\ MasterRow.rKey r = k) /\
  (forall v, In v (JsMap.values u) ->
             exists r, In r rows /\ MasterRow.resource r = v).
Proof.
  cbv zeta. unfold uniqueResources.
  induction rows as [|r rows IH] using rev_ind; intros Hkeys.
  - simpl. split; [constructor|]. split; [reflexivity|]. split.
    + intros k. split; [intros [] | intros (r & [] & _)].
    + intros v [].
  - apply Forall_app in Hkeys as [Hrows Hr].
    inversion Hr as [|? ? Hkey _]; subst.
    destruct (IH Hrows) as (IHnd & IHnorm & IHkeys & IHvals). clear IH.
    rewrite fold_left_app. cbn [fold_left].
    match goal with
    | |- context [fold_left ?f rows []] => set (u := fold_left f rows []) in *
    end.
    unfold JsMap.has. destruct (JsMap.get u (MasterRow.rKey r)) eqn:Hget;
      cbn [negb].
    + split; [assumption|]. split; [assumption|]. split.
      * intros k. rewrite IHkeys. split.
        -- intros (r' & Hin & Hk). exists r'. split; [apply in_app_iff; now left | assumption].
        -- intros (r' & Hin & Hk).
           apply in_app_iff in Hin as [Hin|[<-|[]]]; [eauto|].
           apply IHkeys. subst k. apply JsMap_get_In in Hget.
           unfold JsMap.keys. change (MasterRow.rKey r)
             with (fst (MasterRow.rKey r, s)). now apply in_map.
      * intros v Hv. destruct (IHvals v Hv) as (r' & Hin & Hres).
        exists r'. split; [apply in_app_iff; now left | assumption].
    + rewrite (JsMap_set_absent u _ _ Hget).
      unfold JsMap.keys, JsMap.values in *. rewrite !map_app. simpl.
      split; [|split; [|split]].
      * apply JsMap_get_None in Hget. unfold JsMap.keys in Hget.
        clear - IHnd Hget. induction (map fst u) as [|k ks IHk]; simpl.
        -- constructor; [easy | constructor].
        -- inversion IHnd; subst. constructor.
           ++ rewrite in_app_iff. simpl. intros [H|[H|[]]]; [auto|].
              apply Hget. subst. now left.
           ++ apply IHk; [assumption|]. intros H. apply Hget. now right.
      * now rewrite IHnorm, <- Hkey.
      * intros k. rewrite !in_app_iff, IHkeys. simpl. split.
        -- intros [(r' & Hin & Hk)|[<-|[]]]; [exists r' | exists r];
             (split; [rewrite in_app_iff; simpl; tauto | auto]).
        -- intros (r' & Hin & Hk).
           apply in_app_iff in Hin as [Hin|[<-|[]]]; [left; eauto | now right; left].
      * intros v Hv. apply in_app_iff in Hv as [Hv|[<-|[]]].
        -- destruct (IHvals v Hv) as (r' & Hin & Hres).
           exists r'. split; [apply in_app_iff; now left | assumption].
        -- exists r. split; [apply in_app_iff; simpl; tauto | reflexivity].
Qed.

(** *** The whole build *)

Section LoadDataFacts.
Variable numberOrZero : string -> Q.
Variable localeCompare : string -> string -> Q.

Lemma loadData_state (master planet : list RawRow) (st : Store) :
  snd (loadData numberOrZero localeCompare master planet st)
  = let stM :=
      snd (forEach master tt
             (fun _ row => indexMasterRow numberOrZero row)
             (set_EXPLICIT [] (set_NODE_META [] (set_MASTER_ROWS [] st)))) in
    snd (forEach planet tt (fun _ row => indexPlanetRow row)
           (set_PLANET_DROPS []
              (set_RESOURCES
                 (sortBy localeCompare
                    (JsMap.values (uniqueResources (MASTER_ROWS stM))))
                 stM))).
Proof.
  unfold loadData, bind, modify, gets. cbn [fst snd].
  destruct (forEach master tt _ _) as [[] stM]. reflexivity.
Qed.

Lemma loadData_facts (master planet : list RawRow) (st : Store) :
  let st' := snd (loadData numberOrZero localeCompare master planet st) in
  let rows := filter rowIsIndexed master in
  MASTER_ROWS st' = map (masterRowOf numberOrZero) rows /\
  (forall k,
      JsMap.get (NODE_META st') k
      = option_map (metaOf numberOrZero)
                   (find (fun row => norm (nodeOf row) =? k) rows)) /\
  (forall rKey nKey,
      explicitRecord st' rKey nKey
      = option_map (scoreObjOf numberOrZero)
          (find (fun row => (norm (resourceOf row) =? rKey)
                            && (norm (nodeOf row) =? nKey))
                (rev rows))) /\
  (forall rKey inner,
      JsMap.get (EXPLICIT st') rKey = Some inner -> inner <> []) /\
  RESOURCES st'
  = sortBy localeCompare
      (JsMap.values (uniqueResources (map (masterRowOf numberOrZero) rows))) /\
  SELECTED_KEYS st' = SELECTED_KEYS st /\
  (forall r p,
      planetListed (PLANET_DROPS st') r p = true <->
      exists row, In row planet /\ planetRowLists row r p).
Proof.
  cbv zeta. rewrite loadData_state. cbv zeta.
  match goal with
  | |- context [forEach master tt ?f ?s0] =>
      destruct (master_loop_facts numberOrZero master s0 eq_refl eq_refl eq_refl)
        as (Hrows & Hmeta & Hexp & Hne & _ & _ & Hsel);
      set (stM := snd (forEach master tt f s0)) in *
  end.
  match goal with
  | |- context [forEach planet tt ?f ?s0] =>
      destruct (planet_loop_facts planet s0)
        as ((Hrows' & Hres' & Hmeta' & Hsel' & Hexp') & Hlisted);
      set (st' := snd (forEach planet tt f s0)) in *
  end.
  simpl in Hrows', Hres', Hmeta', Hsel', Hexp', Hlisted.
  rewrite Hrows', Hres', Hmeta', Hsel', Hrows.
  split; [reflexivity|]. split; [exact Hmeta|].
  split; [intros rKey nKey; unfold explicitRecord; rewrite Hexp';
          apply (Hexp rKey nKey)|].
  split; [rewrite Hexp'; exact Hne|].
  split; [reflexivity|]. split; [exact Hsel|].
  intros r p. rewrite Hlisted. unfold planetListed. simpl.
  split; [intros [H|H]; [discriminate | exact H] | now right].
Qed.

End LoadDataFacts.

Section CatalogTheorems.
Variable numberOrZero : string -> Q.
Variable localeCompare : string -> string -> Q.

Lemma kept_row_keys (row : RawRow) :
  rowIsIndexed row = true ->
  norm (resourceOf row) <> "" /\ norm (nodeOf row) <> "".
Proof.
  unfold rowIsIndexed. fold (resourceOf row) (nodeOf row).
  intros H. apply andb_true_iff in H as [Hr Hn].
  unfold truthy in Hr, Hn. apply negb_true_iff, String.eqb_neq in Hr, Hn.
  split; intros H; apply norm_empty in H.
  - apply Hr. unfold resourceOf, textOf in *. now rewrite trim_idem in H.
  - apply Hn. unfold nodeOf, textOf in *. now rewrite trim_idem in H.
Qed.

Lemma find_exists {A : Type} (f : A -> bool) (l : list A) (x : A) :
  In x l -> f x = true -> exists y, find f l = Some y.
Proof.
  intros Hin Hf. destruct (find f l) eqn:E; [eauto|].
  now rewrite (find_none f l E x Hin) in Hf.
Qed.

(** A pair with a record comes from a kept row of the master table. *)
Lemma explicitRecord_row (master planet : list RawRow) (st : Store)
  (rKey nKey : string) (s : ScoreObj.t) :
  explicitRecord (snd (loadData numberOrZero localeCompare master planet st))
                 rKey nKey = Some s ->
  exists row,
    In row (filter rowIsIndexed master) /\
    rKey = norm (resourceOf row) /\ nKey = norm (nodeOf row).
Proof.
  destruct (loadData_facts numberOrZero localeCompare master planet st)
    as (_ & _ & Hexp & _).
  rewrite Hexp. intros H.
  destruct (find _ _) as [row|] eqn:Hfind; [|discriminate].
  apply find_some in Hfind as [Hin Hkeys].
  apply andb_true_iff in Hkeys as [Hr Hn].
  apply String.eqb_eq in Hr, Hn. apply in_rev in Hin. eauto.
Qed.

Lemma explicit_inner_row (master planet : list RawRow) (st : Store)
  (rKey : string) (inner : JsMap.t ScoreObj.t) :
  JsMap.get (EXPLICIT (snd (loadData numberOrZero localeCompare master planet st)))
            rKey = Some inner ->
  exists row,
    In row (filter rowIsIndexed master) /\ rKey = norm (resourceOf row).
Proof.
  intros Hget.
  destruct (loadData_facts numberOrZero localeCompare master planet st)
    as (_ & _ & _ & Hne & _).
  pose proof (Hne rKey inner Hget) as Hinner.
  destruct inner as [|[nKey s] inner]; [congruence|].
  destruct (explicitRecord_row master planet st rKey nKey s)
    as (row & Hin & Hr & _); [|eauto].
  unfold explicitRecord. rewrite Hget. simpl. now rewrite String.eqb_refl.
Qed.

(** X7: After [loadData], the metadata of a node is that of the first kept
    row of the node, and the record of a (resource, node) pair is that of
    the last kept row of the pair; [MASTER_ROWS] holds the kept rows in
    order. *)
Theorem loadData_first_meta_last_record (master planet : list RawRow)
  (st : Store) :
  MASTER_ROWS (snd (loadData numberOrZero localeCompare master planet st))
  = map (masterRowOf numberOrZero) (filter rowIsIndexed master) /\
  (forall nKey,
      JsMap.get
        (NODE_META (snd (loadData numberOrZero localeCompare master planet st)))
        nKey
      = option_map (metaOf numberOrZero)
          (find (fun row => norm (nodeOf row) =? nKey)
                (filter rowIsIndexed master))) /\
  (forall rKey nKey,
      fst (getExplicitScore rKey nKey
             (snd (loadData numberOrZero localeCompare master planet st)))
      = option_map (scoreObjOf numberOrZero)
          (find (fun row => (norm (resourceOf row) =? rKey)
                            && (norm (nodeOf row) =? nKey))
                (rev (filter rowIsIndexed master)))).
Proof.
  destruct (loadData_facts numberOrZero localeCompare master planet st)
    as (Hrows & Hmeta & Hexp & _).
  split; [exact Hrows|]. split; [exact Hmeta|].
  intros rKey nKey. rewrite getExplicitScore_run. exact (Hexp rKey nKey).
Qed.

(** A node with a record comes with metadata, under a key that is a
    non-empty normal form. *)
Lemma loadData_record_meta (master planet : list RawRow) (st : Store)
  (rKey nKey : string) (s : ScoreObj.t) :
  explicitRecord (snd (loadData numberOrZero localeCompare master planet st))
                 rKey nKey = Some s ->
  norm nKey = nKey /\ nKey <> "" /\
  exists meta,
    JsMap.get
      (NODE_META (snd (loadData numberOrZero localeCompare master planet st)))
      nKey = Some meta.
Proof.
  intros Hs.
  destruct (loadData_facts numberOrZero localeCompare master planet st)
    as (_ & Hmeta & _).
  destruct (explicitRecord_row master planet st rKey nKey s Hs)
    as (row & Hin & _ & ->).
  pose proof Hin as Hin'. apply filter_In in Hin' as [_ Hkept].
  split; [apply norm_idem|]. split; [apply (kept_row_keys row Hkept)|].
  rewrite Hmeta.
  destruct (find_exists (fun row0 => norm (nodeOf row0) =? norm (nodeOf row))
                        _ row Hin (String.eqb_refl _)) as (row' & ->).
  simpl. eauto.
Qed.

(** A kept row leaves a non-empty map of records under the key of its
    resource. *)
Lemma loadData_row_records (master planet : list RawRow) (st : Store)
  (row : RawRow) :
  In row (filter rowIsIndexed master) ->
  exists inner,
    JsMap.get
      (EXPLICIT (snd (loadData numberOrZero localeCompare master planet st)))
      (norm (resourceOf row)) = Some inner /\
    inner <> [].
Proof.
  intros Hrow.
  destruct (loadData_facts numberOrZero localeCompare master planet st)
    as (_ & _ & Hexp & Hne & _).
  pose proof (Hexp (norm (resourceOf row)) (norm (nodeOf row))) as Hrec.
  destruct (find_exists
              (fun row0 => (norm (resourceOf row0) =? norm (resourceOf row))
                           && (norm (nodeOf row0) =? norm (nodeOf row)))
              (rev (filter rowIsIndexed master)) row) as (row' & Hfind).
  { now apply in_rev in Hrow. }
  { now rewrite !String.eqb_refl. }
  rewrite Hfind in Hrec. unfold explicitRecord in Hrec.
  destruct (JsMap.get _ (norm (resourceOf row))) as [inner|] eqn:Hget;
    [|discriminate].
  exists inner. split; [reflexivity | apply (Hne _ _ Hget)].
Qed.

(** The resource list has one name per resource key: the names of kept
    rows, and one for the key of every kept row. *)
Lemma loadData_resource_rows (master planet : list RawRow) (st : Store) :
  NoDup (map norm
           (RESOURCES (snd (loadData numberOrZero localeCompare master planet st)))) /\
  (forall r,
      In r (RESOURCES (snd (loadData numberOrZero localeCompare master planet st))) ->
      exists row, In row (filter rowIsIndexed master) /\ r = resourceOf row) /\
  (forall row,
      In row (filter rowIsIndexed master) ->
      exists r,
        In r (RESOURCES (snd (loadData numberOrZero localeCompare master planet st))) /\
        norm r = norm (resourceOf row)).
Proof.
  destruct (loadData_facts numberOrZero localeCompare master planet st)
    as (_ & _ & _ & _ & Hres & _).
  set (rows := filter rowIsIndexed master) in *.
  assert (Hkeys : Forall (fun r => MasterRow.rKey r = norm (MasterRow.resource r))
                         (map (masterRowOf numberOrZero) rows)).
  { apply Forall_forall. intros mr Hmr.
    apply in_map_iff in Hmr as (row & <- & _). reflexivity. }
  destruct (uniqueResources_facts _ Hkeys) as (Hnd & Hnorm & Hin & Hvals).
  rewrite Hres. split; [|split].
  - apply sortBy_map_NoDup. now rewrite Hnorm.
  - intros r Hr. apply sortBy_In in Hr.
    destruct (Hvals r Hr) as (mr & Hmr & <-).
    apply in_map_iff in Hmr as (row & <- & Hrow). now exists row.
  - intros row Hrow.
    assert (Hk : In (norm (resourceOf row))
                    (JsMap.keys (uniqueResources
                                   (map (masterRowOf numberOrZero) rows)))).
    { apply Hin. exists (masterRowOf numberOrZero row).
      split; [now apply in_map | reflexivity]. }
    rewrite <- Hnorm in Hk. apply in_map_iff in Hk as (r & Hr & Hv).
    exists r. split; [now apply sortBy_In | assumption].
Qed.

(** X8: After [loadData] the indexes are consistent: no resource has an
    empty map of records, every key is a non-empty normal form, and every
    node with a record has metadata. *)
Theorem loadData_indexes_consistent (master planet : list RawRow)
  (st : Store) :
  (forall rKey inner,
      JsMap.get
        (EXPLICIT (snd (loadData numberOrZero localeCompare master planet st)))
        rKey = Some inner ->
      inner <> [] /\ norm rKey = rKey /\ rKey <> "") /\
  (forall rKey nKey s,
      fst (getExplicitScore rKey nKey
             (snd (loadData numberOrZero localeCompare master planet st)))
      = Some s ->
      norm nKey = nKey /\ nKey <> "" /\
      exists meta,
        JsMap.get
          (NODE_META (snd (loadData numberOrZero localeCompare master planet st)))
          nKey = Some meta).
Proof.
  split.
  - intros rKey inner Hget.
    destruct (explicit_inner_row master planet st rKey inner Hget)
      as (row & Hin & ->).
    destruct (loadData_row_records master planet st row Hin)
      as (inner' & Hget' & Hne).
    rewrite Hget in Hget'. injection Hget' as <-.
    apply filter_In in Hin as [_ Hkept].
    split; [exact Hne|].
    split; [apply norm_idem | apply (kept_row_keys row Hkept)].
  - intros rKey nKey s Hs. rewrite getExplicitScore_run in Hs.
    apply (loadData_record_meta master planet st rKey nKey s Hs).
Qed.

(** X9: After [loadData], the resource list has one name per resource key,
    each a trimmed, non-empty name of a resource with records, and every
    resource with records is in the list. *)
Theorem loadData_resource_list (master planet : list RawRow) (st : Store) :
  NoDup (map norm
           (RESOURCES (snd (loadData numberOrZero localeCompare master planet st)))) /\
  (forall r,
      In r (RESOURCES (snd (loadData numberOrZero localeCompare master planet st))) ->
      ~ noRecords (snd (loadData numberOrZero localeCompare master planet st)) r /\
      trim r = r /\ r <> "") /\
  (forall rKey inner,
      JsMap.get
        (EXPLICIT (snd (loadData numberOrZero localeCompare master planet st)))
        rKey = Some inner ->
      exists r,
        In r (RESOURCES (snd (loadData numberOrZero localeCompare master planet st))) /\
        norm r = rKey).
Proof.
  destruct (loadData_resource_rows master planet st) as (Hnd & Hrows & Hall).
  split; [exact Hnd|]. split.
  - intros r Hr. destruct (Hrows r Hr) as (row & Hrow & ->).
    destruct (loadData_row_records master planet st row Hrow)
      as (inner & Hget & Hne).
    apply filter_In in Hrow as [_ Hkept].
    split; [|split].
    + unfold noRecords. rewrite Hget. unfold JsMap.size.
      intros Hsize. now apply Hne, length_zero_iff_nil.
    + unfold resourceOf, textOf. apply trim_idem.
    + unfold rowIsIndexed in Hkept. apply andb_true_iff in Hkept as [Hr' _].
      unfold truthy in Hr'. now apply negb_true_iff, String.eqb_neq in Hr'.
  - intros rKey inner Hget.
    destruct (explicit_inner_row master planet st rKey inner Hget)
      as (row & Hrow & ->).
    apply (Hall row Hrow).
Qed.

(** X10: After [loadData], the planet fallback answers yes exactly for the
    (resource, planet) pairs that some row of the planet table lists. *)
Theorem loadData_planet_fallback (master planet : list RawRow) (st : Store)
  (rKey pKey : string) :
  fst (planetHasResourceFallback rKey pKey
         (snd (loadData numberOrZero localeCompare master planet st))) = true
  <-> exists row, In row planet /\ planetRowLists row rKey pKey.
Proof.
  destruct (loadData_facts numberOrZero localeCompare master planet st)
    as (_ & _ & _ & _ & _ & _ & Hlisted).
  rewrite planetHasResourceFallback_run. apply Hlisted.
Qed.

End CatalogTheorems.

(** *** Reloading *)

Section Reload.
Variable numberOrZero : string -> Q.
Variable localeCompare : string -> string -> Q.

Lemma indexMasterRow_frame (row : RawRow) (st : Store)
  (drops : JsMap.t JsSet.t) (resources : list string) :
  snd (indexMasterRow numberOrZero row
         (set_PLANET_DROPS drops (set_RESOURCES resources st)))
  = set_PLANET_DROPS drops
      (set_RESOURCES resources (snd (indexMasterRow numberOrZero row st))).
Proof.
  destruct (rowIsIndexed row) eqn:Hkept.
  - unfold rowIsIndexed in Hkept.
    fold (resourceOf row) (nodeOf row) in Hkept.
    unfold indexMasterRow. cbv zeta.
    fold (resourceOf row) (nodeOf row) (planetOf row) (endlessOf row).
    rewrite <- negb_andb, Hkept. cbn [negb].
    unfold bind, modify, gets, ret, JsMap.has. cbn [fst snd]. simpl.
    destruct (JsMap.get (NODE_META st) (norm (nodeOf row))) as [meta|];
      destruct (JsMap.get (EXPLICIT st) (norm (resourceOf row)))
        as [inner|] eqn:Hget; simpl;
      repeat (progress (rewrite ?Hget, ?JsMap_get_set, ?String.eqb_refl; simpl));
      reflexivity.
  - now rewrite !indexMasterRow_state_skip.
Qed.

Lemma master_loop_frame (master : list RawRow) (drops : JsMap.t JsSet.t)
  (resources : list string) :
  forall st,
    snd (forEach master tt (fun _ row => indexMasterRow numberOrZero row)
           (set_PLANET_DROPS drops (set_RESOURCES resources st)))
    = set_PLANET_DROPS drops
        (set_RESOURCES resources
           (snd (forEach master tt
                   (fun _ row => indexMasterRow numberOrZero row) st))).
Proof.
  intros st. rewrite !forEach_unit_state. revert st.
  induction master as [|row master IH]; intros st; simpl; [reflexivity|].
  now rewrite indexMasterRow_frame, IH.
Qed.

(** X11: [loadData] builds the catalog from its two tables alone: whatever the
    store held before, the result is the one built from an empty store
    with the same selection, and the selection is kept. *)
Theorem loadData_rebuilds (master planet : list RawRow) (st : Store) :
  loadData numberOrZero localeCompare master planet st
  = loadData numberOrZero localeCompare master planet
             (mkStore [] [] [] [] (SELECTED_KEYS st) []) /\
  SELECTED_KEYS (snd (loadData numberOrZero localeCompare master planet st))
  = SELECTED_KEYS st.
Proof.
  split.
  - assert (H : snd (loadData numberOrZero localeCompare master planet st)
                = snd (loadData numberOrZero localeCompare master planet
                         (mkStore [] [] [] [] (SELECTED_KEYS st) []))).
    { rewrite !loadData_state. cbv zeta.
      replace (set_EXPLICIT [] (set_NODE_META [] (set_MASTER_ROWS [] st)))
        with (set_PLANET_DROPS (PLANET_DROPS st)
                (set_RESOURCES (RESOURCES st)
                   (set_EXPLICIT []
                      (set_NODE_META []
                         (set_MASTER_ROWS []
                            (mkStore [] [] [] [] (SELECTED_KEYS st) []))))))
        by reflexivity.
      rewrite master_loop_frame. reflexivity. }
    destruct (loadData _ _ _ _ st) as [[] s1],
             (loadData _ _ _ _ (mkStore _ _ _ _ _ _)) as [[] s2].
    simpl in H. now rewrite H.
  - destruct (loadData_facts numberOrZero localeCompare master planet st)
      as (_ & _ & _ & _ & _ & Hsel & _).
    exact Hsel.
Qed.

End Reload.

(** ** The stops planner, turn by turn *)

Lemma forEach_pure {A B : Type} (body : B -> A -> Prog B) (g : B -> A -> B)
  (st : Store) (l : list A) :
  (forall acc x, In x l -> body acc x st = (g acc x, st)) ->
  forall acc, forEach l acc body st = (fold_left g l acc, st).
Proof.
  induction l as [|x l IH]; intros Hbody acc; simpl; [reflexivity|].
  unfold bind. rewrite Hbody by (now left).
  apply IH. intros acc' y Hy. apply Hbody. now right.
Qed.

Lemma filterM_pure {A : Type} (p : A -> Prog bool) (q : A -> bool)
  (st : Store) (l : list A) :
  (forall x, p x st = (q x, st)) -> filterM p l st = (filter q l, st).
Proof.
  intros Hp. induction l as [|x l IH]; simpl; [reflexivity|].
  unfold bind. rewrite Hp, IH. unfold ret. now destruct (q x).
Qed.

Lemma coverResource_run (st : Store) (runMode : string)
  (rDisplay : JsMap.t string) (nKey : string) (meta : NodeMeta.t)
  (acc : Q * list Covered.t) (rKey : string) :
  coverResource runMode rDisplay nKey meta acc rKey st
  = (coverStep st runMode rDisplay nKey meta acc rKey, st).
Proof.
  destruct acc as [total covered].
  unfold coverResource, coverStep, coverScore, fallbackScore, bind.
  rewrite getExplicitScore_run. fold (explicitRecord st rKey nKey).
  destruct (explicitRecord st rKey nKey) as [explicit|].
  - now destruct (Qlt_bool 0 (computeEffScore explicit runMode meta)).
  - rewrite planetHasResourceFallback_run.
    fold (planetListed (PLANET_DROPS st) rKey (NodeMeta.planetKey meta)).
    now destruct (planetListed (PLANET_DROPS st) rKey (NodeMeta.planetKey meta)).
Qed.

Lemma scoreCandidate_run (st : Store) (runMode : string)
  (rDisplay : JsMap.t string) (remaining : JsSet.t)
  (scored : list StopOption.t) (nKey : string) :
  scoreCandidate runMode rDisplay remaining scored nKey st
  = (candidateStep st runMode rDisplay remaining scored nKey, st).
Proof.
  unfold scoreCandidate, candidateStep, bind, gets. cbn [fst snd].
  destruct (JsMap.get (NODE_META st) nKey) as [meta|]; [|reflexivity].
  rewrite (forEach_pure _ (coverStep st runMode rDisplay nKey meta))
    by (intros; apply coverResource_run).
  fold (coverageOf st runMode rDisplay nKey meta remaining).
  destruct (coverageOf st runMode rDisplay nKey meta remaining)
    as [total covered].
  cbn [fst snd]. now destruct (List.length covered =? 0)%nat.
Qed.

Lemma stepScored_run (st : Store) (runMode : string)
  (rDisplay : JsMap.t string) (candidates : list string)
  (remaining : JsSet.t) :
  forEach candidates [] (scoreCandidate runMode rDisplay remaining) st
  = (stepScored st runMode rDisplay candidates remaining, st).
Proof.
  apply forEach_pure. intros. apply scoreCandidate_run.
Qed.

Lemma candidatePool_run (st : Store) (runMode : string) (keys : JsSet.t) :
  bind (forEach keys [] collectNodes) (filterM (candidateOk runMode)) st
  = (candidatePool st runMode keys, st).
Proof.
  unfold bind.
  rewrite (forEach_pure _
             (fun candidateNodes rKey =>
                match JsMap.get (EXPLICIT st) rKey with
                | Some inner =>
                    fold_left JsSet.add (JsMap.keys inner) candidateNodes
                | None => candidateNodes
                end)).
  - apply filterM_pure. intros nKey. unfold candidateOk, bind, gets.
    cbn [fst snd]. now destruct (JsMap.get (NODE_META st) nKey).
  - intros acc rKey _. unfold collectNodes, bind, gets. cbn [fst snd].
    now destruct (JsMap.get (EXPLICIT st) rKey).
Qed.

(** The loop follows the turns of [stopsTrace], and it stops for one of
    three reasons: nothing remains, the route is full, or no candidate is
    kept for what remains. *)
Lemma stopsLoop_trace (st : Store) (runMode : string)
  (rDisplay : JsMap.t string) (candidates : list string) :
  forall (turns : nat) (remaining : JsSet.t) (route : list Step.t),
    (maxStops <= turns + List.length route)%nat ->
    (List.length route <= maxStops)%nat ->
    exists steps final,
      stopsLoop turns runMode rDisplay candidates remaining route st
      = (Some (route ++ steps, final), st) /\
      stopsTrace st runMode rDisplay candidates remaining steps final /\
      (List.length (route ++ steps) <= maxStops)%nat /\
      (final = [] \/ List.length (route ++ steps) = maxStops \/
       stepTop st runMode rDisplay candidates final = []).
Proof.
  induction turns as [|turns IH]; intros remaining route Hfuel Hlen;
    rewrite stopsLoop_unfold;
    destruct (negb ((0 <? JsSet.size remaining)
                    && (List.length route <? maxStops))%nat) eqn:Hcond.
  1, 3: exists [], remaining; rewrite app_nil_r;
        split; [reflexivity|]; split; [constructor|]; split; [assumption|];
        apply negb_true_iff, andb_false_iff in Hcond as [Hz|Hfull];
        [ left; apply Nat.ltb_ge in Hz; unfold JsSet.size in Hz;
          destruct remaining; [reflexivity | simpl in Hz; lia]
        | right; left; apply Nat.ltb_ge in Hfull; lia ].
  - apply negb_false_iff, andb_true_iff in Hcond as [_ Hlt].
    apply Nat.ltb_lt in Hlt. lia.
  - apply negb_false_iff, andb_true_iff in Hcond as [Hnz Hlt].
    apply Nat.ltb_lt in Hnz, Hlt.
    unfold bind. rewrite stepScored_run.
    fold (stepTop st runMode rDisplay candidates remaining).
    destruct (stepTop st runMode rDisplay candidates remaining)
      as [|best others] eqn:Htop.
    + exists [], remaining. rewrite app_nil_r.
      split; [reflexivity|]. split; [constructor|]. split; [assumption|].
      now right; right.
    + rewrite copy_options.
      destruct (IH (removeCovered remaining (StopOption.covered best))
                   (route ++ [Step.mk (best :: others)]))
        as (steps & final & Hrun & Htrace & Hlen' & Hstop).
      * rewrite length_app. simpl. lia.
      * rewrite length_app. simpl. lia.
      * exists (Step.mk (best :: others) :: steps), final.
        rewrite <- app_assoc in Hrun, Hlen', Hstop. simpl in Hrun, Hlen', Hstop.
        split; [exact Hrun|]. split; [|split; assumption].
        constructor; [|assumption|assumption].
        intros ->. unfold JsSet.size in Hnz. simpl in Hnz. lia.
Qed.

(** *** Scores *)

Lemma quickMissionMultiplier_range (missionType : string) (isEndless : bool) :
  0.85 <= quickMissionMultiplier missionType isEndless /\
  quickMissionMultiplier missionType isEndless <= 1.40.
Proof.
  rewrite quickMissionMultiplier_branch.
  pose proof (mobile_defense_unreachable missionType) as Hdead.
  destruct (quickMissionBranch missionType); try (now elim Hdead);
    try destruct isEndless; split; unfold branchValue, Qle; simpl; lia.
Qed.

Lemma quickMultiplier_range (s : Q) :
  0.6 <= quickMultiplier s /\ quickMultiplier s <= 1.
Proof.
  pose proof (quickMultiplier_clamp s) as Hs. rewrite fifth in Hs.
  pose proof (clamp_bounds s). split; lra.
Qed.

Lemma bias_range (s : Q) (missionType : string) (isEndless : bool) :
  0.51 <= quickMultiplier s * quickMissionMultiplier missionType isEndless /\
  quickMultiplier s * quickMissionMultiplier missionType isEndless <= 1.40.
Proof.
  pose proof (quickMultiplier_range s) as [Hq1 Hq2].
  pose proof (quickMissionMultiplier_range missionType isEndless) as [Hm1 Hm2].
  split; nra.
Qed.

(** X12: The mission-type multiplier always lies between 0.85 and 1.40 (the
    0.82 of the unreachable rule is never returned), and with the speed
    multiplier the whole quick-run bias lies between 0.51 and 1.40. *)
Theorem quick_bias_range (speedScore : Q) (missionType : string)
  (isEndless : bool) :
  (0.85 <= quickMissionMultiplier missionType isEndless /\
   quickMissionMultiplier missionType isEndless <= 1.40) /\
  (0.51 <= quickMultiplier speedScore
           * quickMissionMultiplier missionType isEndless /\
   quickMultiplier speedScore * quickMissionMultiplier missionType isEndless
   <= 1.40).
Proof.
  split; [apply quickMissionMultiplier_range | apply bias_range].
Qed.

Lemma computeEffScore_cases (scoreObj : ScoreObj.t) (runMode : string)
  (meta : NodeMeta.t) :
  computeEffScore scoreObj runMode meta = ScoreObj.dropScore scoreObj \/
  exists bias,
    0.51 <= bias /\ bias <= 1.40 /\
    computeEffScore scoreObj runMode meta == ScoreObj.dropScore scoreObj * bias.
Proof.
  unfold computeEffScore. cbv zeta. destruct (runMode =? "quick"); [|now left].
  right.
  exists (quickMultiplier (ScoreObj.speedScore scoreObj)
          * quickMissionMultiplier (orElse (NodeMeta.missionType meta) "")
                                   (NodeMeta.isEndless meta)).
  destruct (bias_range (ScoreObj.speedScore scoreObj)
              (orElse (NodeMeta.missionType meta) "")
              (NodeMeta.isEndless meta)) as [H1 H2].
  repeat split; try assumption. ring.
Qed.


Lemma fallbackScore_positive (runMode : string) (meta : NodeMeta.t) :
  0 < fallbackScore runMode meta.
Proof.
  unfold fallbackScore, FALLBACK_SCORE. destruct (runMode =? "quick"); [|lra].
  destruct (bias_range (NodeMeta.speedScore meta)
              (orElse (NodeMeta.missionType meta) "")
              (NodeMeta.isEndless meta)) as [H1 _].
  nra.
Qed.

Lemma coverScore_positive (st : Store) (runMode nKey : string)
  (meta : NodeMeta.t) (rKey via : string) (score : Q) :
  coverScore st runMode nKey meta rKey = Some (via, score) -> 0 < score.
Proof.
  unfold coverScore.
  destruct (explicitRecord st rKey nKey) as [explicit|].
  - destruct (Qlt_bool 0 (computeEffScore explicit runMode meta)) eqn:Hpos;
      [|discriminate].
    intros [= _ <-]. now apply Qlt_bool_iff.
  - destruct (planetListed _ _ _); [|discriminate].
    intros [= _ <-]. apply fallbackScore_positive.
Qed.

(** *** One turn *)

Lemma coverStep_fold (st : Store) (runMode : string)
  (rDisplay : JsMap.t string) (nKey : string) (meta : NodeMeta.t)
  (remaining : list string) :
  forall acc,
    fold_left (coverStep st runMode rDisplay nKey meta) remaining acc
    = (fold_left (fun total c => total + Covered.score c)
                 (flat_map (entryOf st runMode rDisplay nKey meta) remaining)
                 (fst acc),
       snd acc ++ flat_map (entryOf st runMode rDisplay nKey meta) remaining).
Proof.
  induction remaining as [|rKey remaining IH]; intros [total covered]; simpl.
  - now rewrite app_nil_r.
  - rewrite IH. unfold coverStep, entryOf.
    destruct (coverScore st runMode nKey meta rKey) as [[via score]|]; simpl.
    + now rewrite <- app_assoc.
    + reflexivity.
Qed.

Lemma coverageOf_entries (st : Store) (runMode : string)
  (rDisplay : JsMap.t string) (nKey : string) (meta : NodeMeta.t)
  (remaining : JsSet.t) :
  coverageOf st runMode rDisplay nKey meta remaining
  = (coveredTotal (flat_map (entryOf st runMode rDisplay nKey meta) remaining),
     flat_map (entryOf st runMode rDisplay nKey meta) remaining).
Proof. unfold coverageOf. now rewrite coverStep_fold. Qed.

Lemma entryOf_In (st : Store) (runMode : string) (rDisplay : JsMap.t string)
  (nKey : string) (meta : NodeMeta.t) (remaining : list string)
  (c : Covered.t) :
  In c (flat_map (entryOf st runMode rDisplay nKey meta) remaining) <->
  exists rKey,
    In rKey remaining /\
    coverScore st runMode nKey meta rKey
    = Some (Covered.via c, Covered.score c) /\
    Covered.resource c = displayOf rDisplay rKey.
Proof.
  rewrite in_flat_map. unfold entryOf. split.
  - intros (rKey & Hin & Hc). exists rKey. split; [assumption|].
    destruct (coverScore st runMode nKey meta rKey) as [[via score]|];
      [|contradiction].
    destruct Hc as [<-|[]]. now split.
  - intros (rKey & Hin & Hscore & Hname). exists rKey. split; [assumption|].
    rewrite Hscore. left. destruct c. simpl in *. now subst.
Qed.

Lemma coveredTotal_grows (covered : list Covered.t) :
  Forall (fun c => 0 < Covered.score c) covered ->
  forall total,
    total <= fold_left (fun t c => t + Covered.score c) covered total /\
    (covered <> [] ->
     total < fold_left (fun t c => t + Covered.score c) covered total).
Proof.
  induction 1 as [|c covered Hc _ IH]; intros total; simpl.
  - split; [lra | congruence].
  - destruct (IH (total + Covered.score c)) as [Hle _]. split; [lra|].
    intros _. lra.
Qed.

(** The scored candidates of a turn: one option for every candidate node
    that the catalog knows and that covers at least one remaining key. *)
Lemma stepScored_In (st : Store) (runMode : string)
  (rDisplay : JsMap.t string) (candidates : list string)
  (remaining : JsSet.t) (o : StopOption.t) :
  In o (stepScored st runMode rDisplay candidates remaining) <->
  exists meta,
    In (StopOption.nodeKey o) candidates /\
    JsMap.get (NODE_META st) (StopOption.nodeKey o) = Some meta /\
    StopOption.meta o = meta /\
    StopOption.covered o
    = flat_map (entryOf st runMode rDisplay (StopOption.nodeKey o) meta)
               remaining /\
    StopOption.covered o <> [] /\
    StopOption.score o = coveredTotal (StopOption.covered o).
Proof.
  unfold stepScored.
  assert (G : forall acc,
             In o (fold_left (candidateStep st runMode rDisplay remaining)
                             candidates acc) <->
             In o acc \/
             exists meta,
               In (StopOption.nodeKey o) candidates /\
               JsMap.get (NODE_META st) (StopOption.nodeKey o) = Some meta /\
               StopOption.meta o = meta /\
               StopOption.covered o
               = flat_map (entryOf st runMode rDisplay (StopOption.nodeKey o) meta)
                          remaining /\
               StopOption.covered o <> [] /\
               StopOption.score o = coveredTotal (StopOption.covered o)).
  { induction candidates as [|nKey candidates IH]; intros acc; simpl.
    - split; [tauto | intros [H|(meta & [] & _)]; exact H].
    - rewrite IH. unfold candidateStep.
      destruct (JsMap.get (NODE_META st) nKey) as [meta|] eqn:Hmeta.
      + rewrite coverageOf_entries. cbn [fst snd].
        destruct (flat_map (entryOf st runMode rDisplay nKey meta) remaining)
          as [|c cs] eqn:Hentries; cbn [List.length Nat.eqb].
        * split.
          -- intros [H|(m & Hin & Hrest)]; [now left | right].
             exists m. split; [now right | exact Hrest].
          -- intros [H|(m & [<-|Hin] & Hm & Hmo & Hcov & Hne & Hsc)];
               [now left | | right; exists m; tauto].
             rewrite Hmeta in Hm. injection Hm as <-.
             rewrite Hentries in Hcov. congruence.
        * rewrite in_app_iff. simpl. split.
          -- intros [[H|[<-|[]]]|(m & Hin & Hrest)]; [now left | | ].
             ++ right. exists meta. simpl. rewrite Hentries.
                repeat split; auto. discriminate.
             ++ right. exists m. split; [now right | exact Hrest].
          -- intros [H|(m & [Heq|Hin] & Hm & Hmo & Hcov & Hne & Hsc)];
               [now left; left | | right; exists m; tauto].
             left. right. left.
             rewrite <- Heq, Hmeta in Hm. injection Hm as <-.
             rewrite <- Heq, Hentries in Hcov.
             destruct o; simpl in *. now subst.
      + split.
        * intros [H|(m & Hin & Hrest)]; [now left | right].
          exists m. split; [now right | exact Hrest].
        * intros [H|(m & [<-|Hin] & Hm & Hrest)];
            [now left | congruence | right; exists m; tauto]. }
  rewrite G. simpl. tauto.
Qed.

Lemma stepScored_positive (st : Store) (runMode : string)
  (rDisplay : JsMap.t string) (candidates : list string)
  (remaining : JsSet.t) (o : StopOption.t) :
  In o (stepScored st runMode rDisplay candidates remaining) ->
  Forall (fun c => 0 < Covered.score c) (StopOption.covered o) /\
  0 < StopOption.score o.
Proof.
  intros Ho. apply stepScored_In in Ho
    as (meta & _ & _ & _ & Hcov & Hne & Hscore).
  assert (Hall : Forall (fun c => 0 < Covered.score c) (StopOption.covered o)).
  { apply Forall_forall. intros c Hc. rewrite Hcov in Hc.
    apply entryOf_In in Hc as (rKey & _ & Hs & _).
    now apply coverScore_positive in Hs. }
  split; [assumption|]. rewrite Hscore.
  now apply (coveredTotal_grows _ Hall 0).
Qed.

(** The options a turn keeps: the best scored candidate first, then at
    most two more within 90% of it, in descending order of score. *)
Lemma stepTop_facts (st : Store) (runMode : string)
  (rDisplay : JsMap.t string) (candidates : list string)
  (remaining : JsSet.t) :
  let top := stepTop st runMode rDisplay candidates remaining in
  let scored := stepScored st runMode rDisplay candidates remaining in
  (forall o, In o top -> In o scored) /\
  (List.length top <= 3)%nat /\
  Sorted scoreGe top /\
  (top = [] <-> scored = []) /\
  (forall best others,
      top = best :: others ->
      (forall o, In o scored -> StopOption.score o <= StopOption.score best) /\
      (forall o, In o top -> 0.9 * StopOption.score best <= StopOption.score o)).
Proof.
  cbv zeta. unfold stepTop.
  set (scored := stepScored st runMode rDisplay candidates remaining).
  pose proof (sortBy_Sorted scored) as Hsorted.
  assert (Hin : forall o, In o (sortBy byScoreDesc scored) <-> In o scored)
    by (intros o; apply sortBy_In).
  assert (Hpos : forall o, In o scored -> 0 < StopOption.score o)
    by (intros o Ho; now apply (stepScored_positive _ _ _ _ _ _ Ho)).
  split; [|split; [|split; [|split]]].
  - intros o Ho. apply Hin. now apply pickTopOptions_In in Ho.
  - apply pickTopOptions_length.
  - now apply pickTopOptions_Sorted.
  - destruct (sortBy byScoreDesc scored) as [|first rest] eqn:Hs.
    + simpl. split; [intros _|reflexivity].
      destruct scored as [|o scored']; [reflexivity|].
      assert (Ho : In o (o :: scored')) by now left.
      apply Hin in Ho. contradiction.
    + assert (Hfirst : In first scored) by (apply Hin; now left).
      pose proof (pickTopOptions_nonempty (first :: rest) 3 first) as Hhead.
      split; intros Hnil.
      * rewrite Hnil in Hhead. simpl in Hhead.
        assert (H0 : 0 <= scoreOf first)
          by (apply Qlt_le_weak; apply (Hpos first Hfirst)).
        specialize (Hhead ltac:(lia) eq_refl H0). discriminate.
      * rewrite Hnil in Hfirst. contradiction.
  - intros best others Htop.
    destruct (sortBy byScoreDesc scored) as [|first rest] eqn:Hs;
      [discriminate|].
    assert (Hfirst : In first scored) by (apply Hin; now left).
    assert (H0 : 0 <= scoreOf first)
      by (apply Qlt_le_weak; apply (Hpos first Hfirst)).
    pose proof (pickTopOptions_nonempty (first :: rest) 3 first
                  ltac:(lia) eq_refl H0) as Hhead.
    rewrite Htop in Hhead. simpl in Hhead. injection Hhead as ->.
    split.
    + intros o Ho. apply Hin in Ho.
      apply Sorted_StronglySorted in Hsorted; [|apply scoreGe_Transitive].
      inversion Hsorted as [|? ? _ Hall]; subst.
      destruct Ho as [<-|Ho]; [apply Qle_refl|].
      rewrite Forall_forall in Hall. apply (Hall o Ho).
    + intros o Ho.
      apply (pickTopOptions_close (first :: rest) 3 first o eq_refl Ho).
Qed.

(** *** The whole plan *)

Lemma planMinimizeStops_trace (st : Store) (selectedResources : list string)
  (runMode : string) :
  let keys := JsSet.ofList (map norm selectedResources) in
  let rDisplay := JsMap.ofList (map (fun r => (norm r, r)) selectedResources) in
  let candidates := candidatePool st runMode keys in
  exists route final,
    planMinimizeStops selectedResources runMode st
    = (Some (StopsPlan.mk route (map (displayOf rDisplay) final)), st) /\
    stopsTrace st runMode rDisplay candidates keys route final /\
    (List.length route <= maxStops)%nat /\
    (final = [] \/ List.length route = maxStops \/
     stepTop st runMode rDisplay candidates final = []).
Proof.
  cbv zeta. unfold planMinimizeStops. cbv zeta.
  pose proof (candidatePool_run st runMode
                (JsSet.ofList (map norm selectedResources))) as Hpool.
  unfold bind in *.
  destruct (forEach (JsSet.ofList (map norm selectedResources)) []
                    collectNodes st) as [candidateNodes st1].
  destruct (filterM (candidateOk runMode) candidateNodes st1)
    as [candidates st2].
  injection Hpool as -> ->.
  destruct (stopsLoop_trace st runMode
              (JsMap.ofList (map (fun r => (norm r, r)) selectedResources))
              (candidatePool st runMode
                 (JsSet.ofList (map norm selectedResources)))
              maxStops (JsSet.ofList (map norm selectedResources)) [])
    as (steps & final & Hrun & Htrace & Hlen & Hstop);
    [unfold maxStops; simpl; lia | unfold maxStops; simpl; lia |].
  cbn [app] in Hrun, Hlen, Hstop. rewrite Hrun.
  exists steps, final. auto.
Qed.

Lemma remainingAt_cons (keys : JsSet.t) (step : Step.t) (steps : list Step.t) :
  remainingAt keys (step :: steps)
  = remainingAt (match Step.options step with
                 | best :: _ => removeCovered keys (StopOption.covered best)
                 | [] => keys
                 end) steps.
Proof. reflexivity. Qed.

Lemma stopsTrace_app (st : Store) (runMode : string)
  (rDisplay : JsMap.t string) (candidates : list string)
  (before : list Step.t) :
  forall (remaining : JsSet.t) (after : list Step.t) (final : JsSet.t),
    stopsTrace st runMode rDisplay candidates remaining (before ++ after) final ->
    stopsTrace st runMode rDisplay candidates
               (remainingAt remaining before) after final.
Proof.
  induction before as [|step before IH]; intros remaining after final Htrace.
  - exact Htrace.
  - simpl in Htrace. inversion Htrace; subst.
    rewrite remainingAt_cons. cbn [Step.options]. now apply IH.
Qed.

Lemma stopsTrace_final (st : Store) (runMode : string)
  (rDisplay : JsMap.t string) (candidates : list string)
  (remaining : JsSet.t) (steps : list Step.t) (final : JsSet.t) :
  stopsTrace st runMode rDisplay candidates remaining steps final ->
  final = remainingAt remaining steps.
Proof.
  intros Htrace. rewrite <- (app_nil_r steps) in Htrace.
  apply stopsTrace_app in Htrace. now inversion Htrace.
Qed.

Lemma stopsTrace_step (st : Store) (runMode : string)
  (rDisplay : JsMap.t string) (candidates : list string)
  (remaining : JsSet.t) (before : list Step.t) (step : Step.t)
  (after : list Step.t) (final : JsSet.t) :
  stopsTrace st runMode rDisplay candidates remaining
             (before ++ step :: after) final ->
  Step.options step
  = stepTop st runMode rDisplay candidates (remainingAt remaining before) /\
  Step.options step <> [].
Proof.
  intros Htrace. apply stopsTrace_app in Htrace.
  inversion Htrace; subst. simpl.
  match goal with H : stepTop _ _ _ _ _ = _ |- _ => rewrite H end.
  split; [reflexivity | discriminate].
Qed.

Lemma remainingAt_In (before : list Step.t) :
  forall (keys : JsSet.t) (k : string),
    In k (remainingAt keys before) <->
    In k keys /\ ~ coveredByRoute before k.
Proof.
  induction before as [|step before IH]; intros keys k.
  - simpl. split; [intros H; split; [exact H | now intros (? & [] & _)] | tauto].
  - rewrite remainingAt_cons, IH.
    assert (Hcov : coveredByRoute (step :: before) k <->
                   primaryCovers step k \/ coveredByRoute before k).
    { unfold coveredByRoute. simpl. split.
      - intros (s & [<-|Hin] & Hs); [now left | right; eauto].
      - intros [Hs|(s & Hin & Hs)]; [exists step | exists s]; auto. }
    rewrite Hcov. unfold primaryCovers.
    destruct (Step.options step) as [|best others]; simpl.
    + split; [intros [Hk Hn] | intros [Hk Hn]]; (split; [assumption|]).
      * intros [(b & c & Hb & _)|H]; [discriminate | now apply Hn].
      * intros H. apply Hn. now right.
    + rewrite removeCovered_In. split.
      * intros [[Hk Hno] Hn]. split; [assumption|].
        intros [(b & c & [= <-] & Hc & Hkey)|H]; [apply Hno; eauto | now apply Hn].
      * intros [Hk Hn]. repeat split; [assumption | |].
        -- intros (c & Hc & Hkey). apply Hn. left. exists best, c. auto.
        -- intros H. apply Hn. now right.
Qed.

Lemma stops_plan_trace (st : Store) (selectedResources : list string)
  (runMode : string) :
  exists plan final,
    planMinimizeStops selectedResources runMode st = (Some plan, st) /\
    StopsPlan.missing plan
    = map (displayOf (displayMap selectedResources)) final /\
    stopsTrace st runMode (displayMap selectedResources)
               (candidatePool st runMode (requestedKeys selectedResources))
               (requestedKeys selectedResources) (StopsPlan.route plan) final /\
    (List.length (StopsPlan.route plan) <= maxStops)%nat /\
    (final = [] \/ List.length (StopsPlan.route plan) = maxStops \/
     stepTop st runMode (displayMap selectedResources)
             (candidatePool st runMode (requestedKeys selectedResources))
             final = []).
Proof.
  destruct (planMinimizeStops_trace st selectedResources runMode)
    as (route & final & Hrun & Htrace & Hlen & Hstop).
  eexists. exists final. split; [exact Hrun|]. simpl. auto.
Qed.

Lemma requestedKeys_display (selectedResources : list string) (k : string) :
  In k (requestedKeys selectedResources) ->
  In (displayOf (displayMap selectedResources) k) selectedResources /\
  norm (displayOf (displayMap selectedResources) k) = k.
Proof.
  intros Hk. apply displayOf_selected. now apply JsSet_ofList_In.
Qed.

(** X14: Every step of the route is the greedy choice for the keys that the
    earlier steps left: its first option has the highest aggregate score
    of all candidate nodes, and its other options (two at most) follow in
    descending order, each within 90% of the first. *)
Theorem stops_step_is_greedy (st : Store) (selectedResources : list string)
  (runMode : string) :
  exists plan,
    planMinimizeStops selectedResources runMode st = (Some plan, st) /\
    forall before step after,
      StopsPlan.route plan = before ++ step :: after ->
      exists best others,
        Step.options step = best :: others /\
        Step.options step
        = stepTop st runMode (displayMap selectedResources)
                  (candidatePool st runMode (requestedKeys selectedResources))
                  (remainingAt (requestedKeys selectedResources) before) /\
        (List.length (Step.options step) <= 3)%nat /\
        Sorted scoreGe (Step.options step) /\
        (forall o, In o (Step.options step) ->
                   0.9 * StopOption.score best <= StopOption.score o /\
                   StopOption.score o <= StopOption.score best) /\
        (forall nKey meta,
            In nKey (candidatePool st runMode
                                   (requestedKeys selectedResources)) ->
            JsMap.get (NODE_META st) nKey = Some meta ->
            fst (coverageOf st runMode (displayMap selectedResources) nKey meta
                            (remainingAt (requestedKeys selectedResources)
                                         before))
            <= StopOption.score best).
Proof.
  destruct (stops_plan_trace st selectedResources runMode)
    as (plan & final & Hrun & _ & Htrace & _).
  exists plan. split; [exact Hrun|].
  intros before step after Hroute. rewrite Hroute in Htrace.
  destruct (stopsTrace_step _ _ _ _ _ _ _ _ _ Htrace) as [Htop Hne].
  destruct (Step.options step) as [|best others] eqn:Hopts; [congruence|].
  exists best, others. split; [reflexivity|]. split; [exact Htop|].
  destruct (stepTop_facts st runMode (displayMap selectedResources)
              (candidatePool st runMode (requestedKeys selectedResources))
              (remainingAt (requestedKeys selectedResources) before))
    as (Hsub & Hlen & Hsorted & _ & Hbest).
  rewrite <- Htop in Hsub, Hlen, Hsorted, Hbest.
  destruct (Hbest best others eq_refl) as [Hmax Hclose].
  split; [exact Hlen|]. split; [exact Hsorted|]. split.
  - intros o Ho. split; [now apply Hclose | apply Hmax; now apply Hsub].
  - intros nKey meta Hcand Hmeta. rewrite coverageOf_entries. cbn [fst].
    destruct (flat_map (entryOf st runMode (displayMap selectedResources)
                                nKey meta)
                       (remainingAt (requestedKeys selectedResources) before))
      as [|c cs] eqn:Hentries.
    + apply Qlt_le_weak.
      assert (Hb : In best (best :: others)) by now left.
      apply Hsub in Hb. now apply stepScored_positive in Hb.
    + apply (Hmax (StopOption.mk nKey (coveredTotal (c :: cs)) meta (c :: cs))).
      apply stepScored_In. exists meta. simpl. rewrite Hentries.
      repeat split; auto. discriminate.
Qed.

(** X15: Every option of the route lists exactly the keys, among those the
    earlier steps left, that its node covers, each with the score the
    catalog gives the pair; the list is never empty, and the score of the
    option is the sum of the scores in it, all strictly positive. *)
Theorem stops_options_backed (st : Store) (selectedResources : list string)
  (runMode : string) :
  exists plan,
    planMinimizeStops selectedResources runMode st = (Some plan, st) /\
    forall before step after o,
      StopsPlan.route plan = before ++ step :: after ->
      In o (Step.options step) ->
      In (StopOption.nodeKey o)
         (candidatePool st runMode (requestedKeys selectedResources)) /\
      JsMap.get (NODE_META st) (StopOption.nodeKey o)
      = Some (StopOption.meta o) /\
      StopOption.covered o
      = flat_map (entryOf st runMode (displayMap selectedResources)
                          (StopOption.nodeKey o) (StopOption.meta o))
                 (remainingAt (requestedKeys selectedResources) before) /\
      StopOption.covered o <> [] /\
      StopOption.score o = coveredTotal (StopOption.covered o) /\
      0 < StopOption.score o /\
      (forall c, In c (StopOption.covered o) ->
         0 < Covered.score c /\
         In (Covered.resource c) selectedResources /\
         In (norm (Covered.resource c))
            (remainingAt (requestedKeys selectedResources) before) /\
         coverScore st runMode (StopOption.nodeKey o) (StopOption.meta o)
                    (norm (Covered.resource c))
         = Some (Covered.via c, Covered.score c)) /\
      (forall rKey,
         In rKey (remainingAt (requestedKeys selectedResources) before) ->
         coverScore st runMode (StopOption.nodeKey o) (StopOption.meta o) rKey
         <> None ->
         exists c, In c (StopOption.covered o) /\
                   norm (Covered.resource c) = rKey).
Proof.
  destruct (stops_plan_trace st selectedResources runMode)
    as (plan & final & Hrun & _ & Htrace & _).
  exists plan. split; [exact Hrun|].
  intros before step after o Hroute Ho. rewrite Hroute in Htrace.
  destruct (stopsTrace_step _ _ _ _ _ _ _ _ _ Htrace) as [Htop _].
  rewrite Htop in Ho.
  destruct (stepTop_facts st runMode (displayMap selectedResources)
              (candidatePool st runMode (requestedKeys selectedResources))
              (remainingAt (requestedKeys selectedResources) before))
    as (Hsub & _).
  apply Hsub in Ho. pose proof (stepScored_positive _ _ _ _ _ _ Ho) as [_ Hpos].
  apply stepScored_In in Ho as (meta & Hcand & Hmeta & <- & Hcov & Hne & Hscore).
  assert (Hkeys : forall rKey,
             In rKey (remainingAt (requestedKeys selectedResources) before) ->
             In (displayOf (displayMap selectedResources) rKey)
                selectedResources /\
             norm (displayOf (displayMap selectedResources) rKey) = rKey).
  { intros rKey Hr. apply requestedKeys_display.
    now apply remainingAt_In in Hr. }
  repeat (split; [assumption|]). split.
  - intros c Hc. rewrite Hcov in Hc.
    apply entryOf_In in Hc as (rKey & Hr & Hs & Hname).
    destruct (Hkeys rKey Hr) as [Hsel Hnorm]. rewrite Hname, Hnorm.
    repeat split; try assumption. now apply coverScore_positive in Hs.
  - intros rKey Hr Hs.
    destruct (coverScore st runMode (StopOption.nodeKey o) (StopOption.meta o)
                         rKey) as [[via score]|] eqn:Hscore'; [|congruence].
    exists (Covered.mk (displayOf (displayMap selectedResources) rKey) via score).
    split; [|apply (Hkeys rKey Hr)].
    rewrite Hcov. apply entryOf_In. exists rKey. auto.
Qed.

(** *** Progress and stopping *)

Lemma JsSet_add_NoDup (s : JsSet.t) (x : string) :
  NoDup s -> NoDup (JsSet.add s x).
Proof.
  intros Hnd. unfold JsSet.add. destruct (JsSet.has s x) eqn:E; [assumption|].
  apply NoDup_app; [assumption | repeat constructor; easy |].
  intros y Hy [<-|[]].
  apply JsSet_has_In in Hy. congruence.
Qed.

Lemma JsSet_add_length (s : JsSet.t) (x : string) :
  (List.length (JsSet.add s x) <= S (List.length s))%nat.
Proof.
  unfold JsSet.add. destruct (JsSet.has s x); [lia|].
  rewrite length_app. simpl. lia.
Qed.

Lemma JsSet_fold_add (items : list string) :
  forall acc,
    NoDup acc ->
    NoDup (fold_left JsSet.add items acc) /\
    (List.length (fold_left JsSet.add items acc)
     <= List.length acc + List.length items)%nat /\
    (forall k, In k (fold_left JsSet.add items acc) <-> In k acc \/ In k items).
Proof.
  induction items as [|x items IH]; intros acc Hnd; simpl.
  - split; [assumption|]. split; [lia | tauto].
  - destruct (IH (JsSet.add acc x) (JsSet_add_NoDup acc x Hnd))
      as (Hnd' & Hlen & Hin).
    split; [assumption|]. split.
    + pose proof (JsSet_add_length acc x). lia.
    + intros k. rewrite Hin, JsSet_add_In. intuition.
Qed.

Lemma requestedKeys_NoDup (selectedResources : list string) :
  NoDup (requestedKeys selectedResources) /\
  (List.length (requestedKeys selectedResources)
   <= List.length selectedResources)%nat.
Proof.
  destruct (JsSet_fold_add (map norm selectedResources) [] (NoDup_nil _))
    as (Hnd & Hlen & _).
  split; [exact Hnd|]. simpl in Hlen. now rewrite length_map in Hlen.
Qed.

Lemma removeCovered_NoDup (covered : list Covered.t) :
  forall remaining, NoDup remaining -> NoDup (removeCovered remaining covered).
Proof.
  unfold removeCovered.
  induction covered as [|c covered IH]; intros remaining Hnd; simpl;
    [assumption|].
  apply IH. unfold JsSet.delete. now apply NoDup_filter.
Qed.

Lemma removeCovered_shrinks (remaining : JsSet.t) (covered : list Covered.t)
  (c : Covered.t) :
  NoDup remaining ->
  In c covered ->
  In (norm (Covered.resource c)) remaining ->
  (List.length (removeCovered remaining covered) < List.length remaining)%nat.
Proof.
  intros Hnd Hc Hk.
  assert (Hnd' : NoDup (norm (Covered.resource c)
                        :: removeCovered remaining covered)).
  { constructor; [|now apply removeCovered_NoDup].
    intros Hin. apply removeCovered_In in Hin as [_ Hno]. apply Hno. eauto. }
  apply (NoDup_incl_length Hnd').
  intros k [<-|Hin]; [assumption|]. now apply removeCovered_In in Hin.
Qed.

Lemma stopsTrace_lengths (st : Store) (runMode : string)
  (rDisplay : JsMap.t string) (candidates : list string)
  (remaining : JsSet.t) (steps : list Step.t) (final : JsSet.t) :
  stopsTrace st runMode rDisplay candidates remaining steps final ->
  NoDup remaining ->
  (forall k, In k remaining -> norm (displayOf rDisplay k) = k) ->
  (List.length steps + List.length final <= List.length remaining)%nat.
Proof.
  induction 1 as [remaining|remaining best others steps final Hne Htop _ IH];
    intros Hnd Hdisp; simpl; [lia|].
  assert (Hbest : In best (stepScored st runMode rDisplay candidates remaining)).
  { destruct (stepTop_facts st runMode rDisplay candidates remaining)
      as (Hsub & _). apply Hsub. rewrite Htop. now left. }
  apply stepScored_In in Hbest as (meta & _ & _ & _ & Hcov & Hcne & _).
  destruct (StopOption.covered best) as [|c cs] eqn:Hcovered; [congruence|].
  assert (Hc : In c (flat_map
                       (entryOf st runMode rDisplay (StopOption.nodeKey best) meta)
                       remaining)) by (rewrite <- Hcov; now left).
  apply entryOf_In in Hc as (rKey & Hr & _ & Hname).
  assert (Hshrink : (List.length (removeCovered remaining (c :: cs))
                     < List.length remaining)%nat).
  { apply (removeCovered_shrinks remaining (c :: cs) c Hnd); [now left|].
    now rewrite Hname, (Hdisp rKey Hr). }
  assert (IH' : (List.length steps + List.length final
                 <= List.length (removeCovered remaining (c :: cs)))%nat).
  { apply IH; [now apply removeCovered_NoDup|].
    intros k Hk. apply Hdisp. now apply removeCovered_In in Hk. }
  lia.
Qed.

Lemma stopsTrace_primary (st : Store) (runMode : string)
  (rDisplay : JsMap.t string) (candidates : list string)
  (keys : JsSet.t) (before : list Step.t) (step : Step.t)
  (after : list Step.t) (final : JsSet.t) :
  stopsTrace st runMode rDisplay candidates keys (before ++ step :: after)
             final ->
  (forall k, In k keys -> norm (displayOf rDisplay k) = k) ->
  exists best others,
    Step.options step = best :: others /\
    StopOption.covered best <> [] /\
    forall c, In c (StopOption.covered best) ->
              In (norm (Covered.resource c)) (remainingAt keys before).
Proof.
  intros Htrace Hdisp.
  destruct (stopsTrace_step _ _ _ _ _ _ _ _ _ Htrace) as [Htop Hne].
  destruct (Step.options step) as [|best others] eqn:Hopts; [congruence|].
  exists best, others. split; [reflexivity|].
  assert (Hbest : In best (stepScored st runMode rDisplay candidates
                                      (remainingAt keys before))).
  { destruct (stepTop_facts st runMode rDisplay candidates
                            (remainingAt keys before)) as (Hsub & _).
    apply Hsub. rewrite <- Htop. now left. }
  apply stepScored_In in Hbest as (meta & _ & _ & _ & Hcov & Hcne & _).
  split; [exact Hcne|].
  intros c Hc. rewrite Hcov in Hc.
  apply entryOf_In in Hc as (rKey & Hr & _ & Hname).
  rewrite Hname, Hdisp; [assumption|]. now apply remainingAt_In in Hr.
Qed.

(** X16: Every step makes progress: its first option covers at least one key
    that no earlier first option covers, so the stops and the missing
    resources together are never more than the requested keys. *)
Theorem stops_progress (st : Store) (selectedResources : list string)
  (runMode : string) :
  exists plan,
    planMinimizeStops selectedResources runMode st = (Some plan, st) /\
    (List.length (StopsPlan.route plan) + List.length (StopsPlan.missing plan)
     <= List.length (requestedKeys selectedResources))%nat /\
    (List.length (requestedKeys selectedResources)
     <= List.length selectedResources)%nat /\
    (forall before step after,
        StopsPlan.route plan = before ++ step :: after ->
        (exists k, primaryCovers step k) /\
        (forall k, primaryCovers step k ->
                   In k (requestedKeys selectedResources) /\
                   ~ coveredByRoute before k)).
Proof.
  destruct (stops_plan_trace st selectedResources runMode)
    as (plan & final & Hrun & Hmissing & Htrace & _).
  destruct (requestedKeys_NoDup selectedResources) as [Hnd Hlen].
  assert (Hdisp : forall k, In k (requestedKeys selectedResources) ->
                            norm (displayOf (displayMap selectedResources) k) = k)
    by (intros k Hk; now apply requestedKeys_display).
  exists plan. split; [exact Hrun|]. split; [|split; [exact Hlen|]].
  - rewrite Hmissing, length_map.
    apply (stopsTrace_lengths _ _ _ _ _ _ _ Htrace Hnd Hdisp).
  - intros before step after Hroute. rewrite Hroute in Htrace.
    destruct (stopsTrace_primary _ _ _ _ _ _ _ _ _ Htrace Hdisp)
      as (best & others & Hopts & Hne & Hentries).
    split.
    + destruct (StopOption.covered best) as [|c cs] eqn:Hc; [congruence|].
      exists (norm (Covered.resource c)). exists best, c.
      rewrite Hopts, Hc. simpl. auto.
    + intros k (b & c & Hhead & Hc & Hk). rewrite Hopts in Hhead.
      injection Hhead as <-.
      pose proof (Hentries c Hc) as Hrem. rewrite Hk in Hrem.
      now apply remainingAt_In in Hrem.
Qed.

Lemma flat_map_nil_inv {A B : Type} (f : A -> list B) (l : list A) (x : A) :
  flat_map f l = [] -> In x l -> f x = [].
Proof.
  induction l as [|y l IH]; simpl; [easy|].
  intros H [<-|Hin]; apply app_eq_nil in H as [Hy Hl]; auto.
Qed.

Lemma stops_stuck (st : Store) (selectedResources : list string)
  (runMode : string) (plan : StopsPlan.t) :
  planMinimizeStops selectedResources runMode st = (Some plan, st) ->
  (List.length (StopsPlan.route plan) < 6)%nat ->
  forall m nKey meta,
    In m (StopsPlan.missing plan) ->
    In nKey (candidatePool st runMode (requestedKeys selectedResources)) ->
    JsMap.get (NODE_META st) nKey = Some meta ->
    In m selectedResources /\
    coverScore st runMode nKey meta (norm m) = None.
Proof.
  intros Hplan Hshort m nKey meta Hm Hcand Hmeta.
  destruct (stops_plan_trace st selectedResources runMode)
    as (plan' & final & Hrun & Hmissing & Htrace & _ & Hstop).
  rewrite Hplan in Hrun. injection Hrun as <-.
  rewrite Hmissing in Hm. apply in_map_iff in Hm as (k & <- & Hk).
  assert (Hkey : In k (requestedKeys selectedResources)).
  { rewrite (stopsTrace_final _ _ _ _ _ _ _ Htrace) in Hk.
    now apply remainingAt_In in Hk. }
  destruct (requestedKeys_display selectedResources k Hkey) as [Hsel ->].
  split; [exact Hsel|].
  destruct Hstop as [->|[Hfull|Htop]];
    [contradiction | unfold maxStops in Hfull; lia|].
  destruct (stepTop_facts st runMode (displayMap selectedResources)
              (candidatePool st runMode (requestedKeys selectedResources)) final)
    as (_ & _ & _ & Hnil & _).
  apply Hnil in Htop.
  destruct (coverScore st runMode nKey meta k) as [[via score]|] eqn:Hscore;
    [|reflexivity].
  exfalso.
  set (entries := flat_map (entryOf st runMode (displayMap selectedResources)
                                    nKey meta) final).
  assert (Ho : In (StopOption.mk nKey (coveredTotal entries) meta entries)
                  (stepScored st runMode (displayMap selectedResources)
                     (candidatePool st runMode
                                    (requestedKeys selectedResources)) final)).
  { apply stepScored_In. exists meta. simpl. repeat split; auto.
    intros Hnone. subst entries.
    pose proof (flat_map_nil_inv _ _ k Hnone Hk) as He.
    unfold entryOf in He. rewrite Hscore in He. discriminate. }
  rewrite Htop in Ho. contradiction.
Qed.

(** X17: The planner gives up only when it is stuck: if the route has fewer
    than 6 stops, no candidate node covers any of the missing resources,
    neither by an explicit record with a positive score nor by the planet
    fallback. *)
Theorem stops_gives_up_only_when_stuck (st : Store)
  (selectedResources : list string) (runMode : string) :
  exists plan,
    planMinimizeStops selectedResources runMode st = (Some plan, st) /\
    ((List.length (StopsPlan.route plan) < 6)%nat ->
     forall m nKey meta,
       In m (StopsPlan.missing plan) ->
       In nKey (candidatePool st runMode (requestedKeys selectedResources)) ->
       JsMap.get (NODE_META st) nKey = Some meta ->
       coverScore st runMode nKey meta (norm m) = None).
Proof.
  destruct (stops_plan_trace st selectedResources runMode)
    as (plan & _ & Hrun & _).
  exists plan. split; [exact Hrun|].
  intros Hshort m nKey meta Hm Hcand Hmeta.
  apply (stops_stuck st selectedResources runMode plan Hrun Hshort
                     m nKey meta Hm Hcand Hmeta).
Qed.

(** ** The efficiency planner, resource by resource *)

Lemma mapM_pure {A B : Type} (f : A -> Prog B) (g : A -> B) (st : Store)
  (l : list A) :
  (forall x, f x st = (g x, st)) -> mapM f l st = (map g l, st).
Proof.
  intros Hf. induction l as [|x l IH]; simpl; [reflexivity|].
  unfold bind. now rewrite Hf, IH.
Qed.

Lemma scoreEntry_run (st : Store) (runMode : string)
  (scored : list Scored.t) (entry : string * ScoreObj.t) :
  scoreEntry runMode scored entry st = (effStep st runMode scored entry, st).
Proof.
  destruct entry as [nKey s]. unfold scoreEntry, effStep, bind, gets.
  cbn [fst snd].
  destruct (JsMap.get (NODE_META st) nKey) as [meta|]; [|reflexivity].
  now destruct (nodeEligibleByRunMode meta runMode).
Qed.

Lemma planResource_run (st : Store) (runMode : string)
  (results : list EffResult.t) (rName : string) :
  planResource runMode results rName st
  = (results ++ [effResult st runMode rName], st).
Proof.
  unfold planResource, effResult, bind, gets. cbv zeta. cbn [fst snd].
  destruct (JsMap.get (EXPLICIT st) (norm rName)) as [explicitMap|];
    [|reflexivity].
  destruct (JsMap.size explicitMap =? 0)%nat; [reflexivity|].
  unfold JsMap.entries.
  rewrite (forEach_pure _ (effStep st runMode))
    by (intros; apply scoreEntry_run).
  fold (effScored st runMode explicitMap).
  rewrite (mapM_pure withMeta (effOption st)) by reflexivity.
  reflexivity.
Qed.

Lemma planMaximizeEfficiency_run (st : Store)
  (selectedResources : list string) (runMode : string) :
  planMaximizeEfficiency selectedResources runMode st
  = (map (effResult st runMode) selectedResources, st).
Proof.
  unfold planMaximizeEfficiency.
  rewrite (forEach_pure _ (fun results rName =>
                             results ++ [effResult st runMode rName]))
    by (intros; apply planResource_run).
  f_equal.
  assert (H : forall acc,
             fold_left (fun results rName =>
                          results ++ [effResult st runMode rName])
                       selectedResources acc
             = acc ++ map (effResult st runMode) selectedResources).
  { induction selectedResources as [|r sel IH]; intros acc; simpl.
    - now rewrite app_nil_r.
    - now rewrite IH, <- app_assoc. }
  apply H.
Qed.

Lemma effScored_In (st : Store) (runMode : string)
  (explicitMap : JsMap.t ScoreObj.t) (o : Scored.t) :
  In o (effScored st runMode explicitMap) <->
  eligibleScore st runMode explicitMap (Scored.nodeKey o) (Scored.score o).
Proof.
  unfold effScored.
  assert (H : forall acc,
             In o (fold_left (effStep st runMode) explicitMap acc) <->
             In o acc \/
             eligibleScore st runMode explicitMap
                           (Scored.nodeKey o) (Scored.score o)).
  { induction explicitMap as [|[nKey s] m IH]; intros acc; simpl.
    - split; [auto | intros [H|(? & ? & [] & _)]; exact H].
    - rewrite IH. unfold effStep at 1. cbn [fst snd]. split.
      + intros [Hacc|(s' & meta & Hin & Hrest)].
        * destruct (JsMap.get (NODE_META st) nKey) as [meta|] eqn:Hmeta;
            [|now left].
          destruct (nodeEligibleByRunMode meta runMode) eqn:Hok; [|now left].
          apply in_app_or in Hacc as [Hacc|[<-|[]]]; [now left|].
          right. exists s, meta. simpl. auto.
        * right. exists s', meta. simpl. tauto.
      + intros [Hacc|(s' & meta & [Heq|Hin] & Hmeta & Hok & Hscore)].
        * left. destruct (JsMap.get (NODE_META st) nKey) as [meta|];
            [|assumption].
          destruct (nodeEligibleByRunMode meta runMode); [|assumption].
          apply in_or_app. now left.
        * injection Heq as Hk Hs. left. rewrite Hk, Hmeta, Hok.
          apply in_or_app. right. left.
          destruct o as [k sc]. simpl in *. subst. reflexivity.
        * right. exists s', meta. auto. }
  rewrite H. simpl. tauto.
Qed.

Lemma filter_none {A : Type} (f : A -> bool) (l : list A) :
  (forall x, In x l -> f x = false) -> filter f l = [].
Proof.
  induction l as [|x l IH]; simpl; intros Hf; [reflexivity|].
  rewrite (Hf x) by (now left). apply IH. intros y Hy. apply Hf. now right.
Qed.

Lemma Sorted_map_effOption (st : Store) (l : list Scored.t) :
  StronglySorted scoreGe l -> StronglySorted effGe (map (effOption st) l).
Proof.
  induction 1 as [|x l _ IH Hall]; simpl; constructor; [assumption|].
  rewrite Forall_forall in *. intros e He.
  apply in_map_iff in He as (y & <- & Hy). apply (Hall y Hy).
Qed.

(** The options that the efficiency planner keeps for a resource with
    records. *)
Lemma effResult_facts (st : Store) (runMode rName : string)
  (explicitMap : JsMap.t ScoreObj.t) :
  JsMap.get (EXPLICIT st) (norm rName) = Some explicitMap ->
  explicitMap <> [] ->
  let r := effResult st runMode rName in
  EffResult.resource r = rName /\
  EffResult.note r = None /\
  (List.length (EffResult.options r) <= 3)%nat /\
  StronglySorted effGe (EffResult.options r) /\
  (forall o, In o (EffResult.options r) ->
             EffOption.meta o
             = JsMap.get (NODE_META st) (EffOption.nodeKey o) /\
             eligibleScore st runMode explicitMap
                           (EffOption.nodeKey o) (EffOption.score o)) /\
  (forall best others,
      EffResult.options r = best :: others ->
      0 <= EffOption.score best /\
      (forall o, In o (EffResult.options r) ->
                 0.9 * EffOption.score best <= EffOption.score o) /\
      (forall nKey score,
          eligibleScore st runMode explicitMap nKey score ->
          score <= EffOption.score best)) /\
  (EffResult.options r = [] <->
   forall nKey score,
     eligibleScore st runMode explicitMap nKey score -> score < 0).
Proof.
  intros Hmap Hne. cbv zeta. unfold effResult. rewrite Hmap.
  destruct explicitMap as [|entry m] eqn:Hem; [congruence|].
  cbn [JsMap.size List.length Nat.eqb EffResult.resource EffResult.note
       EffResult.options].
  rewrite <- Hem. clear Hne.
  set (scored := effScored st runMode explicitMap).
  pose proof (sortBy_Sorted scored) as Hsorted.
  apply Sorted_StronglySorted in Hsorted; [|apply scoreGe_Transitive].
  assert (Hin : forall o, In o (sortBy byScoreDesc scored) <->
                          eligibleScore st runMode explicitMap
                                        (Scored.nodeKey o) (Scored.score o)).
  { intros o. rewrite sortBy_In. apply effScored_In. }
  assert (Hmax : forall first rest nKey score,
             sortBy byScoreDesc scored = first :: rest ->
             eligibleScore st runMode explicitMap nKey score ->
             score <= Scored.score first).
  { intros first rest nKey score Hs He.
    assert (Ho : In (Scored.mk nKey score) (sortBy byScoreDesc scored))
      by now apply Hin.
    rewrite Hs in Ho, Hsorted.
    inversion Hsorted as [|? ? _ Hall]; subst.
    destruct Ho as [Heq|Ho]; [rewrite Heq; apply Qle_refl|].
    rewrite Forall_forall in Hall. apply (Hall _ Ho). }
  split; [reflexivity|]. split; [reflexivity|].
  split; [rewrite length_map; apply pickTopOptions_length|].
  split.
  { apply Sorted_map_effOption.
    apply (subseq_StronglySorted _ _ _ (pickTopOptions_subseq _ _) Hsorted). }
  split.
  { intros o Ho. apply in_map_iff in Ho as (x & <- & Hx). simpl.
    split; [reflexivity|]. apply Hin. now apply pickTopOptions_In in Hx. }
  destruct (sortBy byScoreDesc scored) as [|first rest] eqn:Hs.
  - simpl. split; [discriminate|]. split; [intros _|reflexivity].
    intros nKey score He.
    assert (Ho : In (Scored.mk nKey score) []) by now apply Hin.
    contradiction.
  - rewrite (pickTopOptions_firstn_filter (first :: rest) 3 first eq_refl).
    cbn [filter].
    destruct (Qle_bool (scoreOf first * 0.9) (scoreOf first)) eqn:Hq.
    + assert (H0 : 0 <= Scored.score first).
      { apply Qle_bool_iff in Hq. unfold scoreOf, Scored_HasScore in Hq. lra. }
      rewrite firstn_cons, map_cons. split.
      * intros best others [= <- _]. cbn [effOption EffOption.score].
        split; [exact H0|]. split.
        -- intros o [<-|Ho]; [simpl; lra|].
           apply in_map_iff in Ho as (x & <- & Hx). simpl.
           apply firstn_incl, filter_In in Hx as [_ Hx].
           apply Qle_bool_iff in Hx. unfold scoreOf, Scored_HasScore in Hx. lra.
        -- intros nKey score He. now apply (Hmax first rest nKey score).
      * split; [discriminate|]. intros Hneg. exfalso.
        assert (Hf : eligibleScore st runMode explicitMap
                                   (Scored.nodeKey first) (Scored.score first))
          by (apply Hin; now left).
        apply Hneg in Hf. lra.
    + assert (H0 : Scored.score first < 0).
      { destruct (Qlt_le_dec (Scored.score first) 0) as [Hlt|Hge];
          [assumption|].
        assert (Hq' : Qle_bool (scoreOf first * 0.9) (scoreOf first) = true)
          by (apply Qle_bool_iff; unfold scoreOf, Scored_HasScore; lra).
        congruence. }
      assert (Hnone : filter (fun it => Qle_bool (scoreOf first * 0.9)
                                                 (scoreOf it)) rest = []).
      { inversion Hsorted as [|? ? _ Hall]; subst.
        rewrite Forall_forall in Hall.
        apply filter_none. intros x Hx.
        destruct (Qle_bool (scoreOf first * 0.9) (scoreOf x)) eqn:Hx';
          [|reflexivity].
        apply Qle_bool_iff in Hx'. specialize (Hall x Hx).
        unfold scoreGe, scoreOf, Scored_HasScore in *. lra. }
      rewrite Hnone. simpl. split; [discriminate|].
      split; [intros _|reflexivity].
      intros nKey score He.
      pose proof (Hmax first rest nKey score eq_refl He). lra.
Qed.


(** ** The selection *)

Lemma fold_left_snoc {A B : Type} (f : A -> list B) (l : list A) :
  forall acc, fold_left (fun acc x => acc ++ f x) l acc = acc ++ flat_map f l.
Proof.
  induction l as [|x l IH]; intros acc; simpl.
  - now rewrite app_nil_r.
  - now rewrite IH, app_assoc.
Qed.

Lemma flat_map_filter {A : Type} (p : A -> bool) (l : list A) :
  flat_map (fun x => if p x then [x] else []) l = filter p l.
Proof.
  induction l as [|x l IH]; simpl; [reflexivity|].
  rewrite IH. now destruct (p x).
Qed.

Lemma getSelectedResources_run (st : Store) :
  getSelectedResources st = (selectedOf st, st).
Proof.
  unfold getSelectedResources, bind, gets. cbn [fst snd].
  rewrite (forEach_pure _ (fun selected r =>
             selected ++ (if JsSet.has (SELECTED_KEYS st) (norm r)
                          then [r] else []))).
  - rewrite fold_left_snoc. simpl. unfold selectedOf.
    now rewrite flat_map_filter.
  - intros acc r _. unfold ret.
    destruct (JsSet.has (SELECTED_KEYS st) (norm r));
      [reflexivity | now rewrite app_nil_r].
Qed.

Lemma populateResources_run (filterValue : string) (st : Store) :
  populateResources filterValue st
  = (map (fun r => ResourceRow.mk
                     r (JsSet.has (SELECTED_KEYS st) (norm r))
                     ("icons/resources/" ++ resourceIconName r ++ ".png"))
         (filter (fun r => negb (hiddenBy (toLowerCase (trim filterValue)) r))
                 (RESOURCES st)),
     st).
Proof.
  unfold populateResources, bind, gets. cbv zeta. cbn [fst snd].
  set (f := toLowerCase (trim filterValue)).
  rewrite (forEach_pure _ (fun wrap r =>
             wrap ++ (if negb (hiddenBy f r)
                      then [ResourceRow.mk
                              r (JsSet.has (SELECTED_KEYS st) (norm r))
                              ("icons/resources/" ++ resourceIconName r
                               ++ ".png")]
                      else []))).
  - rewrite fold_left_snoc. simpl. f_equal.
    induction (RESOURCES st) as [|r l IH]; simpl; [reflexivity|].
    rewrite IH. now destruct (hiddenBy f r).
  - intros acc r _. unfold ret.
    destruct (hiddenBy f r); simpl; [now rewrite app_nil_r | reflexivity].
Qed.

Lemma JsSet_has_delete (s : JsSet.t) (x k : string) :
  JsSet.has (JsSet.delete s x) k = JsSet.has s k && negb (k =? x).
Proof.
  apply eq_true_iff_eq.
  rewrite andb_true_iff, negb_true_iff, !JsSet_has_In, JsSet_delete_In.
  now rewrite String.eqb_neq.
Qed.

Lemma JsSet_has_add_eq (s : JsSet.t) (x k : string) :
  JsSet.has (JsSet.add s x) k = JsSet.has s k || (k =? x).
Proof.
  apply eq_true_iff_eq.
  rewrite orb_true_iff, JsSet_has_add. now rewrite String.eqb_eq.
Qed.

Lemma checkboxChanged_has (rKey : string) (checked : bool) (st : Store)
  (k : string) :
  sameCatalog st (snd (checkboxChanged rKey checked st)) /\
  JsSet.has (SELECTED_KEYS (snd (checkboxChanged rKey checked st))) k
  = if k =? rKey then checked else JsSet.has (SELECTED_KEYS st) k.
Proof.
  unfold checkboxChanged, sameCatalog.
  destruct checked; simpl; (split; [repeat split|]).
  - rewrite JsSet_has_add_eq. destruct (k =? rKey); [apply orb_true_r|].
    apply orb_false_r.
  - rewrite JsSet_has_delete. destruct (k =? rKey); [apply andb_false_r|].
    apply andb_true_r.
Qed.

Lemma selectAll_loop (filter : string) (value : bool) (resources : list string) :
  forall st,
    let st' :=
      snd (forEach resources tt
             (fun _ r => if hiddenBy filter r then ret tt
                         else checkboxChanged (norm r) value) st) in
    sameCatalog st st' /\
    forall k,
      JsSet.has (SELECTED_KEYS st') k
      = if shownKey filter resources k then value
        else JsSet.has (SELECTED_KEYS st) k.
Proof.
  induction resources as [|r l IH]; intros st; cbv zeta.
  - simpl. unfold sameCatalog. repeat split.
  - set (body := fun (_ : unit) r => if hiddenBy filter r then ret tt
                                     else checkboxChanged (norm r) value).
    set (st1 := snd (body tt r st)).
    assert (Hrun : forEach (r :: l) tt body st = forEach l tt body st1).
    { cbn [forEach]. unfold bind. subst st1.
      now destruct (body tt r st) as [[] ?]. }
    rewrite Hrun.
    pose proof (IH st1) as IH1. cbv zeta in IH1. fold body in IH1.
    destruct IH1 as [Hcat Hhas].
    assert (H1 : sameCatalog st st1 /\
                 forall k, JsSet.has (SELECTED_KEYS st1) k
                           = if negb (hiddenBy filter r) && (norm r =? k)
                             then value else JsSet.has (SELECTED_KEYS st) k).
    { subst st1 body. cbv beta. destruct (hiddenBy filter r); simpl.
      - unfold sameCatalog. repeat split.
      - split; [apply (checkboxChanged_has (norm r) value st "")|].
        intros k. rewrite (proj2 (checkboxChanged_has (norm r) value st k)).
        now rewrite (String.eqb_sym k). }
    destruct H1 as [Hcat1 Hhas1]. split.
    + unfold sameCatalog in *.
      repeat match goal with H : _ /\ _ |- _ => destruct H end.
      repeat split; congruence.
    + intros k. rewrite Hhas, Hhas1. unfold shownKey. cbn [existsb].
      fold (shownKey filter l k).
      destruct (shownKey filter l k);
        [now rewrite orb_true_r | now rewrite orb_false_r].
Qed.

(** X19: Select all and clear act on the rows that the filter shows, and on
    nothing else: the catalog stays as it is, a key is selected (or not)
    afterwards as the button says when some shown row has it and as before
    otherwise, and the list is drawn again with the shown rows in the order
    of the resource list, every checkbox in the state the button asked
    for. *)
Theorem selectAllResources_acts_on_shown_rows (filterValue : string)
  (value : bool) (st : Store) :
  exists rows st',
    selectAllResources filterValue value st = (rows, st') /\
    sameCatalog st st' /\
    (forall k,
        JsSet.has (SELECTED_KEYS st') k
        = if shownKey (toLowerCase (trim filterValue)) (RESOURCES st) k
          then value else JsSet.has (SELECTED_KEYS st) k) /\
    map ResourceRow.value rows
    = filter (fun r => negb (hiddenBy (toLowerCase (trim filterValue)) r))
             (RESOURCES st) /\
    Forall (fun row => ResourceRow.checked row = value) rows /\
    (trim filterValue = "" ->
     fst (getSelectedResources st') = if value then RESOURCES st else []).
Proof.
  unfold selectAllResources. cbv zeta. unfold bind at 1 2, gets.
  cbn [fst snd].
  set (f := toLowerCase (trim filterValue)).
  destruct (selectAll_loop f value (RESOURCES st) st) as [Hcat Hhas].
  destruct (forEach (RESOURCES st) tt _ st) as [[] st'] eqn:Hloop.
  cbn [snd] in Hcat, Hhas.
  rewrite populateResources_run. fold f.
  assert (Hres : RESOURCES st' = RESOURCES st) by apply Hcat.
  rewrite Hres.
  assert (Hshown : forall r, In r (RESOURCES st) -> hiddenBy f r = false ->
                             JsSet.has (SELECTED_KEYS st') (norm r) = value).
  { intros r Hr Hvis. rewrite Hhas.
    replace (shownKey f (RESOURCES st) (norm r)) with true; [reflexivity|].
    symmetry. apply existsb_exists. exists r.
    now rewrite Hvis, String.eqb_refl. }
  eexists. exists st'. split; [reflexivity|]. split; [exact Hcat|].
  split; [exact Hhas|]. split; [|split].
  - rewrite map_map. simpl. apply map_id.
  - apply Forall_forall. intros row Hrow.
    apply in_map_iff in Hrow as (r & <- & Hr). simpl.
    apply filter_In in Hr as [Hr Hvis]. apply negb_true_iff in Hvis. auto.
  - intros Hempty. rewrite getSelectedResources_run. cbn [fst].
    unfold selectedOf. rewrite Hres.
    assert (Hall : forall r, In r (RESOURCES st) ->
                             JsSet.has (SELECTED_KEYS st') (norm r) = value).
    { intros r Hr. apply Hshown; [assumption|].
      unfold hiddenBy, f. now rewrite Hempty. }
    clear -Hall. induction (RESOURCES st) as [|r l IH]; simpl.
    + now destruct value.
    + rewrite (Hall r) by (now left).
      rewrite IH by (intros; apply Hall; now right).
      now destruct value.
Qed.

(** *** The candidate nodes *)

Lemma collect_fold (explicit : JsMap.t (JsMap.t ScoreObj.t))
  (keys : list string) :
  forall acc,
    NoDup acc ->
    let pool :=
      fold_left (fun candidateNodes rKey =>
                   match JsMap.get explicit rKey with
                   | Some inner =>
                       fold_left JsSet.add (JsMap.keys inner) candidateNodes
                   | None => candidateNodes
                   end)
                keys acc in
    NoDup pool /\
    forall nKey,
      In nKey pool <->
      In nKey acc \/
      exists rKey inner,
        In rKey keys /\ JsMap.get explicit rKey = Some inner /\
        In nKey (JsMap.keys inner).
Proof.
  induction keys as [|rKey keys IH]; intros acc Hnd; cbv zeta; simpl.
  - split; [assumption|]. intros nKey.
    split; [auto | intros [H|(? & ? & [] & _)]; exact H].
  - destruct (JsMap.get explicit rKey) as [inner|] eqn:Hget.
    + destruct (JsSet_fold_add (JsMap.keys inner) acc Hnd)
        as (Hnd' & _ & Hin').
      destruct (IH _ Hnd') as [Hnd'' Hin'']. split; [assumption|].
      intros nKey. rewrite Hin'', Hin'. split.
      * intros [[H|H]|(k & i & Hk & Hg & Hn)]; [now left | |].
        -- right. exists rKey, inner. auto.
        -- right. exists k, i. auto.
      * intros [H|(k & i & [<-|Hk] & Hg & Hn)]; [now left; left | |].
        -- rewrite Hget in Hg. injection Hg as <-. now left; right.
        -- right. exists k, i. auto.
    + destruct (IH _ Hnd) as [Hnd'' Hin'']. split; [assumption|].
      intros nKey. rewrite Hin''. split.
      * intros [H|(k & i & Hk & Hg & Hn)]; [now left|].
        right. exists k, i. auto.
      * intros [H|(k & i & [<-|Hk] & Hg & Hn)]; [now left | congruence |].
        right. exists k, i. auto.
Qed.

Lemma candidatePool_In (st : Store) (runMode : string)
  (selectedResources : list string) :
  NoDup (candidatePool st runMode (requestedKeys selectedResources)) /\
  forall nKey,
    In nKey (candidatePool st runMode (requestedKeys selectedResources)) <->
    (exists r inner,
        In r selectedResources /\
        JsMap.get (EXPLICIT st) (norm r) = Some inner /\
        In nKey (JsMap.keys inner)) /\
    (exists meta,
        JsMap.get (NODE_META st) nKey = Some meta /\
        nodeEligibleByRunMode meta runMode = true).
Proof.
  unfold candidatePool.
  destruct (collect_fold (EXPLICIT st) (requestedKeys selectedResources) []
                         (NoDup_nil _)) as [Hnd Hin].
  cbv zeta in Hnd, Hin. split; [now apply NoDup_filter|].
  intros nKey. rewrite filter_In, Hin. split.
  - intros [[[]|(rKey & inner & Hk & Hg & Hn)] Hok].
    apply JsSet_ofList_In, in_map_iff in Hk as (r & <- & Hr).
    split; [exists r, inner; auto|].
    destruct (JsMap.get (NODE_META st) nKey) as [meta|]; [|discriminate].
    exists meta. auto.
  - intros [(r & inner & Hr & Hg & Hn) (meta & Hmeta & Hok)]. split.
    + right. exists (norm r), inner. repeat split; [|assumption..].
      apply JsSet_ofList_In, in_map_iff. eauto.
    + now rewrite Hmeta.
Qed.

(** X20: The candidate nodes of the stops planner are the eligible nodes with
    metadata that have a record for some requested resource, each once;
    every option of the route is one of them, so the planet fallback never
    brings in a node that has no record for a requested resource. *)
Theorem stops_candidates_have_records (st : Store)
  (selectedResources : list string) (runMode : string) :
  bind (forEach (requestedKeys selectedResources) [] collectNodes)
       (filterM (candidateOk runMode)) st
  = (candidatePool st runMode (requestedKeys selectedResources), st) /\
  NoDup (candidatePool st runMode (requestedKeys selectedResources)) /\
  (forall nKey,
      In nKey (candidatePool st runMode (requestedKeys selectedResources)) <->
      (exists r inner,
          In r selectedResources /\
          JsMap.get (EXPLICIT st) (norm r) = Some inner /\
          In nKey (JsMap.keys inner)) /\
      (exists meta,
          JsMap.get (NODE_META st) nKey = Some meta /\
          nodeEligibleByRunMode meta runMode = true)) /\
  exists plan,
    planMinimizeStops selectedResources runMode st = (Some plan, st) /\
    forall step o,
      In step (StopsPlan.route plan) ->
      In o (Step.options step) ->
      nodeEligibleByRunMode (StopOption.meta o) runMode = true /\
      exists r inner,
        In r selectedResources /\
        JsMap.get (EXPLICIT st) (norm r) = Some inner /\
        In (StopOption.nodeKey o) (JsMap.keys inner).
Proof.
  destruct (candidatePool_In st runMode selectedResources) as [Hnd Hin].
  split; [apply candidatePool_run|]. split; [exact Hnd|].
  split; [exact Hin|].
  destruct (stops_plan_trace st selectedResources runMode)
    as (plan & final & Hrun & _ & Htrace & _).
  exists plan. split; [exact Hrun|].
  intros step o Hstep Ho.
  apply in_split in Hstep as (before & after & Hroute).
  rewrite Hroute in Htrace.
  destruct (stopsTrace_step _ _ _ _ _ _ _ _ _ Htrace) as [Htop _].
  rewrite Htop in Ho.
  destruct (stepTop_facts st runMode (displayMap selectedResources)
              (candidatePool st runMode (requestedKeys selectedResources))
              (remainingAt (requestedKeys selectedResources) before))
    as (Hsub & _).
  apply Hsub, stepScored_In in Ho as (meta & Hcand & Hmeta & <- & _).
  apply Hin in Hcand as [Hrec (meta' & Hmeta' & Hok)].
  split; [congruence | exact Hrec].
Qed.

(** ** The main action *)

Lemma planRoute_run (goal runMode : string) (st : Store) :
  planRoute goal runMode st
  = (if (List.length (selectedOf st) =? 0)%nat
     then Some (OutputMessage "Select at least one resource.")
     else if goal =? "efficiency"
          then Some (EfficiencyPlan
                       (map (effResult st runMode) (selectedOf st)) runMode)
          else option_map
                 (fun plan => StopsRoute plan (selectedOf st) runMode)
                 (fst (planMinimizeStops (selectedOf st) runMode st)),
     st).
Proof.
  unfold planRoute, bind. rewrite getSelectedResources_run.
  destruct (List.length (selectedOf st) =? 0)%nat; [reflexivity|].
  destruct (goal =? "efficiency").
  - now rewrite planMaximizeEfficiency_run.
  - destruct (stops_plan_trace st (selectedOf st) runMode)
      as (plan & _ & -> & _). reflexivity.
Qed.

(** X21: [planRoute] always hands something to the page and leaves the store
    as it is: the message exactly when no listed resource is selected,
    otherwise the efficiency plan of the selected resources when the goal
    is "efficiency", and their stops plan for every other goal. *)
Theorem planRoute_outcome (goal runMode : string) (st : Store) :
  exists out,
    planRoute goal runMode st = (Some out, st) /\
    match out with
    | OutputMessage msg =>
        msg = "Select at least one resource." /\
        forall r, In r (RESOURCES st) ->
                  JsSet.has (SELECTED_KEYS st) (norm r) = false
    | EfficiencyPlan results rm =>
        goal = "efficiency" /\ rm = runMode /\
        fst (getSelectedResources st) <> [] /\
        planMaximizeEfficiency (fst (getSelectedResources st)) runMode st
        = (results, st)
    | StopsRoute plan selected rm =>
        goal <> "efficiency" /\ rm = runMode /\
        selected = fst (getSelectedResources st) /\ selected <> [] /\
        planMinimizeStops selected runMode st = (Some plan, st)
    end.
Proof.
  rewrite planRoute_run, getSelectedResources_run. cbn [fst].
  destruct (selectedOf st) as [|r sel] eqn:Hsel.
  - eexists. split; [reflexivity|]. split; [reflexivity|].
    intros r Hr.
    destruct (JsSet.has (SELECTED_KEYS st) (norm r)) eqn:Hhas; [|reflexivity].
    assert (Hin : In r (selectedOf st)) by (apply filter_In; auto).
    rewrite Hsel in Hin. contradiction.
  - cbn [List.length Nat.eqb].
    destruct (String.eqb_spec goal "efficiency") as [Hgoal|Hgoal].
    + eexists. split; [reflexivity|]. cbv beta iota.
      rewrite planMaximizeEfficiency_run.
      repeat split; [assumption | discriminate].
    + destruct (stops_plan_trace st (r :: sel) runMode)
        as (plan & _ & Hrun & _).
      rewrite Hrun. cbn [fst option_map].
      eexists. split; [reflexivity|]. cbv beta iota.
      repeat split; [assumption | discriminate | assumption].
Qed.

(** ** From the tables to the plan *)

Lemma JsMap_set_keys {V : Type} (m : JsMap.t V) (k : string) (v : V) :
  JsMap.keys (JsMap.set m k v)
  = if JsMap.has m k then JsMap.keys m else JsMap.keys m ++ [k].
Proof.
  unfold JsMap.keys, JsMap.has.
  induction m as [|[k' v'] m IH]; simpl; [reflexivity|].
  destruct (String.eqb_spec k' k) as [->|_]; simpl; [reflexivity|].
  rewrite IH. now destruct (JsMap.get m k).
Qed.

Lemma JsMap_set_NoDup {V : Type} (m : JsMap.t V) (k : string) (v : V) :
  NoDup (JsMap.keys m) -> NoDup (JsMap.keys (JsMap.set m k v)).
Proof.
  intros Hnd. rewrite JsMap_set_keys.
  destruct (JsMap.has m k) eqn:Hhas; [assumption|].
  apply JsMap_has_get, JsMap_get_None in Hhas.
  apply NoDup_app; [assumption | repeat constructor; easy |].
  intros x Hx [<-|[]]. contradiction.
Qed.

Lemma JsMap_In_get {V : Type} (m : JsMap.t V) (k : string) (v : V) :
  NoDup (JsMap.keys m) -> In (k, v) m -> JsMap.get m k = Some v.
Proof.
  unfold JsMap.keys. induction m as [|[k' v'] m IH]; simpl; [easy|].
  intros Hnd [Heq|Hin]; inversion Hnd as [|? ? Hk Hnd']; subst.
  - injection Heq as -> ->. now rewrite String.eqb_refl.
  - destruct (String.eqb_spec k' k) as [->|_]; [|auto].
    exfalso. apply Hk. apply in_map_iff. now exists (k, v).
Qed.

Lemma filter_distinct_keys (keep : string -> bool) (names : list string) :
  NoDup (map norm names) -> NoDup (map norm (filter keep names)).
Proof.
  intros Hnd. induction names as [|r names IH]; simpl; [constructor|].
  inversion Hnd as [|? ? Hr Hnd']; subst.
  destruct (keep r); [|auto]. simpl. constructor; [|auto].
  intros Hin. apply Hr. apply in_map_iff in Hin as (y & Hy & Hin).
  apply filter_In in Hin as [Hin _]. apply in_map_iff. eauto.
Qed.

Section LoadedCatalog.
Variable numberOrZero : string -> Q.
Variable localeCompare : string -> string -> Q.

Lemma master_loop_keys (master : list RawRow) (st0 : Store) :
  EXPLICIT st0 = [] ->
  forall rKey inner,
    JsMap.get
      (EXPLICIT (snd (forEach master tt
                        (fun _ row => indexMasterRow numberOrZero row) st0)))
      rKey = Some inner ->
    NoDup (JsMap.keys inner).
Proof.
  intros Hexp0. rewrite forEach_unit_state.
  induction master as [|row master IH] using rev_ind.
  - simpl. rewrite Hexp0. discriminate.
  - rewrite fold_left_app. cbn [fold_left].
    set (st := fold_left _ master st0) in *.
    destruct (rowIsIndexed row) eqn:Hkept.
    + destruct (indexMasterRow_indexed numberOrZero row st Hkept)
        as (_ & _ & Hexp & _).
      intros rKey inner. rewrite Hexp.
      destruct (norm (resourceOf row) =? rKey); [|apply IH].
      intros [= <-]. apply JsMap_set_NoDup.
      destruct (JsMap.get (EXPLICIT st) (norm (resourceOf row)))
        as [inner0|] eqn:Hget; [apply (IH _ _ Hget) | constructor].
    + now rewrite (indexMasterRow_state_skip numberOrZero row st Hkept).
Qed.

Lemma loadData_record_keys (master planet : list RawRow) (st : Store)
  (rKey : string) (inner : JsMap.t ScoreObj.t) :
  JsMap.get
    (EXPLICIT (snd (loadData numberOrZero localeCompare master planet st)))
    rKey = Some inner ->
  NoDup (JsMap.keys inner).
Proof.
  rewrite loadData_state. cbv zeta.
  match goal with
  | |- context [forEach planet tt ?f ?s0] =>
      destruct (planet_loop_facts planet s0)
        as ((_ & _ & _ & _ & Hexp) & _)
  end.
  rewrite Hexp. simpl. now apply master_loop_keys.
Qed.

(** The facts about a catalog that [loadData] built which the planners
    rely on; the selection does not matter. *)
Lemma loaded_catalog_facts (master planet : list RawRow) (st : Store)
  (keys : JsSet.t) :
  let loaded :=
    set_SELECTED_KEYS keys
      (snd (loadData numberOrZero localeCompare master planet st)) in
  NoDup (map norm (selectedOf loaded)) /\
  (forall r, In r (selectedOf loaded) ->
             exists inner,
               JsMap.get (EXPLICIT loaded) (norm r) = Some inner /\
               inner <> [] /\ NoDup (JsMap.keys inner)) /\
  (forall rKey nKey s,
      explicitRecord loaded rKey nKey = Some s ->
      exists meta, JsMap.get (NODE_META loaded) nKey = Some meta).
Proof.
  cbv zeta.
  destruct (loadData_resource_rows numberOrZero localeCompare master planet st)
    as (Hnd & Hrows & _).
  split; [|split].
  - unfold selectedOf. simpl. now apply filter_distinct_keys.
  - intros r Hr. unfold selectedOf in Hr. simpl in Hr.
    apply filter_In in Hr as [Hr _].
    destruct (Hrows r Hr) as (row & Hrow & ->).
    destruct (loadData_row_records numberOrZero localeCompare master planet st
                                   row Hrow) as (inner & Hget & Hne).
    exists inner. simpl. split; [exact Hget|]. split; [exact Hne|].
    apply (loadData_record_keys _ _ _ _ _ Hget).
  - intros rKey nKey s Hs. unfold explicitRecord in Hs. simpl in Hs. simpl.
    apply (loadData_record_meta numberOrZero localeCompare master planet st
                                rKey nKey s Hs).
Qed.

End LoadedCatalog.

Lemma computeEffScore_sign (scoreObj : ScoreObj.t) (runMode : string)
  (meta : NodeMeta.t) :
  (computeEffScore scoreObj runMode meta < 0
   <-> ScoreObj.dropScore scoreObj < 0) /\
  (0 < computeEffScore scoreObj runMode meta
   <-> 0 < ScoreObj.dropScore scoreObj).
Proof.
  destruct (computeEffScore_cases scoreObj runMode meta)
    as [->|(bias & Hlo & Hhi & Heq)]; [tauto|].
  rewrite Heq. split; split; intros H; nra.
Qed.

Section LoadedRoute.
Variable numberOrZero : string -> Q.
Variable localeCompare : string -> string -> Q.


End LoadedRoute.

(** ** A blank line in the master table *)

Section BlankLine.
Variable numberOrZero : string -> Q.
Variable localeCompare : string -> string -> Q.

Lemma loadData_kept_rows (master master' planet : list RawRow) (st : Store) :
  filter rowIsIndexed master = filter rowIsIndexed master' ->
  loadData numberOrZero localeCompare master planet st
  = loadData numberOrZero localeCompare master' planet st.
Proof.
  intros Hkept. unfold loadData, bind. simpl.
  now rewrite (index_master_filter numberOrZero master),
              (index_master_filter numberOrZero master'), Hkept.
Qed.

(** A record whose cells are shifted by an empty cell has nothing under
    the first column, and is skipped when that column is the resource or
    the node. *)
Lemma shifted_record_skipped (header cells : list string) :
  NoDup header ->
  hd "" header = "resource" \/ hd "" header = "node" ->
  rowIsIndexed (fillRecord header 0 ("" :: cells) []) = false.
Proof.
  intros Hnd Hhd. destruct header as [|h header]; [now destruct Hhd|].
  assert (Hget : JsMap.get (fillRecord (h :: header) 0 ("" :: cells) []) h
                 = Some "").
  { apply (fillRecord_column (h :: header) Hnd 0 0 ("" :: cells) []);
      [simpl; lia|]. simpl. simpl in Hhd. now destruct Hhd as [-> | ->]. }
  simpl in Hhd. unfold rowIsIndexed, column.
  destruct Hhd as [-> | ->]; rewrite Hget.
  - reflexivity.
  - apply andb_false_r.
Qed.

(** X23: A blank line in the text of the master table makes [loadData] drop
    the row that follows it, when the first column of the table is the
    resource or the node: the catalog is the one built from the table
    without that row. *)
Theorem blank_line_drops_next_row (first next : list string)
  (before after : list (list string)) (planet : list RawRow) (st : Store) :
  rowKept first ->
  Forall rowKept before ->
  rowKept next ->
  Forall rowKept after ->
  NoDup (map trim first) ->
  hd "" (map trim first) = "resource" \/ hd "" (map trim first) = "node" ->
  loadData numberOrZero localeCompare
           (parseCsv (writeCsv (first :: before)
                      ++ String lineFeed (writeCsv (next :: after)))%string)
           planet st
  = loadData numberOrZero localeCompare
             (parseCsv (writeCsv (first :: before ++ after))) planet st.
Proof.
  intros Hfirst Hbefore Hnext Hafter Hnd Hhd.
  apply loadData_kept_rows. unfold parseCsv.
  rewrite (csvRows_blank_line (first :: before) after next)
    by (assumption || now constructor).
  rewrite csvRows_writeCsv
    by (constructor; [assumption | now apply Forall_app]).
  simpl. rewrite !map_app, !filter_app. simpl.
  now rewrite (shifted_record_skipped (map trim first) next Hnd Hhd).
Qed.

End BlankLine.

Lemma blank_line_drops_next_row_witness :
  loadData sampleNumber sampleCompare
           (parseCsv (writeCsv [["resource"; "node"]; ["Plastids"; "Titan"]]
                      ++ String lineFeed
                           (writeCsv [["Rubedo"; "Earth"];
                                      ["Ferrite"; "Mercury"]]))%string)
           [] emptyStore
  = loadData sampleNumber sampleCompare
             (parseCsv (writeCsv (["resource"; "node"]
                                  :: [["Plastids"; "Titan"]]
                                  ++ [["Ferrite"; "Mercury"]])))
             [] emptyStore.
Proof.
  apply (blank_line_drops_next_row
           sampleNumber sampleCompare
           ["resource"; "node"] ["Rubedo"; "Earth"]
           [["Plastids"; "Titan"]] [["Ferrite"; "Mercury"]] [] emptyStore).
  - split; discriminate.
  - repeat constructor; discriminate.
  - split; discriminate.
  - repeat constructor; discriminate.
  - repeat constructor; simpl; intuition discriminate.
  - now left.
Defined.

(** ** The order of the scored nodes *)

Section SortFacts.
Context {A : Type} `{HasScore A}.

Lemma insertBy_Permutation (x : A) (l : list A) :
  Permutation (x :: l) (insertBy byScoreDesc x l).
Proof.
  induction l as [|y l IH]; simpl; [reflexivity|].
  destruct (Qlt_bool (byScoreDesc y x) 0); [|reflexivity].
  rewrite perm_swap. now apply perm_skip.
Qed.

Lemma insertBy_withScore (q : Q) (x : A) (l : list A) :
  withScore q (insertBy byScoreDesc x l) = withScore q (x :: l).
Proof.
  unfold withScore. induction l as [|y l IH]; simpl; [reflexivity|].
  destruct (Qlt_bool (byScoreDesc y x) 0) eqn:Hlt; [|reflexivity].
  simpl. rewrite IH. simpl.
  destruct (Qeq_bool (scoreOf x) q) eqn:Hx;
    destruct (Qeq_bool (scoreOf y) q) eqn:Hy; try reflexivity.
  apply Qlt_bool_iff in Hlt. apply Qeq_bool_iff in Hx, Hy.
  unfold byScoreDesc in Hlt. lra.
Qed.

(** X24: [scored.sort((a, b) => b.score - a.score)] puts the scored nodes in
    descending order of score and changes nothing else: the list holds the
    same nodes, and the nodes of equal score stay in the order in which
    they were scored, that of the records in the catalog. *)
Theorem sort_by_score_is_stable (scored : list A) :
  Permutation scored (sortBy byScoreDesc scored) /\
  Sorted scoreGe (sortBy byScoreDesc scored) /\
  (forall q,
      withScore q (sortBy byScoreDesc scored) = withScore q scored) /\
  (forall first rest,
      sortBy byScoreDesc scored = first :: rest ->
      head (withScore (scoreOf first) scored) = Some first /\
      forall x, In x scored -> scoreOf x <= scoreOf first).
Proof.
  assert (Hperm : Permutation scored (sortBy byScoreDesc scored)).
  { induction scored as [|x l IH]; simpl; [constructor|].
    rewrite <- insertBy_Permutation. now apply perm_skip. }
  assert (Hstable : forall q, withScore q (sortBy byScoreDesc scored)
                              = withScore q scored).
  { intros q. induction scored as [|x l IH]; simpl; [reflexivity|].
    rewrite insertBy_withScore. unfold withScore in *. simpl.
    rewrite IH; [reflexivity|].
    clear. induction l as [|x l IH]; simpl; [constructor|].
    rewrite <- insertBy_Permutation. now apply perm_skip. }
  pose proof (sortBy_Sorted scored) as Hsorted.
  split; [exact Hperm|]. split; [exact Hsorted|]. split; [exact Hstable|].
  intros first rest Hs. split.
  - rewrite <- Hstable, Hs. unfold withScore. simpl.
    replace (Qeq_bool (scoreOf first) (scoreOf first)) with true;
      [reflexivity|].
    symmetry. apply Qeq_bool_iff. reflexivity.
  - intros x Hx. apply (Permutation_in _ Hperm) in Hx. rewrite Hs in Hx, Hsorted.
    apply Sorted_StronglySorted in Hsorted; [|apply scoreGe_Transitive].
    inversion Hsorted as [|? ? _ Hall]; subst.
    destruct Hx as [<-|Hx]; [apply Qle_refl|].
    rewrite Forall_forall in Hall. apply (Hall x Hx).
Qed.

End SortFacts.

(** ** Better records score higher *)

Lemma quickMultiplier_monotone (s s' : Q) :
  s <= s' -> quickMultiplier s <= quickMultiplier s'.
Proof.
  intros Hle. rewrite !quickMultiplier_clamp, !fifth.
  pose proof (clamp_monotone s s' Hle). lra.
Qed.

(** X25: Of two records for the same node, the one with the higher drop score
    and the higher speed score never gets the lower effective score, in
    any run mode, as long as the drop scores are not negative. *)
Theorem computeEffScore_monotone (a b : ScoreObj.t) (runMode : string)
  (meta : NodeMeta.t) :
  0 <= ScoreObj.dropScore a ->
  ScoreObj.dropScore a <= ScoreObj.dropScore b ->
  ScoreObj.speedScore a <= ScoreObj.speedScore b ->
  computeEffScore a runMode meta <= computeEffScore b runMode meta.
Proof.
  intros Hpos Hdrop Hspeed. unfold computeEffScore. cbv zeta.
  destruct (runMode =? "quick"); [|assumption].
  pose proof (quickMultiplier_monotone _ _ Hspeed) as Hq.
  pose proof (quickMultiplier_range (ScoreObj.speedScore a)) as [Ha _].
  pose proof (quickMissionMultiplier_range
                (orElse (NodeMeta.missionType meta) "")
                (NodeMeta.isEndless meta)) as [Hm _].
  set (qa := quickMultiplier (ScoreObj.speedScore a)) in *.
  set (qb := quickMultiplier (ScoreObj.speedScore b)) in *.
  set (mm := quickMissionMultiplier _ _) in *.
  assert (H1 : ScoreObj.dropScore a * qa <= ScoreObj.dropScore b * qb) by nra.
  nra.
Qed.

Lemma computeEffScore_monotone_witness :
  computeEffScore (ScoreObj.mk 3 2 false) "quick"
                  (NodeMeta.mk "Titan" "Saturn" "saturn" "Survival" true 3)
  <= computeEffScore (ScoreObj.mk 4 5 false) "quick"
                     (NodeMeta.mk "Titan" "Saturn" "saturn" "Survival" true 3).
Proof.
  apply (computeEffScore_monotone
           (ScoreObj.mk 3 2 false) (ScoreObj.mk 4 5 false) "quick"
           (NodeMeta.mk "Titan" "Saturn" "saturn" "Survival" true 3));
    unfold Qle; simpl; lia.
Defined.
